(** * PII detection and redaction: a shallow embedding of [pii.py]

    The class [PIIDetectorRedactor] is embedded function by function.
    Python strings are lists of characters; a character is a code point
    below 256 (the Latin-1 range), so the character classes below are the
    restrictions of Python's Unicode classes to that range.  Python
    integers are [Z].  Exceptions are made explicit by the [result] type.

    Record values are the scalars of the data model: null, booleans,
    numbers and strings; numbers are integers here (a float behaves as an
    integer does in this program: falsy when zero, and without [split],
    [len] or subscripts). *)

From Stdlib Require Import Ascii String.
From Stdlib Require Import List Bool Arith ZArith NArith Lia.
Import ListNotations.

(* ================================================================== *)
(** ** Python strings *)

Definition str := list ascii.

(** A literal: [py "abc"] is the Python string ['abc']. *)
Definition py (x : string) : str := list_ascii_of_string x.

Definition ord (c : ascii) : N := N_of_ascii c.

Definition between (lo hi : N) (c : ascii) : bool :=
  ((lo <=? ord c) && (ord c <=? hi))%N.

Definition chr_eqb (a b : ascii) : bool := Ascii.eqb a b.

Fixpoint str_eqb (a b : str) : bool :=
  match a, b with
  | [], [] => true
  | x :: a', y :: b' => chr_eqb x y && str_eqb a' b'
  | _, _ => false
  end.

Definition len (s : str) : Z := Z.of_nat (length s).

(** [s * n] for an integer [n]: the empty string when [n <= 0]. *)
Definition str_mul (s : str) (n : Z) : str :=
  concat (repeat s (Z.to_nat n)).

(** Normalisation of a slice bound against a length, as Python does:
    a negative bound counts from the end, and both are clamped. *)
Definition clamp (n : nat) (i : Z) : nat :=
  if (i <? 0)%Z then Z.to_nat (Z.max 0 (i + Z.of_nat n))
  else Nat.min (Z.to_nat i) n.

(** [s[lo:hi]], either bound possibly omitted. *)
Definition slice (s : str) (lo hi : option Z) : str :=
  let n := length s in
  let a := match lo with Some i => clamp n i | None => 0 end in
  let b := match hi with Some i => clamp n i | None => n end in
  firstn (b - a) (skipn a s).

(* ================================================================== *)
(** ** Values *)

(** The scalars a field can hold: [None], booleans, integers, strings. *)
Inductive value : Type :=
| VNull
| VBool (b : bool)
| VInt (n : Z)
| VStr (s : str).

(** Truth value of an object in a condition. *)
Definition truthy (v : value) : bool :=
  match v with
  | VNull => false
  | VBool b => b
  | VInt n => negb (n =? 0)%Z
  | VStr s => match s with [] => false | _ => true end
  end.

(* ================================================================== *)
(** ** Exceptions *)

(** The built-in exception classes the operations below can raise.
    The last constructor stands for the error class that the error-handling
    section of the specification names, a [MalformedFieldError] carrying a
    field name and a value; the source defines no such class and nothing
    below raises it. *)
Inductive exn : Type :=
| IndexError      (* string index out of range *)
| ValueError      (* not enough / too many values to unpack *)
| AttributeError  (* e.g. an int has no attribute split *)
| TypeError       (* e.g. an int has no len(), is not subscriptable *)
| KeyError
| MalformedFieldError (field : str) (v : value).

Inductive result (A : Type) : Type :=
| Ok (a : A)
| Raise (e : exn).

Arguments Ok {A} a.
Arguments Raise {A} e.

Definition bind {A B} (m : result A) (k : A -> result B) : result B :=
  match m with
  | Ok a => k a
  | Raise e => Raise e
  end.

Notation "x <- m ;; k" := (bind m (fun x => k))
  (at level 61, m at next level, right associativity).
Notation "' p <- m ;; k" := (bind m (fun x => let 'p := x in k))
  (at level 61, p pattern, m at next level, right associativity).

Definition returns {A} (m : result A) : Prop := exists a, m = Ok a.
Definition raises {A} (m : result A) : Prop := exists e, m = Raise e.

(** [s[i]]: one character, as a string; [IndexError] out of range. *)
Definition getitem (s : str) (i : Z) : result str :=
  let j := if (i <? 0)%Z then (i + len s)%Z else i in
  if (j <? 0)%Z then Raise IndexError
  else match nth_error s (Z.to_nat j) with
       | Some c => Ok [c]
       | None => Raise IndexError
       end.

(** [l[i]] on a list, for an index [i >= 0]. *)
Definition list_getitem (l : list str) (i : nat) : result str :=
  match nth_error l i with
  | Some x => Ok x
  | None => Raise IndexError
  end.

(** A loop that appends [f x] to a list for each [x], stopping at the
    first exception. *)
Fixpoint for_append {A B} (f : A -> result B) (l : list A) : result (list B) :=
  match l with
  | [] => Ok []
  | x :: l' => y <- f x ;; ys <- for_append f l' ;; Ok (y :: ys)
  end.

(* ================================================================== *)
(** ** String methods used by the masking functions *)

(** [s.split(sep)] for a one-character separator: every occurrence
    splits; the result is never empty. *)
Fixpoint split_on (sep : ascii) (s : str) : list str :=
  match s with
  | [] => [[]]
  | c :: s' =>
      if chr_eqb c sep then [] :: split_on sep s'
      else match split_on sep s' with
           | w :: ws => (c :: w) :: ws
           | [] => [[c]]
           end
  end.

(** [s.split(sep, 1)]: at most one split, at the first occurrence. *)
Fixpoint split_once (sep : ascii) (s : str) : list str :=
  match s with
  | [] => [[]]
  | c :: s' =>
      if chr_eqb c sep then [[]; s']
      else match split_once sep s' with
           | w :: ws => (c :: w) :: ws
           | [] => [[c]]
           end
  end.

(** [a, b = l]: unpacking into exactly two targets. *)
Definition unpack2 (l : list str) : result (str * str) :=
  match l with
  | [a; b] => Ok (a, b)
  | _ => Raise ValueError
  end.

(** Whitespace of [str.split()] and [str.isspace()] below code point 256. *)
Definition is_space (c : ascii) : bool :=
  between 9 13 c || between 28 32 c
  || (ord c =? 133)%N || (ord c =? 160)%N.

(** [s.split()]: maximal runs of non-whitespace characters.  [cur] is the
    run being read, in reverse. *)
Fixpoint split_ws_aux (cur : str) (s : str) : list str :=
  match s with
  | [] => match cur with [] => [] | _ => [rev cur] end
  | c :: s' =>
      if is_space c
      then match cur with
           | [] => split_ws_aux [] s'
           | _ => rev cur :: split_ws_aux [] s'
           end
      else split_ws_aux (c :: cur) s'
  end.

Definition split_ws (s : str) : list str := split_ws_aux [] s.

(** [sep.join(l)]. *)
Fixpoint join (sep : str) (l : list str) : str :=
  match l with
  | [] => []
  | [w] => w
  | w :: l' => w ++ sep ++ join sep l'
  end.

(** Characters for which [str.isdigit()] holds below code point 256:
    the ten decimal digits and the superscripts two, three and one. *)
Definition is_digit_char (c : ascii) : bool :=
  between 48 57 c
  || (ord c =? 178)%N || (ord c =? 179)%N || (ord c =? 185)%N.

(** [s.isdigit()]: false on the empty string. *)
Definition isdigit (s : str) : bool :=
  match s with
  | [] => false
  | _ => forallb is_digit_char s
  end.

(* ================================================================== *)
(** ** Regular expressions of the [re] module *)

(** Characters matched by [\d] below code point 256. *)
Definition is_decimal (c : ascii) : bool := between 48 57 c.

(** Letters below code point 256. *)
Definition is_alpha (c : ascii) : bool :=
  between 65 90 c || between 97 122 c
  || (ord c =? 170)%N || (ord c =? 181)%N || (ord c =? 186)%N
  || between 192 214 c || between 216 246 c || between 248 255 c.

(** Numeric characters below code point 256. *)
Definition is_numeric (c : ascii) : bool :=
  is_digit_char c || between 188 190 c.

(** Characters matched by [\w]: alphanumerics and the underscore. *)
Definition is_word (c : ascii) : bool :=
  is_alpha c || is_numeric c || (ord c =? 95)%N.

Inductive regex : Type :=
| Void
| Eps
| Cls (p : ascii -> bool)
| Cat (r1 r2 : regex)
| Alt (r1 r2 : regex)
| Star (r : regex).

(** [r{n}] *)
Fixpoint rep (n : nat) (r : regex) : regex :=
  match n with
  | O => Eps
  | S n' => Cat r (rep n' r)
  end.

(** [r{0,n}] *)
Fixpoint upto (n : nat) (r : regex) : regex :=
  match n with
  | O => Eps
  | S n' => Alt Eps (Cat r (upto n' r))
  end.

(** [r{m,n}] with [m <= n]. *)
Definition rep_range (m n : nat) (r : regex) : regex :=
  Cat (rep m r) (upto (n - m) r).

(** [r+] *)
Definition plus (r : regex) : regex := Cat r (Star r).

Fixpoint nullable (r : regex) : bool :=
  match r with
  | Void => false
  | Eps => true
  | Cls _ => false
  | Cat r1 r2 => nullable r1 && nullable r2
  | Alt r1 r2 => nullable r1 || nullable r2
  | Star _ => true
  end.

Fixpoint deriv (c : ascii) (r : regex) : regex :=
  match r with
  | Void => Void
  | Eps => Void
  | Cls p => if p c then Eps else Void
  | Cat r1 r2 =>
      if nullable r1
      then Alt (Cat (deriv c r1) r2) (deriv c r2)
      else Cat (deriv c r1) r2
  | Alt r1 r2 => Alt (deriv c r1) (deriv c r2)
  | Star r1 => Cat (deriv c r1) (Star r1)
  end.

(** The whole of [s] is in the language of [r]. *)
Fixpoint accepts (r : regex) (s : str) : bool :=
  match s with
  | [] => nullable r
  | c :: s' => accepts (deriv c r) s'
  end.

Definition newline : ascii := ascii_of_N 10.

(** [s] without a final newline, when it has one. *)
Definition strip_final_newline (s : str) : option str :=
  match rev s with
  | c :: t => if chr_eqb c newline then Some (rev t) else None
  | [] => None
  end.

(** [re.compile('^' body '$').match(s)] is not [None].  Without the
    MULTILINE flag, [$] matches at the end of the string and also just
    before a newline that ends the string. *)
Definition re_match (body : regex) (s : str) : bool :=
  accepts body s
  || match strip_final_newline s with
     | Some s' => accepts body s'
     | None => false
     end.

(* ================================================================== *)
(** ** Records *)

(** A record is a dict: an insertion-ordered mapping whose keys are
    pairwise distinct. *)
Definition record := list (str * value).

Definition keys (d : record) : list str := map fst d.

Definition well_formed (d : record) : Prop := NoDup (keys d).

(** [d[k]] *)
Fixpoint dict_get (k : str) (d : record) : result value :=
  match d with
  | [] => Raise KeyError
  | (k', v) :: d' => if str_eqb k' k then Ok v else dict_get k d'
  end.

(** [d[k] = v]: replaces the value in place, or appends a new key. *)
Fixpoint dict_set (k : str) (v : value) (d : record) : record :=
  match d with
  | [] => [(k, v)]
  | (k', v') :: d' =>
      if str_eqb k' k then (k', v) :: d' else (k', v') :: dict_set k v d'
  end.

(* ================================================================== *)
(** ** [PIIDetectorRedactor.__init__] *)

Definition k_phone := py "phone".
Definition k_aadhar := py "aadhar".
Definition k_passport := py "passport".
Definition k_upi_id := py "upi_id".
Definition k_name := py "name".
Definition k_email := py "email".
Definition k_address := py "address".
Definition k_device_id := py "device_id".
Definition k_ip_address := py "ip_address".

(** The class of the single character [a]. *)
Definition is_chr (a c : ascii) : bool := chr_eqb c a.

(** [[A-PR-WY]] *)
Definition cls_passport_first (c : ascii) : bool :=
  between 65 80 c || between 82 87 c || is_chr "Y" c.

(** [[A-Z0-9]] *)
Definition cls_upper_digit (c : ascii) : bool :=
  between 65 90 c || between 48 57 c.

(** [[\w.-]] *)
Definition cls_word_dot_hyphen (c : ascii) : bool :=
  is_word c || is_chr "." c || is_chr "-" c.

Module patterns.
(** [^(\d{10})$] *)
Definition phone : regex := rep 10 (Cls is_decimal).
(** [^(\d{12})$] *)
Definition aadhar : regex := rep 12 (Cls is_decimal).
(** [^[A-PR-WY][A-Z0-9]{6,9}$] *)
Definition passport : regex :=
  Cat (Cls cls_passport_first) (rep_range 6 9 (Cls cls_upper_digit)).
(** [^[\w.-]+@[\w.-]+$] *)
Definition upi_id : regex :=
  Cat (plus (Cls cls_word_dot_hyphen))
      (Cat (Cls (is_chr "@")) (plus (Cls cls_word_dot_hyphen))).
End patterns.

Definition combinatorial_pii : list str :=
  [k_name; k_email; k_address; k_device_id; k_ip_address].

Definition standalone_vocabulary : list str :=
  [k_phone; k_aadhar; k_passport; k_upi_id].

(** [k in l] *)
Definition key_in (k : str) (l : list str) : bool := existsb (str_eqb k) l.

(* ================================================================== *)
(** ** [is_standalone_pii] *)

Definition is_standalone_pii (key : str) (v : value) : bool :=
  match v with
  | VStr s =>
      if str_eqb key k_phone && re_match patterns.phone s then true
      else if str_eqb key k_aadhar && re_match patterns.aadhar s then true
      else if str_eqb key k_passport && re_match patterns.passport s then true
      else if str_eqb key k_upi_id && re_match patterns.upi_id s then true
      else false
  | _ => false
  end.

(* ================================================================== *)
(** ** The masking functions, on strings *)

Definition mask_phone (phone : str) : result str :=
  Ok (slice phone None (Some 2%Z) ++ str_mul (py "X") 6
        ++ slice phone (Some (-2)%Z) None).

Definition mask_aadhar (aadhar : str) : result str :=
  Ok (py "XXXX XXXX " ++ slice aadhar (Some (-4)%Z) None).

Definition mask_passport (passport : str) : result str :=
  if (len passport >? 4)%Z then
    c <- getitem passport 0 ;;
    Ok (c ++ str_mul (py "X") (len passport - 4)
          ++ slice passport (Some (-3)%Z) None)
  else Ok passport.

Definition mask_upi (upi : str) : result str :=
  '(username, domain) <- unpack2 (split_once "@" upi) ;;
  masked_username <-
    (if isdigit username && (len username =? 10)%Z then mask_phone username
     else c <- getitem username 0 ;;
          Ok (c ++ str_mul (py "*") (Z.max 3 (len username - 1)))) ;;
  Ok (masked_username ++ py "@" ++ domain).

Definition mask_email (email : str) : result str :=
  '(local_part, domain) <- unpack2 (split_once "@" email) ;;
  masked_local <-
    (if (len local_part >? 1)%Z then
       c <- getitem local_part 0 ;;
       Ok (c ++ str_mul (py "*") (Z.max 3 (len local_part - 1)))
     else Ok (local_part ++ py "***")) ;;
  Ok (masked_local ++ py "@" ++ domain).

(** Body of the loop of [mask_name]. *)
Definition mask_name_part (part : str) : result str :=
  if (len part >? 1)%Z then
    c <- getitem part 0 ;;
    Ok (c ++ str_mul (py "*") (Z.max 3 (len part - 1)))
  else Ok (part ++ py "***").

Definition mask_name (name : str) : result str :=
  masked_parts <- for_append mask_name_part (split_ws name) ;;
  Ok (join (py " ") masked_parts).

(** Body of the loop of [mask_address]. *)
Definition mask_address_word (word : str) : result str :=
  if isdigit word then
    if (len word >? 2)%Z then
      c <- getitem word 0 ;;
      d <- getitem word (-1) ;;
      Ok (c ++ str_mul (py "*") (len word - 2) ++ d)
    else Ok (str_mul (py "*") (len word))
  else
    if (len word >? 1)%Z then
      c <- getitem word 0 ;;
      Ok (c ++ str_mul (py "*") (Z.max 3 (len word - 1)))
    else Ok (word ++ py "***").

Definition mask_address (address : str) : result str :=
  masked_words <- for_append mask_address_word (split_ws address) ;;
  Ok (join (py " ") masked_words).

Definition mask_device_id (device_id : str) : result str :=
  if (len device_id >? 2)%Z then
    c <- getitem device_id 0 ;;
    d <- getitem device_id (-1) ;;
    Ok (c ++ str_mul (py "*") (len device_id - 2) ++ d)
  else Ok (str_mul (py "*") (len device_id)).

Definition mask_ip_address (ip : str) : result str :=
  let parts := split_on "." ip in
  if (length parts =? 4)%nat then
    p0 <- list_getitem parts 0 ;;
    p1 <- list_getitem parts 1 ;;
    Ok (p0 ++ py "." ++ p1 ++ py ".*.*")
  else Ok ip.

(* ================================================================== *)
(** ** [process_record] *)

(** A masking function called on an arbitrary object.  On a string it is
    the function above; on any other scalar its first operation on the
    argument raises [e]: [AttributeError] where that is a method call
    ([split]), [TypeError] where it is [len] or a subscript. *)
Definition call (e : exn) (f : str -> result str) (v : value) : result value :=
  match v with
  | VStr s => r <- f s ;; Ok (VStr r)
  | _ => Raise e
  end.

(** The variables of the first loop. *)
Record scan : Type := Scan {
  redacted_record : record;
  has_standalone_pii : bool;
  combinatorial_fields_present : list str
}.

(** The [if]/[elif] chain under [if self.is_standalone_pii(key, value)]. *)
Definition redact_standalone (key : str) (v : value) (red : record)
  : result record :=
  if str_eqb key k_phone then
    m <- call TypeError mask_phone v ;; Ok (dict_set key m red)
  else if str_eqb key k_aadhar then
    m <- call TypeError mask_aadhar v ;; Ok (dict_set key m red)
  else if str_eqb key k_passport then
    m <- call TypeError mask_passport v ;; Ok (dict_set key m red)
  else if str_eqb key k_upi_id then
    m <- call AttributeError mask_upi v ;; Ok (dict_set key m red)
  else Ok red.

(** One iteration of [for key, value in record.items()]. *)
Definition scan_item (st : scan) (item : str * value) : result scan :=
  let '(key, v) := item in
  st1 <-
    (if is_standalone_pii key v then
       red <- redact_standalone key v (redacted_record st) ;;
       Ok (Scan red true (combinatorial_fields_present st))
     else Ok st) ;;
  if key_in key combinatorial_pii && truthy v then
    Ok (Scan (redacted_record st1) (has_standalone_pii st1)
             (combinatorial_fields_present st1 ++ [key]))
  else Ok st1.

Fixpoint scan_items (st : scan) (items : list (str * value)) : result scan :=
  match items with
  | [] => Ok st
  | item :: rest => st' <- scan_item st item ;; scan_items st' rest
  end.

(** One iteration of [for key in combinatorial_fields_present]. *)
Definition redact_combinatorial (rec : record) (red : record) (key : str)
  : result record :=
  v <- dict_get key rec ;;
  if str_eqb key k_name then
    m <- call AttributeError mask_name v ;; Ok (dict_set key m red)
  else if str_eqb key k_email then
    m <- call AttributeError mask_email v ;; Ok (dict_set key m red)
  else if str_eqb key k_address then
    m <- call AttributeError mask_address v ;; Ok (dict_set key m red)
  else if str_eqb key k_device_id then
    m <- call TypeError mask_device_id v ;; Ok (dict_set key m red)
  else if str_eqb key k_ip_address then
    m <- call AttributeError mask_ip_address v ;; Ok (dict_set key m red)
  else Ok red.

Fixpoint redact_all (rec : record) (red : record) (ks : list str)
  : result record :=
  match ks with
  | [] => Ok red
  | key :: rest =>
      red' <- redact_combinatorial rec red key ;; redact_all rec red' rest
  end.

Definition process_record (rec : record) : result (record * bool) :=
  st <- scan_items (Scan rec false []) rec ;;
  let has_combinatorial_pii :=
    (2 <=? length (combinatorial_fields_present st))%nat in
  red <-
    (if has_combinatorial_pii
     then redact_all rec (redacted_record st) (combinatorial_fields_present st)
     else Ok (redacted_record st)) ;;
  let is_pii := has_standalone_pii st || has_combinatorial_pii in
  Ok (red, is_pii).

(* ================================================================== *)
(** ** Notions used to state the properties *)

(** The language of a regular expression. *)
Inductive lang : regex -> str -> Prop :=
| L_Eps : lang Eps []
| L_Cls p c : p c = true -> lang (Cls p) [c]
| L_Cat r1 r2 s1 s2 :
    lang r1 s1 -> lang r2 s2 -> lang (Cat r1 r2) (s1 ++ s2)
| L_AltL r1 r2 s : lang r1 s -> lang (Alt r1 r2) s
| L_AltR r1 r2 s : lang r2 s -> lang (Alt r1 r2) s
| L_Star0 r : lang (Star r) []
| L_StarS r s1 s2 :
    lang r s1 -> lang (Star r) s2 -> lang (Star r) (s1 ++ s2).

(** Every character of [s] satisfies [p]. *)
Definition all_chars (p : ascii -> bool) (s : str) : bool := forallb p s.

(** [s] consists of exactly [n] decimal digits. *)
Definition digits (n : nat) (s : str) : Prop :=
  length s = n /\ all_chars is_decimal s = true.

(** [w] occurs in [s] as a contiguous run. *)
Definition run_of (w s : str) : Prop :=
  exists pre post, s = pre ++ w ++ post.

(** A run of [n] or more characters of [orig] is found unchanged in [out]. *)
Definition survives (n : nat) (orig out : str) : Prop :=
  exists w, n <= length w /\ run_of w orig /\ run_of w out.

Definition has_char (c : ascii) (s : str) : bool := existsb (chr_eqb c) s.

(** The pattern registered for a standalone field name. *)
Definition registered_pattern (k : str) : option regex :=
  if str_eqb k k_phone then Some patterns.phone
  else if str_eqb k k_aadhar then Some patterns.aadhar
  else if str_eqb k k_passport then Some patterns.passport
  else if str_eqb k k_upi_id then Some patterns.upi_id
  else None.

(** Some field of the record passes the test of [is_standalone_pii]:
    the detector as the code applies it. *)
Definition detector_hit (rec : record) : Prop :=
  exists k s r,
    In (k, VStr s) rec /\ In k standalone_vocabulary /\
    registered_pattern k = Some r /\ re_match r s = true.

(** Some field of the record is a standalone match, in the words of the
    specification: its name is in the standalone vocabulary and the whole of
    its string value is a word of that field's pattern. *)
Definition standalone_hit (rec : record) : Prop :=
  exists k s r,
    In (k, VStr s) rec /\ In k standalone_vocabulary /\
    registered_pattern k = Some r /\ lang r s.

(** Some standalone field holds a word of its pattern followed by one
    newline: the values on which the test of the code and the full-string
    match differ. *)
Definition newline_slip (rec : record) : Prop :=
  exists k t r,
    In (k, VStr (t ++ [newline])) rec /\
    registered_pattern k = Some r /\ lang r t.

(** Two distinct combinatorial fields are present with truthy values. *)
Definition combinatorial_hit (rec : record) : Prop :=
  exists k1 v1 k2 v2,
    k1 <> k2 /\
    In k1 combinatorial_pii /\ In k2 combinatorial_pii /\
    In (k1, v1) rec /\ In (k2, v2) rec /\
    truthy v1 = true /\ truthy v2 = true.

(** The test made on each item by the combinatorial scan. *)
Definition is_present (item : str * value) : bool :=
  key_in (fst item) combinatorial_pii && truthy (snd item).

Definition present_items (rec : record) : list (str * value) :=
  filter is_present rec.

Definition present_fields (rec : record) : list str := keys (present_items rec).

Definition threshold_reached (rec : record) : bool :=
  (2 <=? length (present_fields rec))%nat.

Definition is_standalone_item (item : str * value) : bool :=
  is_standalone_pii (fst item) (snd item).

(** The value is one its field's masking function accepts: a string, and
    for [email] one that contains an [@]. *)
Definition maskable (item : str * value) : bool :=
  match snd item with
  | VStr s => if str_eqb (fst item) k_email then has_char "@" s else true
  | _ => false
  end.

(** Every masking call of the combinatorial pass is on an accepted value. *)
Definition masking_defined (rec : record) : bool :=
  if threshold_reached rec then forallb maskable (present_items rec) else true.

Definition is_string (v : value) : bool :=
  match v with VStr _ => true | _ => false end.

(** What an assignment [red[key] = m] leaves alone. *)
Definition same_but (k : str) (red red' : record) : Prop :=
  (forall k', k' <> k -> dict_get k' red' = dict_get k' red) /\
  (In k (keys red) -> keys red' = keys red).

(** The exceptions of the second loop are those of the masking calls. *)
Definition masking_error (e : exn) : Prop :=
  e = ValueError \/ e = AttributeError \/ e = TypeError.

Definition differs_from (c : ascii) (x : ascii) : bool := negb (chr_eqb c x).

(** The masked form of a local part, a user name or a name part. *)
Definition starred (s : str) : str :=
  firstn 1 s ++ repeat "*"%char (Nat.max 3 (length s - 1)).

(** The four parts of a dotted quad. *)
Definition dotted (a b c d : str) : str :=
  a ++ "."%char :: b ++ "."%char :: c ++ "."%char :: d.

(** Masking twice: the masking function applied to its own output. *)
Definition twice (f : str -> result str) (v : str) : result str :=
  m <- f v ;; f m.

(** The number of characters before the first [c] of [s]. *)
Fixpoint lead (c : ascii) (s : str) : nat :=
  match s with
  | [] => 0
  | x :: s' => if chr_eqb c x then 0 else S (lead c s')
  end.

(** Every window of [n] characters of [s] contains a [c]. *)
Definition covered (c : ascii) (n : nat) (s : str) : Prop :=
  forall w, length w = n -> run_of w s -> has_char c w = true.

(** A masked token: at most one character, a non-empty block of [c], and
    at most [q] characters. *)
Definition blocky (c : ascii) (q : nat) (p : str) : Prop :=
  exists a k b,
    p = a ++ repeat c k ++ b /\ length a <= 1 /\ 1 <= k /\ length b <= q.

(** What the loops of [mask_name] and [mask_address] append for a token. *)
Definition name_part_mask (part : str) : str :=
  if (1 <? length part)%nat then starred part else part ++ py "***".

Definition address_word_mask (word : str) : str :=
  if isdigit word then
    if (2 <? length word)%nat
    then firstn 1 word ++ repeat "*"%char (length word - 2)
           ++ skipn (length word - 1) word
    else repeat "*"%char (length word)
  else name_part_mask word.

Definition space : ascii := " "%char.

Definition not_space (c : ascii) : bool := negb (is_space c).

(** A token of [str.split()]: non-empty and free of whitespace. *)
Definition token (t : str) : Prop :=
  t <> [] /\ all_chars not_space t = true.

(* ================================================================== *)
(** ** Further notions *)

(** The number of occurrences of [c] in [s]. *)
Definition count_char (c : ascii) (s : str) : nat :=
  length (filter (chr_eqb c) s).

(** The masking function [process_record] calls for a standalone field. *)
Definition standalone_mask (k : str) : option (str -> result str) :=
  if str_eqb k k_phone then Some mask_phone
  else if str_eqb k k_aadhar then Some mask_aadhar
  else if str_eqb k k_passport then Some mask_passport
  else if str_eqb k k_upi_id then Some mask_upi
  else None.

(** The masking function [process_record] calls for a combinatorial field. *)
Definition combinatorial_mask (k : str) : option (str -> result str) :=
  if str_eqb k k_name then Some mask_name
  else if str_eqb k k_email then Some mask_email
  else if str_eqb k k_address then Some mask_address
  else if str_eqb k k_device_id then Some mask_device_id
  else if str_eqb k k_ip_address then Some mask_ip_address
  else None.

(* ================================================================== *)
(** ** The driver [main] *)

(** A row of [csv.DictReader]: column name to text. *)
Definition csv_row := list (str * str).

(** [row[k]] *)
Fixpoint row_get (k : str) (row : csv_row) : result str :=
  match row with
  | [] => Raise KeyError
  | (k', x) :: row' => if str_eqb k' k then Ok x else row_get k row'
  end.

(** What [json.loads] returns: an object, whose fields are a record, or
    any other JSON value (array, string, number, boolean, null). *)
Inductive document : Type :=
| DObject (fields : record)
| DOther.

(** A row of the output file. *)
Record output_row : Type := OutputRow {
  out_record_id : str;
  out_redacted_data_json : str;
  out_is_pii : bool
}.

Section Driver.

(** The two functions of the [json] module are parameters: [json_loads]
    raises on text that is not JSON. *)
Variable json_loads : str -> result document.
Variable json_dumps : record -> str.

(** [process_record] on what [json.loads] returned: on a value that is
    not an object, [record.copy()] or [record.items()] does not exist. *)
Definition process_document (d : document) : result (record * bool) :=
  match d with
  | DObject fields => process_record fields
  | DOther => Raise AttributeError
  end.

(** The body of [for row in reader]. *)
Definition main_row (row : csv_row) : result output_row :=
  record_id <- row_get (py "record_id") row ;;
  text <- row_get (py "data_json") row ;;
  data_json <- json_loads text ;;
  '(redacted_data, is_pii) <- process_document data_json ;;
  Ok (OutputRow record_id (json_dumps redacted_data) is_pii).

(** The loop of [main]: the rows written to the output file, after its
    header, and how the loop ended.  Nothing catches an exception. *)
Fixpoint main_rows (rows : list csv_row) : list output_row * result unit :=
  match rows with
  | [] => ([], Ok tt)
  | row :: rest =>
      match main_row row with
      | Ok out => let '(written, outcome) := main_rows rest in
                  (out :: written, outcome)
      | Raise e => ([], Raise e)
      end
  end.

End Driver.
(* ================================================================== *)
(** ** Evaluation on the documented examples *)

Example ex_phone : mask_phone (py "9876543210") = Ok (py "98XXXXXX10").
Proof. reflexivity. Qed.

Example ex_aadhar : mask_aadhar (py "123456789012") = Ok (py "XXXX XXXX 9012").
Proof. reflexivity. Qed.

Example ex_passport : mask_passport (py "P1234567") = Ok (py "PXXXX567").
Proof. reflexivity. Qed.

Example ex_upi : mask_upi (py "user@upi") = Ok (py "u***@upi").
Proof. reflexivity. Qed.

Example ex_name : mask_name (py "John Doe") = Ok (py "J*** D***").
Proof. reflexivity. Qed.

Example ex_device : mask_device_id (py "DEV123456") = Ok (py "D*******6").
Proof. reflexivity. Qed.

Example ex_ip : mask_ip_address (py "192.168.1.1") = Ok (py "192.168.*.*").
Proof. reflexivity. Qed.

Example ex_address : mask_address (py "123 Main St") = Ok (py "1*3 M*** S***").
Proof. reflexivity. Qed.

Example ex_record_phone :
  process_record [(k_phone, VStr (py "9876543210"))]
  = Ok ([(k_phone, VStr (py "98XXXXXX10"))], true).
Proof. reflexivity. Qed.

Example ex_record_single_name :
  process_record [(k_name, VStr (py "John Doe"))]
  = Ok ([(k_name, VStr (py "John Doe"))], false).
Proof. reflexivity. Qed.

Example ex_record_name_email :
  process_record [(k_name, VStr (py "John Doe")); (k_email, VStr (py "x@y.com"))]
  = Ok ([(k_name, VStr (py "J*** D***")); (k_email, VStr (py "x***@y.com"))], true).
Proof. reflexivity. Qed.

Example ex_record_ip_device :
  process_record [(k_ip_address, VStr (py "192.168.1.1"));
                  (k_device_id, VStr (py "DEV123456"))]
  = Ok ([(k_ip_address, VStr (py "192.168.*.*"));
         (k_device_id, VStr (py "D*******6"))], true).
Proof. reflexivity. Qed.

(* ================================================================== *)
(** ** Basic facts on strings *)

Lemma chr_eqb_eq (a b : ascii) : chr_eqb a b = true <-> a = b.
Proof. apply Ascii.eqb_eq. Qed.

Lemma chr_eqb_refl (a : ascii) : chr_eqb a a = true.
Proof. apply chr_eqb_eq; reflexivity. Qed.

Lemma chr_eqb_neq (a b : ascii) : chr_eqb a b = false <-> a <> b.
Proof. apply Ascii.eqb_neq. Qed.

Lemma str_eqb_eq (a b : str) : str_eqb a b = true <-> a = b.
Proof.
  revert b; induction a as [|x a IH]; intros [|y b]; simpl;
    try (split; [discriminate | discriminate]); try tauto.
  rewrite andb_true_iff, chr_eqb_eq, IH.
  split; [intros [-> ->]; reflexivity | intros E; inversion E; auto].
Qed.

Lemma str_eqb_refl (a : str) : str_eqb a a = true.
Proof. apply str_eqb_eq; reflexivity. Qed.

Lemma str_eqb_neq (a b : str) : str_eqb a b = false <-> a <> b.
Proof.
  rewrite <- str_eqb_eq. destruct (str_eqb a b); split; congruence.
Qed.

Lemma str_eqb_sym (a b : str) : str_eqb a b = str_eqb b a.
Proof.
  destruct (str_eqb a b) eqn:E.
  - apply str_eqb_eq in E; subst; symmetry; apply str_eqb_refl.
  - symmetry; apply str_eqb_neq. apply str_eqb_neq in E. congruence.
Qed.

(* ================================================================== *)
(** ** The matcher decides the language *)

Section Matcher.

Lemma lang_cls_inv (p : ascii -> bool) (s : str) :
  lang (Cls p) s <-> exists c, s = [c] /\ p c = true.
Proof.
  split.
  - intros H; inversion H; subst; eauto.
  - intros (c & -> & H); constructor; assumption.
Qed.

Lemma lang_cat_inv (r1 r2 : regex) (s : str) :
  lang (Cat r1 r2) s <->
  exists s1 s2, s = s1 ++ s2 /\ lang r1 s1 /\ lang r2 s2.
Proof.
  split.
  - intros H; inversion H; subst; eauto.
  - intros (s1 & s2 & -> & H1 & H2); constructor; assumption.
Qed.

Lemma nullable_lang (r : regex) : nullable r = true <-> lang r [].
Proof.
  induction r; simpl.
  - split; [discriminate | intros H; inversion H].
  - split; [constructor | reflexivity].
  - split; [discriminate | intros H; inversion H].
  - rewrite andb_true_iff, IHr1, IHr2. split.
    + intros [H1 H2]. change (@nil ascii) with (@nil ascii ++ []).
      constructor; assumption.
    + intros H. apply lang_cat_inv in H as (s1 & s2 & E & H1 & H2).
      destruct s1; [|discriminate]. destruct s2; [|discriminate]. auto.
  - rewrite orb_true_iff, IHr1, IHr2. split.
    + intros [H|H]; [apply L_AltL | apply L_AltR]; assumption.
    + intros H; inversion H; subst; auto.
  - split; [constructor | reflexivity].
Qed.

(** A non-empty word of [Star r] starts with a non-empty word of [r]. *)
Lemma star_cons (r : regex) (s : str) :
  lang (Star r) s ->
  forall c t, s = c :: t ->
  exists t1 t2, t = t1 ++ t2 /\ lang r (c :: t1) /\ lang (Star r) t2.
Proof.
  intros H. remember (Star r) as q eqn:Eq.
  induction H as [| | | | | |r0 s1 s2 H1 _ H2 IH2]; try discriminate.
  injection Eq as ->. intros c t E.
  destruct s1 as [|x s1].
  - simpl in E. apply (IH2 eq_refl c t E).
  - simpl in E. injection E as -> <-. exists s1, s2. auto.
Qed.

Lemma deriv_lang (r : regex) :
  forall c s, lang (deriv c r) s <-> lang r (c :: s).
Proof.
  induction r; intros c s; simpl.
  - split; intros H; inversion H.
  - split; intros H; inversion H.
  - destruct (p c) eqn:E; split; intros H; inversion H; subst.
    + constructor; assumption.
    + constructor.
    + congruence.
  - split.
    + intros H.
      assert (Hcat : forall u, lang (Cat (deriv c r1) r2) u ->
                               lang (Cat r1 r2) (c :: u)).
      { intros u Hu. apply lang_cat_inv in Hu as (s1 & s2 & -> & H1 & H2).
        change (c :: s1 ++ s2) with ((c :: s1) ++ s2).
        constructor; [apply IHr1; assumption | assumption]. }
      destruct (nullable r1) eqn:N.
      * inversion H; subst; [apply Hcat; assumption|].
        change (c :: s) with ([] ++ c :: s). constructor.
        -- apply nullable_lang; assumption.
        -- apply IHr2; assumption.
      * apply Hcat; assumption.
    + intros H. apply lang_cat_inv in H as (s1 & s2 & E & H1 & H2).
      destruct s1 as [|x s1].
      * simpl in E; subst s2.
        apply nullable_lang in H1. rewrite H1.
        apply L_AltR, IHr2; assumption.
      * simpl in E. injection E as <- ->.
        assert (lang (Cat (deriv c r1) r2) (s1 ++ s2))
          by (constructor; [apply IHr1|]; assumption).
        destruct (nullable r1); [apply L_AltL|]; assumption.
  - split; intros H; inversion H; subst.
    + apply L_AltL, IHr1; assumption.
    + apply L_AltR, IHr2; assumption.
    + apply L_AltL, IHr1; assumption.
    + apply L_AltR, IHr2; assumption.
  - split.
    + intros H. apply lang_cat_inv in H as (s1 & s2 & -> & H1 & H2).
      change (c :: s1 ++ s2) with ((c :: s1) ++ s2).
      constructor; [apply IHr; assumption | assumption].
    + intros H.
      destruct (star_cons r (c :: s) H c s eq_refl) as (t1 & t2 & -> & H1 & H2).
      constructor; [apply IHr; assumption | assumption].
Qed.

Lemma accepts_lang (r : regex) (s : str) : accepts r s = true <-> lang r s.
Proof.
  revert r; induction s as [|c s IH]; intros r; simpl.
  - apply nullable_lang.
  - rewrite IH. apply deriv_lang.
Qed.

End Matcher.

(** *** Languages of the building blocks *)

Lemma lang_rep_cls (p : ascii -> bool) (n : nat) (s : str) :
  lang (rep n (Cls p)) s <-> length s = n /\ all_chars p s = true.
Proof.
  revert s; induction n as [|n IH]; intros s; simpl.
  - split.
    + intros H; inversion H; subst; auto.
    + intros [E _]. destruct s; [constructor | discriminate].
  - rewrite lang_cat_inv. split.
    + intros (s1 & s2 & -> & H1 & H2).
      apply lang_cls_inv in H1 as (c & -> & Hc). apply IH in H2 as [E A].
      simpl. unfold all_chars in *. simpl. rewrite Hc, A, E. auto.
    + intros [E A]. destruct s as [|c s]; [discriminate|].
      unfold all_chars in A. simpl in *. apply andb_true_iff in A as [Hc A].
      exists [c], s. repeat split.
      * constructor; assumption.
      * apply IH. split; [lia | exact A].
Qed.

Lemma lang_upto_cls (p : ascii -> bool) (n : nat) (s : str) :
  lang (upto n (Cls p)) s <-> length s <= n /\ all_chars p s = true.
Proof.
  revert s; induction n as [|n IH]; intros s; simpl.
  - split.
    + intros H; inversion H; subst; auto.
    + intros [E _]. destruct s; [constructor | simpl in E; lia].
  - split.
    + intros H; inversion H as [| | |? ? ? H1|? ? ? H1| |]; subst.
      * inversion H1; subst. simpl; split; [lia | reflexivity].
      * apply lang_cat_inv in H1 as (s1 & s2 & -> & H1 & H2).
        apply lang_cls_inv in H1 as (c & -> & Hc). apply IH in H2 as [E A].
        unfold all_chars in *. simpl. rewrite Hc, A. split; [lia | reflexivity].
    + intros [E A]. destruct s as [|c s]; [apply L_AltL; constructor|].
      unfold all_chars in A. simpl in *. apply andb_true_iff in A as [Hc A].
      apply L_AltR. change (c :: s) with ([c] ++ s). constructor.
      * constructor; assumption.
      * apply IH. split; [lia | exact A].
Qed.

Lemma lang_star_cls (p : ascii -> bool) (s : str) :
  lang (Star (Cls p)) s <-> all_chars p s = true.
Proof.
  split.
  - intros H. remember (Star (Cls p)) as q eqn:Eq.
    induction H as [| | | | | |r0 s1 s2 H1 _ H2 IH2]; try discriminate.
    + reflexivity.
    + injection Eq as ->. apply lang_cls_inv in H1 as (c & -> & Hc).
      unfold all_chars in *. simpl. rewrite Hc. apply IH2; reflexivity.
  - induction s as [|c s IH]; intros A; [constructor|].
    unfold all_chars in A. simpl in A. apply andb_true_iff in A as [Hc A].
    change (c :: s) with ([c] ++ s). constructor; [constructor|]; auto.
Qed.

Lemma lang_plus_cls (p : ascii -> bool) (s : str) :
  lang (plus (Cls p)) s <-> s <> [] /\ all_chars p s = true.
Proof.
  unfold plus. rewrite lang_cat_inv. split.
  - intros (s1 & s2 & -> & H1 & H2).
    apply lang_cls_inv in H1 as (c & -> & Hc). apply lang_star_cls in H2.
    split; [discriminate|]. unfold all_chars in *. simpl. rewrite Hc; exact H2.
  - intros [N A]. destruct s as [|c s]; [congruence|].
    unfold all_chars in A. simpl in A. apply andb_true_iff in A as [Hc A].
    exists [c], s. repeat split; [constructor; assumption|].
    apply lang_star_cls; exact A.
Qed.

(** *** The line-end anchor *)

Lemma strip_final_newline_spec (s t : str) :
  strip_final_newline s = Some t <-> s = t ++ [newline].
Proof.
  unfold strip_final_newline. split.
  - destruct (rev s) as [|c u] eqn:E; [discriminate|].
    destruct (chr_eqb c newline) eqn:C; [|discriminate].
    intros [= <-]. apply chr_eqb_eq in C; subst c.
    rewrite <- (rev_involutive s), E. reflexivity.
  - intros ->. rewrite rev_app_distr. cbn [rev app].
    change (chr_eqb newline newline) with true. cbv iota.
    rewrite rev_involutive. reflexivity.
Qed.

(** [re_match] holds exactly on the words of the body and on those words
    followed by one newline. *)
Lemma re_match_spec (body : regex) (s : str) :
  re_match body s = true <->
  lang body s \/ exists t, s = t ++ [newline] /\ lang body t.
Proof.
  unfold re_match. rewrite orb_true_iff, accepts_lang. split.
  - intros [H|H]; [left; exact H|right].
    destruct (strip_final_newline s) as [t|] eqn:E; [|discriminate].
    apply strip_final_newline_spec in E. apply accepts_lang in H. eauto.
  - intros [H|(t & E & H)]; [left; exact H|right].
    apply strip_final_newline_spec in E. rewrite E.
    apply accepts_lang; exact H.
Qed.

(* ================================================================== *)
(** ** Indexing, slicing and splitting *)

Lemma chr_eqb_sym (a b : ascii) : chr_eqb a b = chr_eqb b a.
Proof.
  destruct (chr_eqb a b) eqn:E.
  - apply chr_eqb_eq in E; subst; symmetry; apply chr_eqb_refl.
  - symmetry; apply chr_eqb_neq. apply chr_eqb_neq in E. congruence.
Qed.

Lemma getitem_first (c : ascii) (s : str) : getitem (c :: s) 0 = Ok [c].
Proof. reflexivity. Qed.

Lemma getitem_last (s : str) (d : ascii) : getitem (s ++ [d]) (-1) = Ok [d].
Proof.
  unfold getitem, len. rewrite length_app.
  change (-1 <? 0)%Z with true. cbv iota zeta. cbn [length].
  replace (-1 + Z.of_nat (length s + 1))%Z with (Z.of_nat (length s)) by lia.
  destruct (Z.ltb_spec (Z.of_nat (length s)) 0); [lia|].
  rewrite Nat2Z.id, nth_error_app2 by lia.
  rewrite Nat.sub_diag. reflexivity.
Qed.

Lemma getitem_last_returns (s : str) :
  s <> [] -> exists d, getitem s (-1) = Ok [d] /\ s = removelast s ++ [d].
Proof.
  intros N. destruct (exists_last N) as (t & d & ->).
  exists d. rewrite getitem_last, removelast_last. auto.
Qed.

Lemma str_mul_char_repeat (c : ascii) (n : Z) :
  str_mul [c] n = repeat c (Z.to_nat n).
Proof.
  unfold str_mul. induction (Z.to_nat n) as [|k IH]; simpl; [reflexivity|].
  rewrite IH. reflexivity.
Qed.

(** [s[:n]] and [s[-n:]] in terms of [firstn] and [skipn]. *)
Lemma slice_prefix (s : str) (n : nat) :
  slice s None (Some (Z.of_nat n)) = firstn n s.
Proof.
  unfold slice, clamp. destruct (Z.ltb_spec (Z.of_nat n) 0); [lia|].
  rewrite Nat2Z.id, Nat.sub_0_r. simpl skipn.
  destruct (Nat.le_ge_cases n (length s)).
  - rewrite Nat.min_l by assumption. reflexivity.
  - rewrite Nat.min_r by assumption.
    rewrite !firstn_all2 by lia. reflexivity.
Qed.

Lemma slice_suffix (s : str) (n : nat) :
  0 < n -> slice s (Some (- Z.of_nat n)%Z) None = skipn (length s - n) s.
Proof.
  intros Hn. unfold slice, clamp.
  destruct (Z.ltb_spec (- Z.of_nat n) 0); [|lia].
  replace (Z.to_nat (Z.max 0 (- Z.of_nat n + Z.of_nat (length s))))
    with (length s - n) by lia.
  apply firstn_all2. rewrite length_skipn. lia.
Qed.

(** *** [split('@', 1)] *)

Lemma split_once_absent (sep : ascii) (s : str) :
  has_char sep s = false -> split_once sep s = [s].
Proof.
  unfold has_char. induction s as [|c s IH]; simpl; [reflexivity|].
  intros H. apply orb_false_iff in H as [H1 H2].
  rewrite chr_eqb_sym, H1, (IH H2). reflexivity.
Qed.

Lemma split_once_present (sep : ascii) (s : str) :
  has_char sep s = true ->
  exists a b, split_once sep s = [a; b] /\ s = a ++ sep :: b /\
              has_char sep a = false.
Proof.
  unfold has_char. induction s as [|c s IH]; simpl; [discriminate|].
  intros H. rewrite (chr_eqb_sym c sep).
  destruct (chr_eqb sep c) eqn:E.
  - apply chr_eqb_eq in E; subst c. exists [], s. auto.
  - simpl in H. destruct (IH H) as (a & b & -> & -> & Ha).
    exists (c :: a), b. simpl. rewrite E, Ha. auto.
Qed.

Lemma split_once_app (sep : ascii) (a b : str) :
  has_char sep a = false -> split_once sep (a ++ sep :: b) = [a; b].
Proof.
  unfold has_char. induction a as [|c a IH]; simpl.
  - rewrite chr_eqb_refl. reflexivity.
  - intros H. apply orb_false_iff in H as [H1 H2].
    rewrite chr_eqb_sym, H1, (IH H2). reflexivity.
Qed.

Lemma has_char_app (c : ascii) (a b : str) :
  has_char c (a ++ b) = has_char c a || has_char c b.
Proof. apply existsb_app. Qed.

(** A character outside a class does not occur in a string of the class. *)
Lemma all_chars_no_char (p : ascii -> bool) (c : ascii) (s : str) :
  p c = false -> all_chars p s = true -> has_char c s = false.
Proof.
  intros Hc. unfold all_chars, has_char.
  induction s as [|x s IH]; simpl; [reflexivity|].
  intros H. apply andb_true_iff in H as [Hx H]. rewrite (IH H), orb_false_r.
  apply chr_eqb_neq. intros ->. congruence.
Qed.

(* ================================================================== *)
(** ** Which masking functions return, and when *)

Lemma for_append_returns {A B} (f : A -> result B) (l : list A) :
  (forall x, returns (f x)) -> returns (for_append f l).
Proof.
  intros Hf. induction l as [|x l [ys IH]]; simpl.
  - exists []; reflexivity.
  - destruct (Hf x) as [y ->]. simpl. rewrite IH. simpl. eexists; reflexivity.
Qed.

Lemma mask_phone_returns (s : str) : returns (mask_phone s).
Proof. eexists; reflexivity. Qed.

Lemma mask_aadhar_returns (s : str) : returns (mask_aadhar s).
Proof. eexists; reflexivity. Qed.

Lemma mask_passport_returns (s : str) : returns (mask_passport s).
Proof.
  unfold mask_passport. destruct (len s >? 4)%Z eqn:E.
  - destruct s as [|c s]; [discriminate|].
    rewrite getitem_first. eexists; reflexivity.
  - eexists; reflexivity.
Qed.

Lemma mask_name_part_returns (s : str) : returns (mask_name_part s).
Proof.
  unfold mask_name_part. destruct (len s >? 1)%Z eqn:E.
  - destruct s as [|c s]; [discriminate|].
    rewrite getitem_first. eexists; reflexivity.
  - eexists; reflexivity.
Qed.

Lemma mask_name_returns (s : str) : returns (mask_name s).
Proof.
  unfold mask_name.
  destruct (for_append_returns mask_name_part (split_ws s)
              mask_name_part_returns) as [ps ->].
  eexists; reflexivity.
Qed.

Lemma mask_address_word_returns (s : str) : returns (mask_address_word s).
Proof.
  unfold mask_address_word. destruct (isdigit s).
  - destruct (len s >? 2)%Z eqn:E; [|eexists; reflexivity].
    destruct s as [|c s]; [discriminate|].
    rewrite getitem_first.
    destruct (getitem_last_returns (c :: s)) as (d & -> & _); [discriminate|].
    eexists; reflexivity.
  - destruct (len s >? 1)%Z eqn:E; [|eexists; reflexivity].
    destruct s as [|c s]; [discriminate|].
    rewrite getitem_first. eexists; reflexivity.
Qed.

Lemma mask_address_returns (s : str) : returns (mask_address s).
Proof.
  unfold mask_address.
  destruct (for_append_returns mask_address_word (split_ws s)
              mask_address_word_returns) as [ps ->].
  eexists; reflexivity.
Qed.

Lemma mask_device_id_returns (s : str) : returns (mask_device_id s).
Proof.
  unfold mask_device_id.
  destruct (len s >? 2)%Z eqn:E; [|eexists; reflexivity].
  destruct s as [|c s]; [discriminate|].
  rewrite getitem_first.
  destruct (getitem_last_returns (c :: s)) as (d & -> & _); [discriminate|].
  eexists; reflexivity.
Qed.

Lemma mask_ip_address_returns (s : str) : returns (mask_ip_address s).
Proof.
  unfold mask_ip_address.
  destruct (length (split_on "." s) =? 4)%nat eqn:E; [|eexists; reflexivity].
  apply Nat.eqb_eq in E.
  destruct (split_on "." s) as [|p0 [|p1 [|p2 [|p3 [|]]]]]; try discriminate.
  eexists; reflexivity.
Qed.

(** [mask_email] returns exactly on the strings that contain an [@]. *)
Lemma mask_email_returns (s : str) :
  returns (mask_email s) <-> has_char "@" s = true.
Proof.
  unfold mask_email. destruct (has_char "@" s) eqn:H.
  - split; [reflexivity|intros _].
    destruct (split_once_present _ _ H) as (a & b & -> & _ & _). simpl.
    destruct (len a >? 1)%Z eqn:E; [|eexists; reflexivity].
    destruct a as [|c a]; [discriminate|].
    rewrite getitem_first. eexists; reflexivity.
  - rewrite (split_once_absent _ _ H). simpl.
    split; [intros [m Hm]; discriminate | discriminate].
Qed.

Lemma mask_email_no_at (s : str) :
  has_char "@" s = false -> mask_email s = Raise ValueError.
Proof.
  intros H. unfold mask_email. rewrite (split_once_absent _ _ H). reflexivity.
Qed.

(** The shape accepted by the [upi_id] pattern. *)
Lemma upi_lang_shape (s : str) :
  lang patterns.upi_id s <->
  exists u d, s = u ++ "@"%char :: d /\ u <> [] /\ d <> [] /\
              all_chars cls_word_dot_hyphen u = true /\
              all_chars cls_word_dot_hyphen d = true.
Proof.
  unfold patterns.upi_id. rewrite lang_cat_inv. split.
  - intros (u & t & -> & Hu & Ht).
    apply lang_cat_inv in Ht as (a & d & -> & Ha & Hd).
    apply lang_cls_inv in Ha as (c & -> & Hc).
    apply lang_plus_cls in Hu as [Nu Au]. apply lang_plus_cls in Hd as [Nd Ad].
    unfold is_chr in Hc. apply chr_eqb_eq in Hc; subst c.
    exists u, d. auto.
  - intros (u & d & -> & Nu & Nd & Au & Ad).
    exists u, ("@"%char :: d). repeat split.
    + apply lang_plus_cls; auto.
    + change ("@"%char :: d) with (["@"%char] ++ d). constructor.
      * constructor. reflexivity.
      * apply lang_plus_cls; auto.
Qed.

(** [mask_upi] returns on every value its pattern accepts. *)
Lemma mask_upi_returns_on_match (s : str) :
  re_match patterns.upi_id s = true -> returns (mask_upi s).
Proof.
  intros H. apply re_match_spec in H.
  assert (exists u d, s = u ++ "@"%char :: d /\ u <> [] /\
                      has_char "@" u = false) as (u & d & -> & Nu & Hu).
  { destruct H as [H|(t & -> & H)];
      apply upi_lang_shape in H as (u & d & -> & Nu & _ & Au & _).
    - exists u, d. repeat split; auto.
      apply (all_chars_no_char cls_word_dot_hyphen); auto.
    - exists u, (d ++ [newline]). rewrite <- app_assoc. repeat split; auto.
      apply (all_chars_no_char cls_word_dot_hyphen); auto. }
  unfold mask_upi. rewrite (split_once_app _ _ d Hu). simpl.
  destruct (isdigit u && (len u =? 10)%Z); [eexists; reflexivity|].
  destruct u as [|c u]; [congruence|].
  rewrite getitem_first. eexists; reflexivity.
Qed.

(* ================================================================== *)
(** ** Dictionaries *)

Arguments key_in : simpl never.
Arguments is_standalone_pii : simpl never.
Arguments re_match : simpl never.
Arguments truthy : simpl never.

Lemma dict_get_set (k k' : str) (v : value) (d : record) :
  dict_get k' (dict_set k v d) = if str_eqb k k' then Ok v else dict_get k' d.
Proof.
  induction d as [|[k0 v0] d IH]; simpl.
  - rewrite str_eqb_sym. destruct (str_eqb k' k); reflexivity.
  - destruct (str_eqb k0 k) eqn:E; simpl.
    + apply str_eqb_eq in E; subst k0. destruct (str_eqb k k'); reflexivity.
    + rewrite IH. destruct (str_eqb k0 k') eqn:E'; [|reflexivity].
      apply str_eqb_eq in E'; subst k0. rewrite str_eqb_sym, E. reflexivity.
Qed.

Lemma dict_get_set_other (k k' : str) (v : value) (d : record) :
  k' <> k -> dict_get k' (dict_set k v d) = dict_get k' d.
Proof.
  intros N. rewrite dict_get_set.
  destruct (str_eqb k k') eqn:E; [|reflexivity].
  apply str_eqb_eq in E. congruence.
Qed.

Lemma keys_dict_set (k : str) (v : value) (d : record) :
  In k (keys d) -> keys (dict_set k v d) = keys d.
Proof.
  unfold keys. induction d as [|[k0 v0] d IH]; simpl; [tauto|].
  intros H. destruct (str_eqb k0 k) eqn:E; simpl; [reflexivity|].
  destruct H as [H|H]; [subst; rewrite str_eqb_refl in E; discriminate|].
  rewrite IH by assumption. reflexivity.
Qed.

Lemma dict_get_In (k : str) (v : value) (d : record) :
  dict_get k d = Ok v -> In (k, v) d.
Proof.
  induction d as [|[k0 v0] d IH]; simpl; [discriminate|].
  destruct (str_eqb k0 k) eqn:E.
  - apply str_eqb_eq in E; subst. intros [= ->]. auto.
  - auto.
Qed.

Lemma In_keys (k : str) (v : value) (d : record) : In (k, v) d -> In k (keys d).
Proof. intros H. apply (in_map fst) in H. exact H. Qed.

Lemma In_dict_get (k : str) (v : value) (d : record) :
  well_formed d -> In (k, v) d -> dict_get k d = Ok v.
Proof.
  unfold well_formed, keys. induction d as [|[k0 v0] d IH]; simpl; [tauto|].
  intros ND H. inversion ND as [|? ? Hn ND']; subst.
  destruct H as [H|H].
  - injection H as -> ->. rewrite str_eqb_refl. reflexivity.
  - destruct (str_eqb k0 k) eqn:E; [|auto].
    apply str_eqb_eq in E; subst k0. exfalso. apply Hn.
    exact (In_keys _ _ _ H).
Qed.

Lemma key_in_In (k : str) (l : list str) : key_in k l = true <-> In k l.
Proof.
  unfold key_in. rewrite existsb_exists. split.
  - intros (x & Hx & E). apply str_eqb_eq in E; subst; assumption.
  - intros H. exists k. split; [assumption | apply str_eqb_refl].
Qed.

Lemma two_distinct_members {A} (a b : A) (l : list A) :
  In a l -> In b l -> a <> b -> 2 <= length l.
Proof.
  destruct l as [|x [|y l]]; simpl; try tauto; [|lia].
  intros [<-|[]] [<-|[]] N. congruence.
Qed.

Lemma NoDup_keys_filter (f : str * value -> bool) (d : record) :
  NoDup (keys d) -> NoDup (keys (filter f d)).
Proof.
  unfold keys. induction d as [|x d IH]; simpl; [auto|].
  intros ND. inversion ND as [|? ? Hn ND']; subst.
  destruct (f x); [|auto]. simpl. constructor; [|auto].
  intros H. apply Hn. apply in_map_iff in H as (y & E & Hy).
  apply filter_In in Hy as [Hy _]. apply in_map_iff. eauto.
Qed.

(* ================================================================== *)
(** ** The standalone detector *)

Lemma registered_pattern_vocabulary (k : str) (r : regex) :
  registered_pattern k = Some r -> In k standalone_vocabulary.
Proof.
  unfold registered_pattern, standalone_vocabulary.
  destruct (str_eqb k k_phone) eqn:E1;
    [apply str_eqb_eq in E1; subst; simpl; auto|].
  destruct (str_eqb k k_aadhar) eqn:E2;
    [apply str_eqb_eq in E2; subst; simpl; auto|].
  destruct (str_eqb k k_passport) eqn:E3;
    [apply str_eqb_eq in E3; subst; simpl; auto|].
  destruct (str_eqb k k_upi_id) eqn:E4;
    [apply str_eqb_eq in E4; subst; simpl; auto 6|].
  discriminate.
Qed.

(** The chain of tests of [is_standalone_pii] is a lookup of the registered
    pattern followed by a match. *)
Lemma is_standalone_pii_spec (k : str) (v : value) :
  is_standalone_pii k v = true <->
  exists s r, v = VStr s /\ registered_pattern k = Some r /\
              re_match r s = true.
Proof.
  unfold is_standalone_pii, registered_pattern. split.
  - destruct v as [| | |s]; try discriminate. intros H. exists s.
    destruct (str_eqb k k_phone) eqn:E1.
    { apply str_eqb_eq in E1; subst k. cbn [andb] in H.
      destruct (re_match patterns.phone s) eqn:M; [eauto|].
      simpl in H. discriminate. }
    destruct (str_eqb k k_aadhar) eqn:E2.
    { apply str_eqb_eq in E2; subst k. cbn [andb] in H.
      destruct (re_match patterns.aadhar s) eqn:M; [eauto|].
      simpl in H. discriminate. }
    destruct (str_eqb k k_passport) eqn:E3.
    { apply str_eqb_eq in E3; subst k. cbn [andb] in H.
      destruct (re_match patterns.passport s) eqn:M; [eauto|].
      simpl in H. discriminate. }
    destruct (str_eqb k k_upi_id) eqn:E4.
    { cbn [andb] in H.
      destruct (re_match patterns.upi_id s) eqn:M; [eauto|discriminate]. }
    discriminate.
  - intros (s & r & -> & Hr & M).
    destruct (str_eqb k k_phone) eqn:E1.
    { injection Hr as <-. rewrite M. reflexivity. }
    destruct (str_eqb k k_aadhar) eqn:E2.
    { injection Hr as <-. rewrite M. reflexivity. }
    destruct (str_eqb k k_passport) eqn:E3.
    { injection Hr as <-. rewrite M. reflexivity. }
    destruct (str_eqb k k_upi_id) eqn:E4.
    { injection Hr as <-. rewrite M. reflexivity. }
    discriminate.
Qed.

Lemma detector_hit_iff (rec : record) :
  existsb is_standalone_item rec = true <-> detector_hit rec.
Proof.
  unfold detector_hit. rewrite existsb_exists. split.
  - intros ([k v] & Hin & H). unfold is_standalone_item in H. cbn [fst snd] in H.
    apply is_standalone_pii_spec in H as (s & r & -> & Hr & M).
    exists k, s, r. repeat split; auto.
    exact (registered_pattern_vocabulary _ _ Hr).
  - intros (k & s & r & Hin & _ & Hr & M).
    exists (k, VStr s). split; [assumption|].
    unfold is_standalone_item. cbn [fst snd].
    apply is_standalone_pii_spec. exists s, r. auto.
Qed.

(** Away from the values with a final newline, the test of the code is the
    full-string match. *)
Lemma detector_hit_full (rec : record) :
  ~ newline_slip rec -> (detector_hit rec <-> standalone_hit rec).
Proof.
  intros NS. split.
  - intros (k & s & r & I & V & Hr & M). apply re_match_spec in M.
    destruct M as [M|(t & -> & M)].
    + exists k, s, r. auto.
    + exfalso. apply NS. exists k, t, r. auto.
  - intros (k & s & r & I & V & Hr & M). exists k, s, r.
    repeat (split; [assumption|]). apply re_match_spec. left; exact M.
Qed.

(* ================================================================== *)
(** ** The combinatorial detector *)

Lemma combinatorial_hit_iff (rec : record) :
  well_formed rec ->
  (threshold_reached rec = true <-> combinatorial_hit rec).
Proof.
  intros WF. unfold threshold_reached, present_fields, present_items,
    combinatorial_hit.
  rewrite Nat.leb_le. split.
  - intros H.
    pose proof (NoDup_keys_filter is_present rec WF) as ND.
    assert (forall x, In x (filter is_present rec) ->
                      In x rec /\ is_present x = true) as F
      by (intros x; apply filter_In).
    unfold keys in *.
    destruct (filter is_present rec) as [|[k1 v1] [|[k2 v2] l]];
      simpl in H; try lia.
    destruct (F (k1, v1)) as [I1 P1]; [simpl; auto|].
    destruct (F (k2, v2)) as [I2 P2]; [simpl; auto|].
    unfold is_present in P1, P2. simpl in P1, P2.
    apply andb_true_iff in P1 as [C1 T1]. apply andb_true_iff in P2 as [C2 T2].
    apply key_in_In in C1, C2.
    exists k1, v1, k2, v2. repeat split; auto.
    simpl in ND. inversion ND as [|? ? Hn _]; subst.
    intros ->. apply Hn. simpl; auto.
  - intros (k1 & v1 & k2 & v2 & N & C1 & C2 & I1 & I2 & T1 & T2).
    unfold keys. rewrite length_map.
    apply (two_distinct_members (k1, v1) (k2, v2)).
    + apply filter_In. split; [assumption|]. unfold is_present. simpl.
      apply andb_true_iff. split; [apply key_in_In|]; assumption.
    + apply filter_In. split; [assumption|]. unfold is_present. simpl.
      apply andb_true_iff. split; [apply key_in_In|]; assumption.
    + congruence.
Qed.

(* ================================================================== *)
(** ** The first loop of [process_record] *)

Lemma bind_Ok_inv {A B} (m : result A) (k : A -> result B) (b : B) :
  bind m k = Ok b -> exists a, m = Ok a /\ k a = Ok b.
Proof. destruct m as [a|e]; simpl; [eauto | discriminate]. Qed.

Lemma raises_not_returns {A} (m : result A) : raises m <-> ~ returns m.
Proof.
  split.
  - intros [e ->] [a H]. discriminate.
  - intros H. destruct m as [a|e]; [exfalso; apply H|]; eexists; reflexivity.
Qed.

Lemma same_but_refl (k : str) (red : record) : same_but k red red.
Proof. split; auto. Qed.

Lemma same_but_set (k : str) (v : value) (red : record) :
  same_but k red (dict_set k v red).
Proof.
  split.
  - intros k' N. apply dict_get_set_other; assumption.
  - apply keys_dict_set.
Qed.

Ltac frame_step :=
  match goal with
  | H : bind _ _ = Ok _ |- _ =>
      apply bind_Ok_inv in H as (? & _ & H); injection H as <-;
      apply same_but_set
  | H : Ok _ = Ok _ |- _ => injection H as <-; apply same_but_refl
  end.

Lemma redact_standalone_frame (k : str) (v : value) (red red' : record) :
  redact_standalone k v red = Ok red' -> same_but k red red'.
Proof.
  unfold redact_standalone. intros H.
  repeat match type of H with
         | (if ?c then _ else _) = _ => destruct c
         end; frame_step.
Qed.

Lemma redact_standalone_returns (k : str) (v : value) (red : record) :
  is_standalone_pii k v = true -> returns (redact_standalone k v red).
Proof.
  intros H. apply is_standalone_pii_spec in H as (s & r & -> & Hr & M).
  unfold registered_pattern in Hr. unfold redact_standalone, call.
  destruct (str_eqb k k_phone).
  { destruct (mask_phone_returns s) as [m ->]. eexists; reflexivity. }
  destruct (str_eqb k k_aadhar).
  { destruct (mask_aadhar_returns s) as [m ->]. eexists; reflexivity. }
  destruct (str_eqb k k_passport).
  { destruct (mask_passport_returns s) as [m ->]. eexists; reflexivity. }
  destruct (str_eqb k k_upi_id); [|discriminate].
  injection Hr as <-.
  destruct (mask_upi_returns_on_match s M) as [m ->]. eexists; reflexivity.
Qed.

Lemma scan_item_spec (st : scan) (k : str) (v : value) :
  exists st',
    scan_item st (k, v) = Ok st' /\
    has_standalone_pii st' = has_standalone_pii st || is_standalone_pii k v /\
    combinatorial_fields_present st'
    = combinatorial_fields_present st ++ present_fields [(k, v)] /\
    same_but k (redacted_record st) (redacted_record st') /\
    (is_standalone_pii k v = false -> redacted_record st' = redacted_record st).
Proof.
  unfold scan_item, present_fields, present_items.
  cbn [filter]. fold (is_present (k, v)).
  change (key_in k combinatorial_pii && truthy v) with (is_present (k, v)).
  destruct (is_standalone_pii k v) eqn:S.
  - destruct (redact_standalone_returns k v (redacted_record st) S)
      as [red Hred].
    rewrite Hred. cbn [bind].
    apply redact_standalone_frame in Hred.
    destruct (is_present (k, v)); eexists; (split; [reflexivity|]);
      cbn [has_standalone_pii combinatorial_fields_present redacted_record
             keys map fst];
      rewrite ?orb_true_r, ?app_nil_r; repeat split;
      solve [apply Hred | discriminate | auto].
  - cbn [bind].
    destruct (is_present (k, v)); eexists; (split; [reflexivity|]);
      cbn [has_standalone_pii combinatorial_fields_present redacted_record
             keys map fst];
      rewrite ?orb_false_r, ?app_nil_r; repeat split; auto.
Qed.

Lemma present_fields_cons (item : str * value) (items : record) :
  present_fields (item :: items)
  = present_fields [item] ++ present_fields items.
Proof.
  unfold present_fields, present_items, keys. cbn [filter].
  destruct (is_present item); reflexivity.
Qed.

Lemma scan_items_spec (items : record) :
  forall st,
  exists st',
    scan_items st items = Ok st' /\
    has_standalone_pii st'
    = has_standalone_pii st || existsb is_standalone_item items /\
    combinatorial_fields_present st'
    = combinatorial_fields_present st ++ present_fields items /\
    ((forall k, In k (keys items) -> In k (keys (redacted_record st))) ->
     keys (redacted_record st') = keys (redacted_record st)) /\
    (forall k, (forall v, In (k, v) items -> is_standalone_pii k v = false) ->
               dict_get k (redacted_record st')
               = dict_get k (redacted_record st)).
Proof.
  induction items as [|[k v] items IH]; intros st.
  - exists st. simpl. rewrite orb_false_r, app_nil_r. auto.
  - destruct (scan_item_spec st k v) as (st1 & E1 & H1 & P1 & [F1 K1] & U1).
    destruct (IH st1) as (st2 & E2 & H2 & P2 & K2 & F2).
    exists st2. cbn [scan_items]. rewrite E1. cbn [bind].
    split; [exact E2|]. split; [|split; [|split]].
    + rewrite H2, H1. cbn [existsb]. unfold is_standalone_item at 2.
      cbn [fst snd]. rewrite orb_assoc. reflexivity.
    + rewrite P2, P1, (present_fields_cons (k, v) items), app_assoc.
      reflexivity.
    + intros Hk. rewrite K2.
      * apply K1. apply Hk. simpl; auto.
      * intros k' Hk'. rewrite K1 by (apply Hk; simpl; auto).
        apply Hk. simpl; auto.
    + intros k' Hk'. rewrite F2 by (intros v' Hv'; apply Hk'; simpl; auto).
      destruct (str_eqb k' k) eqn:E.
      * apply str_eqb_eq in E; subst k'.
        rewrite U1; [reflexivity|]. apply Hk'. simpl; auto.
      * apply F1. apply str_eqb_neq; assumption.
Qed.

(* ================================================================== *)
(** ** The second loop of [process_record] *)

Lemma redact_combinatorial_frame (rec red red' : record) (k : str) :
  redact_combinatorial rec red k = Ok red' -> same_but k red red'.
Proof.
  unfold redact_combinatorial. intros H.
  apply bind_Ok_inv in H as (v & _ & H).
  repeat match type of H with
         | (if ?c then _ else _) = _ => destruct c
         end; frame_step.
Qed.

Ltac comb_cases H :=
  unfold combinatorial_pii in H; cbn [In] in H;
  destruct H as [<-|[<-|[<-|[<-|[<-|[]]]]]].

Lemma redact_combinatorial_returns (rec red : record) (k : str) (v : value) :
  In k combinatorial_pii -> dict_get k rec = Ok v ->
  (returns (redact_combinatorial rec red k) <-> maskable (k, v) = true).
Proof.
  intros C G. unfold redact_combinatorial. rewrite G. cbn [bind].
  unfold maskable. cbn [fst snd].
  comb_cases C;
    match goal with
    | |- context [str_eqb ?a k_email] =>
        let b := eval vm_compute in (str_eqb a k_email) in
        change (str_eqb a k_email) with b
    end;
    repeat match goal with
    | |- context [str_eqb ?a ?b] =>
        let c := eval vm_compute in (str_eqb a b) in
        change (str_eqb a b) with c
    end; cbv iota; unfold call;
    (destruct v as [| | |s];
     [split; [intros [? ?]; discriminate | discriminate] ..|]).
  - split; [reflexivity|intros _].
    destruct (mask_name_returns s) as [m ->]. eexists; reflexivity.
  - rewrite <- mask_email_returns. split.
    + intros [m H]. apply bind_Ok_inv in H as (r & H & _).
      apply bind_Ok_inv in H as (r' & H & _). eexists; exact H.
    + intros [m ->]. eexists; reflexivity.
  - split; [reflexivity|intros _].
    destruct (mask_address_returns s) as [m ->]. eexists; reflexivity.
  - split; [reflexivity|intros _].
    destruct (mask_device_id_returns s) as [m ->]. eexists; reflexivity.
  - split; [reflexivity|intros _].
    destruct (mask_ip_address_returns s) as [m ->]. eexists; reflexivity.
Qed.

(** The only masking failure on a string is the unpacking in [mask_email]. *)
Lemma redact_combinatorial_string_error
      (rec red : record) (k : str) (s : str) :
  In k combinatorial_pii -> dict_get k rec = Ok (VStr s) ->
  maskable (k, VStr s) = false ->
  redact_combinatorial rec red k = Raise ValueError.
Proof.
  intros C G. unfold redact_combinatorial. rewrite G. cbn [bind].
  unfold maskable. cbn [fst snd].
  comb_cases C;
    match goal with
    | |- context [str_eqb ?a k_email] =>
        let b := eval vm_compute in (str_eqb a k_email) in
        change (str_eqb a k_email) with b
    end; cbv iota; try discriminate.
  intros H. change (str_eqb k_email k_name) with false. cbv iota.
  unfold call. rewrite (mask_email_no_at s H). reflexivity.
Qed.

Lemma redact_all_frame (rec : record) (ks : list str) :
  forall red red',
  redact_all rec red ks = Ok red' ->
  (forall k, ~ In k ks -> dict_get k red' = dict_get k red) /\
  ((forall k, In k ks -> In k (keys red)) -> keys red' = keys red).
Proof.
  induction ks as [|k ks IH]; intros red red' H.
  - injection H as <-. auto.
  - cbn [redact_all] in H. apply bind_Ok_inv in H as (red1 & H1 & H2).
    apply redact_combinatorial_frame in H1 as [F1 K1].
    apply IH in H2 as [F2 K2]. split.
    + intros k' N. rewrite F2 by (intros I; apply N; simpl; auto).
      apply F1. intros ->. apply N. simpl; auto.
    + intros Hk. rewrite K2.
      * apply K1. apply Hk. simpl; auto.
      * intros k' I. rewrite K1 by (apply Hk; simpl; auto).
        apply Hk. simpl; auto.
Qed.

Lemma redact_all_returns (rec : record) (ks : list str) :
  (forall k, In k ks ->
             In k combinatorial_pii /\ exists v, dict_get k rec = Ok v) ->
  forall red,
  returns (redact_all rec red ks) <->
  (forall k v, In k ks -> dict_get k rec = Ok v -> maskable (k, v) = true).
Proof.
  induction ks as [|k ks IH]; intros Hks red.
  - split; [intros _ k v []|intros _; eexists; reflexivity].
  - destruct (Hks k) as (C & v & G); [simpl; auto|].
    pose proof (redact_combinatorial_returns rec red k v C G) as R.
    assert (Hks' : forall k0, In k0 ks ->
              In k0 combinatorial_pii /\ exists v0, dict_get k0 rec = Ok v0)
      by (intros k0 I; apply Hks; simpl; auto).
    cbn [redact_all]. split.
    + intros [red' H]. apply bind_Ok_inv in H as (red1 & H1 & H2).
      intros k0 v0 [<-|I] G0.
      * rewrite G in G0. injection G0 as <-. apply R. eexists; exact H1.
      * apply (proj1 (IH Hks' red1)); [eexists; exact H2 | exact I | exact G0].
    + intros H.
      destruct (proj2 R) as [red1 H1]; [apply H; simpl; auto|].
      rewrite H1. cbn [bind]. apply (IH Hks' red1).
      intros k0 v0 I. apply H. simpl; auto.
Qed.

(** When every value is a string, a failure of the second loop is the
    [ValueError] of [mask_email]. *)
Lemma redact_all_string_error (rec : record) (ks : list str) :
  (forall k, In k ks ->
             In k combinatorial_pii /\ exists s, dict_get k rec = Ok (VStr s)) ->
  (exists k s, In k ks /\ dict_get k rec = Ok (VStr s) /\
               maskable (k, VStr s) = false) ->
  forall red, redact_all rec red ks = Raise ValueError.
Proof.
  induction ks as [|k ks IH]; intros Hks (k0 & s0 & I0 & G0 & M0) red.
  - destruct I0.
  - destruct (Hks k) as (C & s & G); [simpl; auto|].
    cbn [redact_all].
    destruct (maskable (k, VStr s)) eqn:M.
    + destruct (proj2 (redact_combinatorial_returns rec red k _ C G) M)
        as [red1 ->].
      cbn [bind]. apply IH.
      * intros k1 I1. apply Hks. simpl; auto.
      * destruct I0 as [<-|I0].
        -- rewrite G in G0. injection G0 as <-. congruence.
        -- exists k0, s0. auto.
    + rewrite (redact_combinatorial_string_error rec red k s C G M).
      reflexivity.
Qed.

Lemma redact_combinatorial_error_kind
      (rec red : record) (k : str) (v : value) (e : exn) :
  In k combinatorial_pii -> dict_get k rec = Ok v ->
  redact_combinatorial rec red k = Raise e -> masking_error e.
Proof.
  intros C G H.
  destruct (maskable (k, v)) eqn:M.
  - apply (redact_combinatorial_returns rec red k v C G) in M as [r Hr].
    congruence.
  - destruct v as [| | |s].
    4: { rewrite (redact_combinatorial_string_error rec red k s C G M) in H.
         injection H as <-. left; reflexivity. }
    all: unfold redact_combinatorial in H; rewrite G in H; cbn [bind] in H;
      unfold call in H;
      repeat match type of H with
             | (if ?c then _ else _) = _ => destruct c eqn:?
             end;
      try (injection H as <-; unfold masking_error; auto);
      exfalso; comb_cases C; discriminate.
Qed.

Lemma redact_all_error_kind (rec : record) (ks : list str) :
  (forall k, In k ks ->
             In k combinatorial_pii /\ exists v, dict_get k rec = Ok v) ->
  forall red e, redact_all rec red ks = Raise e -> masking_error e.
Proof.
  induction ks as [|k ks IH]; intros Hks red e H; [discriminate|].
  destruct (Hks k) as (C & v & G); [simpl; auto|].
  cbn [redact_all] in H.
  destruct (redact_combinatorial rec red k) as [red1|e1] eqn:E1.
  - cbn [bind] in H. apply (IH (fun k0 I => Hks k0 (or_intror I)) red1 e H).
  - cbn [bind] in H. injection H as <-.
    exact (redact_combinatorial_error_kind rec red k v e1 C G E1).
Qed.

(* ================================================================== *)
(** ** [process_record] as a whole *)

Lemma present_fields_In (rec : record) (k : str) :
  In k (present_fields rec) <->
  exists v, In (k, v) rec /\ is_present (k, v) = true.
Proof.
  unfold present_fields, present_items, keys. rewrite in_map_iff. split.
  - intros ([k' v] & E & H). simpl in E; subst k'.
    apply filter_In in H. eauto.
  - intros (v & H & P). exists (k, v). split; [reflexivity|].
    apply filter_In. auto.
Qed.

Lemma is_present_combinatorial (k : str) (v : value) :
  is_present (k, v) = true <-> In k combinatorial_pii /\ truthy v = true.
Proof.
  unfold is_present. cbn [fst snd]. rewrite andb_true_iff, key_in_In. tauto.
Qed.

(** The two loops in sequence: the first always completes, and leaves in
    [red0] the record with the standalone matches masked. *)
Lemma process_record_unfold (rec : record) :
  exists red0,
    process_record rec
    = (red <- (if threshold_reached rec
               then redact_all rec red0 (present_fields rec)
               else Ok red0) ;;
       Ok (red, existsb is_standalone_item rec || threshold_reached rec)) /\
    keys red0 = keys rec /\
    (forall k, (forall v, In (k, v) rec -> is_standalone_pii k v = false) ->
               dict_get k red0 = dict_get k rec).
Proof.
  destruct (scan_items_spec rec (Scan rec false []))
    as (st & E & H & P & K & F).
  cbn [has_standalone_pii combinatorial_fields_present redacted_record] in *.
  exists (redacted_record st). unfold process_record. rewrite E. cbn [bind].
  rewrite H, P. cbn [app orb]. unfold threshold_reached.
  repeat split; auto.
Qed.

Lemma present_fields_lookup (rec : record) :
  well_formed rec ->
  forall k, In k (present_fields rec) ->
            In k combinatorial_pii /\ exists v, dict_get k rec = Ok v.
Proof.
  intros WF k H. apply present_fields_In in H as (v & I & P).
  apply is_present_combinatorial in P as [C _].
  split; [assumption|]. exists v. apply In_dict_get; assumption.
Qed.

Lemma masking_defined_spec (rec : record) :
  well_formed rec ->
  (masking_defined rec = true <->
   (threshold_reached rec = true ->
    forall k v, In k (present_fields rec) -> dict_get k rec = Ok v ->
                maskable (k, v) = true)).
Proof.
  intros WF. unfold masking_defined.
  destruct (threshold_reached rec); [|split; [discriminate | reflexivity]].
  rewrite forallb_forall. split.
  - intros H _ k v I G. apply present_fields_In in I as (v' & I & P).
    rewrite (In_dict_get k v' rec WF I) in G. injection G as <-.
    apply H. apply filter_In. auto.
  - intros H [k v] I. apply filter_In in I as [I P].
    apply H; [reflexivity | | apply In_dict_get; assumption].
    apply present_fields_In. eauto.
Qed.

(** [process_record] returns exactly on the records whose masking calls
    are all defined. *)
Lemma process_record_returns_iff (rec : record) :
  well_formed rec ->
  (returns (process_record rec) <-> masking_defined rec = true).
Proof.
  intros WF. rewrite (masking_defined_spec rec WF).
  destruct (process_record_unfold rec) as (red0 & -> & _ & _).
  destruct (threshold_reached rec).
  - rewrite <- (redact_all_returns rec (present_fields rec)
                  (present_fields_lookup rec WF) red0).
    split.
    + intros [[red b] H] _. apply bind_Ok_inv in H as (r & H & _).
      eexists; exact H.
    + intros H. destruct (H eq_refl) as [r ->]. eexists; reflexivity.
  - split; [discriminate|]. intros _. eexists; reflexivity.
Qed.

Lemma process_record_flag (rec red : record) (b : bool) :
  process_record rec = Ok (red, b) ->
  b = existsb is_standalone_item rec || threshold_reached rec.
Proof.
  destruct (process_record_unfold rec) as (red0 & -> & _ & _).
  intros H. apply bind_Ok_inv in H as (r & _ & H). congruence.
Qed.

Lemma process_record_error_kind (rec : record) (e : exn) :
  well_formed rec -> process_record rec = Raise e -> masking_error e.
Proof.
  intros WF. destruct (process_record_unfold rec) as (red0 & -> & _ & _).
  destruct (threshold_reached rec); [|discriminate].
  destruct (redact_all rec red0 (present_fields rec)) as [r|e'] eqn:E;
    [discriminate|].
  cbn [bind]. intros [= <-].
  exact (redact_all_error_kind rec (present_fields rec)
           (present_fields_lookup rec WF) red0 e' E).
Qed.

(** The fields [process_record] does not assign keep their value, and the
    keys and their order are those of the input. *)
Lemma process_record_frame (rec red : record) (b : bool) :
  well_formed rec -> process_record rec = Ok (red, b) ->
  keys red = keys rec /\
  forall k v, In (k, v) rec ->
              is_standalone_pii k v = false ->
              threshold_reached rec = false \/ is_present (k, v) = false ->
              dict_get k red = Ok v.
Proof.
  intros WF. destruct (process_record_unfold rec) as (red0 & -> & K0 & F0).
  intros H. apply bind_Ok_inv in H as (r & H & E). injection E as -> _.
  assert (Hstd : forall k v, In (k, v) rec -> is_standalone_pii k v = false ->
                             dict_get k red0 = Ok v).
  { intros k v I S. rewrite F0; [apply In_dict_get; assumption|].
    intros v' I'.
    pose proof (In_dict_get k v rec WF I) as G.
    rewrite (In_dict_get k v' rec WF I') in G. congruence. }
  destruct (threshold_reached rec) eqn:T.
  - apply redact_all_frame in H as [F K]. split.
    + rewrite K; [assumption|]. intros k I. rewrite K0.
      apply present_fields_In in I as (v & I & _). exact (In_keys _ _ _ I).
    + intros k v I S [D|P]; [discriminate|].
      rewrite F; [apply Hstd; assumption|].
      intros I'. apply present_fields_In in I' as (v' & I' & P').
      pose proof (In_dict_get k v rec WF I) as G.
      rewrite (In_dict_get k v' rec WF I') in G. congruence.
  - injection H as <-. split; [assumption|].
    intros k v I S _. apply Hstd; assumption.
Qed.

Lemma forallb_false_witness {A} (f : A -> bool) (l : list A) :
  forallb f l = false -> exists x, In x l /\ f x = false.
Proof.
  induction l as [|x l IH]; simpl; [discriminate|].
  destruct (f x) eqn:E; [|eauto].
  intros H. destruct (IH H) as (y & I & Hy). eauto.
Qed.

(** [process_record] raises exactly when the threshold is reached and a
    present combinatorial field holds a value its mask does not accept. *)
Lemma process_record_raises_iff (rec : record) :
  well_formed rec ->
  (raises (process_record rec) <->
   threshold_reached rec = true /\
   exists k v, In (k, v) rec /\ is_present (k, v) = true /\
               maskable (k, v) = false).
Proof.
  intros WF. rewrite raises_not_returns, (process_record_returns_iff rec WF).
  unfold masking_defined. destruct (threshold_reached rec).
  - rewrite not_true_iff_false. split.
    + intros H. split; [reflexivity|].
      destruct (forallb_false_witness maskable (present_items rec) H)
        as ([k v] & I & M).
      apply filter_In in I as [I P]. exists k, v. auto.
    + intros (_ & k & v & I & P & M).
      destruct (forallb maskable (present_items rec)) eqn:F; [|reflexivity].
      rewrite forallb_forall in F. rewrite <- M. symmetry. apply F.
      apply filter_In. auto.
  - split; [congruence | intros [D _]; discriminate].
Qed.

Lemma process_record_value_error (rec : record) :
  well_formed rec -> threshold_reached rec = true ->
  (forall k v, In (k, v) rec -> is_present (k, v) = true ->
               is_string v = true) ->
  (exists k s, In (k, VStr s) rec /\ is_present (k, VStr s) = true /\
               maskable (k, VStr s) = false) ->
  process_record rec = Raise ValueError.
Proof.
  intros WF T S (k & s & I & P & M).
  destruct (process_record_unfold rec) as (red0 & -> & _ & _). rewrite T.
  rewrite (redact_all_string_error rec (present_fields rec)); [reflexivity| |].
  - intros k' I'. apply present_fields_In in I' as (v' & I' & P').
    split; [apply is_present_combinatorial in P'; tauto|].
    pose proof (S k' v' I' P') as Sv. destruct v' as [| | |s']; try discriminate.
    exists s'. apply In_dict_get; assumption.
  - exists k, s. repeat split; auto.
    + apply present_fields_In. eauto.
    + apply In_dict_get; assumption.
Qed.

Lemma upi_match_has_at (s : str) :
  re_match patterns.upi_id s = true -> has_char "@" s = true.
Proof.
  intros H. apply re_match_spec in H.
  destruct H as [H|(t & -> & H)];
    apply upi_lang_shape in H as (u & d & -> & _);
    rewrite ?has_char_app; cbn [has_char existsb];
    rewrite chr_eqb_refl; cbn [orb]; rewrite ?orb_true_r; reflexivity.
Qed.

(** A record on which neither detector fires is returned as it is. *)
Lemma scan_items_idle (items : record) (st : scan) :
  (forall item, In item items ->
                is_standalone_item item = false /\ is_present item = false) ->
  scan_items st items = Ok st.
Proof.
  induction items as [|[k v] items IH]; intros H; [reflexivity|].
  destruct (H (k, v)) as [S P]; [simpl; auto|].
  unfold is_standalone_item, is_present in S, P. cbn [fst snd] in S, P.
  cbn [scan_items scan_item]. rewrite S, P. cbn [bind].
  apply IH. intros item I. apply H. simpl; auto.
Qed.

Lemma process_record_idle (rec : record) :
  (forall item, In item rec ->
                is_standalone_item item = false /\ is_present item = false) ->
  process_record rec = Ok (rec, false).
Proof.
  intros H. unfold process_record. rewrite (scan_items_idle rec _ H).
  reflexivity.
Qed.

(* ================================================================== *)
(** ** Runs of characters that survive masking *)

Lemma has_char_In (c : ascii) (s : str) : has_char c s = true <-> In c s.
Proof.
  unfold has_char. rewrite existsb_exists. split.
  - intros (x & I & E). apply chr_eqb_eq in E. subst. exact I.
  - intros I. exists c. split; [exact I | apply chr_eqb_refl].
Qed.

Lemma all_chars_app (p : ascii -> bool) (a b : str) :
  all_chars p (a ++ b) = all_chars p a && all_chars p b.
Proof. apply forallb_app. Qed.

Lemma all_chars_firstn (p : ascii -> bool) (n : nat) (s : str) :
  all_chars p s = true -> all_chars p (firstn n s) = true.
Proof.
  intros H. rewrite <- (firstn_skipn n s), all_chars_app in H.
  apply andb_true_iff in H. tauto.
Qed.

Lemma all_chars_skipn (p : ascii -> bool) (n : nat) (s : str) :
  all_chars p s = true -> all_chars p (skipn n s) = true.
Proof.
  intros H. rewrite <- (firstn_skipn n s), all_chars_app in H.
  apply andb_true_iff in H. tauto.
Qed.

Lemma run_of_prefix (n : nat) (w s : str) :
  run_of w s -> run_of (firstn n w) s.
Proof.
  intros (pre & post & ->). exists pre, (skipn n w ++ post).
  rewrite app_assoc, (app_assoc (firstn n w)), firstn_skipn, <- app_assoc.
  reflexivity.
Qed.

Lemma run_of_all_chars (p : ascii -> bool) (w s : str) :
  run_of w s -> all_chars p s = true -> all_chars p w = true.
Proof.
  intros (pre & post & ->). rewrite !all_chars_app, !andb_true_iff. tauto.
Qed.

Lemma run_of_suffix (a b : str) : run_of b (a ++ b).
Proof. exists a, []. rewrite app_nil_r. reflexivity. Qed.

(** If every character of the original satisfies [p] and every window of
    [n] characters of the output has a character that does not, no run of
    [n] or more characters survives. *)
Lemma no_survivor (p : ascii -> bool) (n : nat) (orig out : str) :
  all_chars p orig = true ->
  (forall w, length w = n -> run_of w out -> all_chars p w = false) ->
  ~ survives n orig out.
Proof.
  intros A W (w & L & Ro & Rout).
  assert (E : all_chars p (firstn n w) = false).
  { apply W; [rewrite length_firstn; lia | apply run_of_prefix; exact Rout]. }
  rewrite (run_of_all_chars p (firstn n w) orig) in E;
    [discriminate | apply run_of_prefix; exact Ro | exact A].
Qed.

Lemma all_differ_iff (c : ascii) (s : str) :
  all_chars (differs_from c) s = negb (has_char c s).
Proof.
  unfold all_chars, has_char, differs_from.
  induction s as [|x s IH]; simpl; [reflexivity|].
  rewrite IH, negb_orb. reflexivity.
Qed.

(** The same with a mask character [c] absent from the original. *)
Lemma no_survivor_char (c : ascii) (n : nat) (orig out : str) :
  has_char c orig = false ->
  (forall w, length w = n -> run_of w out -> has_char c w = true) ->
  ~ survives n orig out.
Proof.
  intros A W. apply (no_survivor (differs_from c)).
  - rewrite all_differ_iff, A. reflexivity.
  - intros w L R. rewrite all_differ_iff, (W w L R). reflexivity.
Qed.

(** A window longer than what stands on either side of a non-empty block
    of [c] contains a [c]. *)
Lemma window_hits_block (c : ascii) (k : nat) (p q w : str) :
  run_of w (p ++ repeat c k ++ q) ->
  1 <= k -> length p < length w -> length q < length w ->
  has_char c w = true.
Proof.
  intros (pre & post & E) Hk Hp Hq. apply has_char_In.
  assert (L : length p + (k + length q)
              = length pre + (length w + length post)).
  { rewrite <- (repeat_length c k) at 1. rewrite <- !length_app, E.
    reflexivity. }
  destruct (Nat.le_gt_cases (length pre) (length p)) as [C|C].
  - apply (nth_error_In w (length p - length pre)).
    assert (N : nth_error (p ++ repeat c k ++ q) (length p) = Some c).
    { rewrite nth_error_app2, Nat.sub_diag by lia.
      rewrite nth_error_app1 by (rewrite repeat_length; lia).
      apply nth_error_repeat. lia. }
    rewrite E in N. rewrite nth_error_app2 in N by lia.
    rewrite nth_error_app1 in N by lia. exact N.
  - apply (nth_error_In w 0).
    assert (N : nth_error (p ++ repeat c k ++ q) (length pre) = Some c).
    { rewrite nth_error_app2 by lia.
      rewrite nth_error_app1 by (rewrite repeat_length; lia).
      apply nth_error_repeat. lia. }
    rewrite E in N. rewrite nth_error_app2, Nat.sub_diag in N by lia.
    rewrite nth_error_app1 in N by lia. exact N.
Qed.

(** A window that reaches before the last [n] characters, all the earlier
    ones failing [p], has a character that fails [p]. *)
Lemma window_hits_head (p : ascii -> bool) (m q w : str) :
  run_of w (m ++ q) ->
  (forall x, In x m -> p x = false) ->
  length q < length w ->
  all_chars p w = false.
Proof.
  intros (pre & post & E) Hm Hq.
  assert (L : length m + length q = length pre + (length w + length post))
    by (rewrite <- !length_app, E; reflexivity).
  destruct (nth_error w 0) as [x|] eqn:N0;
    [|apply nth_error_None in N0; lia].
  assert (I : In x m).
  { apply (nth_error_In m (length pre)).
    rewrite <- (nth_error_app1 m q) by lia.
    rewrite E, nth_error_app2, Nat.sub_diag by lia.
    rewrite nth_error_app1 by lia. exact N0. }
  destruct w as [|y w]; [discriminate|]. injection N0 as ->.
  unfold all_chars. simpl. rewrite (Hm x I). reflexivity.
Qed.

(* ================================================================== *)
(** ** The masking functions in closed form *)

Lemma len_gtb (s : str) (n : nat) :
  (len s >? Z.of_nat n)%Z = (n <? length s)%nat.
Proof.
  unfold len. rewrite Z.gtb_ltb.
  destruct (Z.ltb_spec (Z.of_nat n) (Z.of_nat (length s)));
    destruct (Nat.ltb_spec n (length s)); try reflexivity; lia.
Qed.

Lemma str_mul_len (c : ascii) (s : str) (n : nat) :
  str_mul [c] (len s - Z.of_nat n) = repeat c (length s - n).
Proof.
  rewrite str_mul_char_repeat. f_equal. unfold len. lia.
Qed.

Lemma str_mul_max (c : ascii) (s : str) :
  str_mul [c] (Z.max 3 (len s - 1)) = repeat c (Nat.max 3 (length s - 1)).
Proof.
  rewrite str_mul_char_repeat. f_equal. unfold len. lia.
Qed.

Lemma getitem_first_firstn (s : str) :
  s <> [] -> getitem s 0 = Ok (firstn 1 s).
Proof. destruct s; [congruence | reflexivity]. Qed.

Lemma getitem_last_skipn (s : str) :
  s <> [] -> getitem s (-1) = Ok (skipn (length s - 1) s).
Proof.
  intros N. destruct (exists_last N) as (t & d & ->).
  rewrite getitem_last, length_app. simpl length.
  replace (length t + 1 - 1) with (length t + 0) by lia.
  rewrite skipn_app, Nat.add_0_r, skipn_all, Nat.sub_diag. reflexivity.
Qed.

Lemma mask_phone_rule (s : str) :
  mask_phone s
  = Ok (firstn 2 s ++ repeat "X"%char 6 ++ skipn (length s - 2) s).
Proof.
  unfold mask_phone.
  change (Some 2%Z) with (Some (Z.of_nat 2)).
  change (Some (-2)%Z) with (Some (- Z.of_nat 2)%Z).
  rewrite (slice_prefix s 2), (slice_suffix s 2) by lia. reflexivity.
Qed.

Lemma mask_aadhar_rule (s : str) :
  mask_aadhar s = Ok (py "XXXX XXXX " ++ skipn (length s - 4) s).
Proof.
  unfold mask_aadhar. change (Some (-4)%Z) with (Some (- Z.of_nat 4)%Z).
  rewrite (slice_suffix s 4) by lia. reflexivity.
Qed.

Lemma mask_passport_rule (s : str) :
  mask_passport s
  = if (4 <? length s)%nat
    then Ok (firstn 1 s ++ repeat "X"%char (length s - 4)
               ++ skipn (length s - 3) s)
    else Ok s.
Proof.
  unfold mask_passport. change 4%Z with (Z.of_nat 4). rewrite (len_gtb s 4).
  destruct (Nat.ltb_spec 4 (length s)) as [L|L]; [|reflexivity].
  rewrite getitem_first_firstn by (destruct s; [simpl in L; lia|discriminate]).
  cbn [bind]. change (Some (-3)%Z) with (Some (- Z.of_nat 3)%Z).
  rewrite (slice_suffix s 3) by lia.
  change (py "X") with ["X"%char]. change 4%Z with (Z.of_nat 4).
  rewrite (str_mul_len "X" s 4).
  reflexivity.
Qed.

Lemma mask_device_id_rule (s : str) :
  mask_device_id s
  = if (2 <? length s)%nat
    then Ok (firstn 1 s ++ repeat "*"%char (length s - 2)
               ++ skipn (length s - 1) s)
    else Ok (repeat "*"%char (length s)).
Proof.
  unfold mask_device_id. change 2%Z with (Z.of_nat 2). rewrite (len_gtb s 2).
  change (py "*") with ["*"%char].
  destruct (Nat.ltb_spec 2 (length s)) as [L|L].
  - assert (N : s <> []) by (destruct s; [simpl in L; lia|discriminate]).
    rewrite (getitem_first_firstn s N), (getitem_last_skipn s N).
    cbn [bind]. rewrite (str_mul_len "*" s 2). reflexivity.
  - rewrite str_mul_char_repeat. unfold len. rewrite Nat2Z.id. reflexivity.
Qed.

Lemma mask_name_part_rule (s : str) :
  mask_name_part s = Ok (name_part_mask s).
Proof.
  unfold mask_name_part, name_part_mask, starred. change (len s >? 1)%Z with (len s >? Z.of_nat 1)%Z.
  rewrite (len_gtb s 1).
  change (py "*") with ["*"%char].
  destruct (Nat.ltb_spec 1 (length s)) as [L|L]; [|reflexivity].
  rewrite getitem_first_firstn by (destruct s; [simpl in L; lia|discriminate]).
  cbn [bind]. rewrite str_mul_max. reflexivity.
Qed.

Lemma mask_email_rule (l d : str) :
  has_char "@" l = false ->
  mask_email (l ++ "@"%char :: d) = Ok (name_part_mask l ++ "@"%char :: d).
Proof.
  intros H. unfold mask_email, name_part_mask, starred.
  rewrite (split_once_app _ _ d H). cbn [unpack2 bind].
  change (len l >? 1)%Z with (len l >? Z.of_nat 1)%Z.
  rewrite (len_gtb l 1). change (py "*") with ["*"%char].
  destruct (Nat.ltb_spec 1 (length l)) as [L|L]; [|reflexivity].
  rewrite getitem_first_firstn by (destruct l; [simpl in L; lia|discriminate]).
  cbn [bind]. rewrite str_mul_max. reflexivity.
Qed.

Lemma isdigit_digits (n : nat) (u : str) :
  digits n u -> 0 < n -> isdigit u = true.
Proof.
  intros [L A] Hn. unfold isdigit. destruct u as [|c u]; [simpl in L; lia|].
  unfold all_chars in A. revert A. generalize (c :: u). intros l.
  induction l as [|x l IH]; simpl; [reflexivity|].
  intros H. apply andb_true_iff in H as [Hx H].
  unfold is_digit_char. unfold is_decimal in Hx. rewrite Hx. simpl.
  apply IH; exact H.
Qed.

Lemma mask_upi_rule (u d : str) :
  has_char "@" u = false -> u <> [] ->
  mask_upi (u ++ "@"%char :: d)
  = if isdigit u && (length u =? 10)%nat
    then Ok (firstn 2 u ++ repeat "X"%char 6 ++ skipn (length u - 2) u
               ++ "@"%char :: d)
    else Ok (starred u ++ "@"%char :: d).
Proof.
  intros H N. unfold mask_upi, starred.
  rewrite (split_once_app _ _ d H). cbn [unpack2 bind].
  replace (len u =? 10)%Z with (length u =? 10)%nat.
  2: { unfold len. destruct (Nat.eqb_spec (length u) 10);
         destruct (Z.eqb_spec (Z.of_nat (length u)) 10); try reflexivity; lia. }
  destruct (isdigit u && (length u =? 10)%nat).
  - rewrite mask_phone_rule. cbn [bind]. rewrite <- !app_assoc. reflexivity.
  - rewrite (getitem_first_firstn u N). cbn [bind].
    change (py "*") with ["*"%char]. rewrite str_mul_max. reflexivity.
Qed.

(** *** [split('.')] *)

Lemma split_on_absent (sep : ascii) (s : str) :
  has_char sep s = false -> split_on sep s = [s].
Proof.
  unfold has_char. induction s as [|c s IH]; simpl; [reflexivity|].
  intros H. apply orb_false_iff in H as [H1 H2].
  rewrite chr_eqb_sym, H1, (IH H2). reflexivity.
Qed.

Lemma split_on_app (sep : ascii) (a b : str) :
  has_char sep a = false ->
  split_on sep (a ++ sep :: b) = a :: split_on sep b.
Proof.
  unfold has_char. induction a as [|c a IH]; simpl.
  - rewrite chr_eqb_refl. reflexivity.
  - intros H. apply orb_false_iff in H as [H1 H2].
    rewrite chr_eqb_sym, H1, (IH H2). reflexivity.
Qed.

Lemma mask_ip_address_rule (a b c d : str) :
  has_char "." a = false -> has_char "." b = false ->
  has_char "." c = false -> has_char "." d = false ->
  mask_ip_address (dotted a b c d) = Ok (a ++ "."%char :: b ++ py ".*.*").
Proof.
  intros Ha Hb Hc Hd. unfold mask_ip_address, dotted.
  rewrite (split_on_app _ _ _ Ha), (split_on_app _ _ _ Hb),
    (split_on_app _ _ _ Hc), (split_on_absent _ _ Hd).
  reflexivity.
Qed.

(* ================================================================== *)
(** ** What survives each masking function *)

Lemma run_of_length (w s : str) : run_of w s -> length w <= length s.
Proof. intros (pre & post & ->). rewrite !length_app. lia. Qed.

Lemma survives_length (n : nat) (orig out : str) :
  survives n orig out -> n <= length orig /\ n <= length out.
Proof.
  intros (w & L & Ro & Rout).
  apply run_of_length in Ro, Rout. lia.
Qed.

Lemma digits_no_char (n : nat) (c : ascii) (s : str) :
  digits n s -> is_decimal c = false -> has_char c s = false.
Proof.
  intros [_ A] Hc. exact (all_chars_no_char is_decimal c s Hc A).
Qed.

Lemma phone_no_survivor (s : str) :
  has_char "X" s = false ->
  ~ survives 4 s (firstn 2 s ++ repeat "X"%char 6 ++ skipn (length s - 2) s).
Proof.
  intros H. apply (no_survivor_char "X" 4); [exact H|].
  intros w L R. apply (window_hits_block "X" 6 _ _ w R); [lia| |].
  - rewrite length_firstn. lia.
  - rewrite length_skipn. lia.
Qed.

Lemma passport_no_survivor (s : str) :
  4 < length s -> has_char "X" s = false ->
  ~ survives 4 s (firstn 1 s ++ repeat "X"%char (length s - 4)
                    ++ skipn (length s - 3) s).
Proof.
  intros Ls H. apply (no_survivor_char "X" 4); [exact H|].
  intros w L R. apply (window_hits_block "X" _ _ _ w R); [lia| |].
  - rewrite length_firstn. lia.
  - rewrite length_skipn. lia.
Qed.

Lemma stars_no_survivor (n : nat) (s : str) :
  has_char "*" s = false -> ~ survives 1 s (repeat "*"%char n).
Proof.
  intros H. apply (no_survivor_char "*" 1); [exact H|].
  intros w L R. destruct n as [|n].
  - apply run_of_length in R. simpl in R. lia.
  - apply (window_hits_block "*" (S n) [] [] w); [|lia|simpl; lia..].
    simpl app. rewrite app_nil_r. exact R.
Qed.

Lemma device_no_survivor (s : str) :
  2 < length s -> has_char "*" s = false ->
  ~ survives 2 s (firstn 1 s ++ repeat "*"%char (length s - 2)
                    ++ skipn (length s - 1) s).
Proof.
  intros C H. apply (no_survivor_char "*" 2); [exact H|].
  intros w L R.
  apply (window_hits_block "*" _ _ _ w R); [lia| |].
  - rewrite length_firstn. lia.
  - rewrite length_skipn. lia.
Qed.

Lemma starred_no_survivor (s : str) :
  has_char "*" s = false -> ~ survives 2 s (starred s).
Proof.
  intros H. apply (no_survivor_char "*" 2); [exact H|].
  intros w L R. unfold starred in R.
  apply (window_hits_block "*" (Nat.max 3 (length s - 1)) (firstn 1 s) [] w);
    [rewrite app_nil_r; exact R | lia | | simpl; lia].
  rewrite length_firstn. lia.
Qed.

Lemma short_no_survivor (n : nat) (s out : str) :
  length s < n -> ~ survives n s out.
Proof. intros L H. apply survives_length in H. lia. Qed.

Lemma survives_weaken (n m : nat) (orig out : str) :
  n <= m -> survives m orig out -> survives n orig out.
Proof. intros L (w & Lw & R). exists w. split; [lia | exact R]. Qed.

(** The tail kept by [mask_aadhar] survives, and nothing longer does. *)
Lemma aadhar_survivor (s : str) :
  digits 12 s ->
  survives 4 s (py "XXXX XXXX " ++ skipn (length s - 4) s) /\
  ~ survives 5 s (py "XXXX XXXX " ++ skipn (length s - 4) s).
Proof.
  intros [L A]. split.
  - exists (skipn (length s - 4) s). split; [rewrite length_skipn; lia|].
    split; [|apply run_of_suffix].
    exists (firstn (length s - 4) s), []. rewrite app_nil_r, firstn_skipn.
    reflexivity.
  - apply (no_survivor is_decimal 5); [exact A|].
    intros w Lw R. apply (window_hits_head is_decimal _ _ w R).
    + intros x I. cbn in I.
      repeat (destruct I as [<-|I]; [reflexivity|]). destruct I.
    + rewrite length_skipn. lia.
Qed.

(** The shape accepted by the passport pattern. *)
Lemma passport_lang_shape (s : str) :
  lang patterns.passport s <->
  exists c t, s = c :: t /\ cls_passport_first c = true /\
              6 <= length t <= 9 /\ all_chars cls_upper_digit t = true.
Proof.
  unfold patterns.passport, rep_range. rewrite lang_cat_inv. split.
  - intros (a & b & -> & Ha & Hb).
    apply lang_cls_inv in Ha as (c & -> & Hc).
    apply lang_cat_inv in Hb as (t1 & t2 & -> & H1 & H2).
    apply lang_rep_cls in H1 as [L1 A1].
    apply lang_upto_cls in H2 as [L2 A2]. cbn [Nat.sub] in L2.
    exists c, (t1 ++ t2). rewrite length_app, all_chars_app, A1, A2.
    repeat split; auto; lia.
  - intros (c & t & -> & Hc & L & A).
    exists [c], t. split; [reflexivity|]. split; [constructor; exact Hc|].
    rewrite <- (firstn_skipn 6 t). constructor.
    + apply lang_rep_cls. split; [rewrite length_firstn; lia|].
      apply all_chars_firstn; exact A.
    + apply lang_upto_cls. cbn [Nat.sub].
      split; [rewrite length_skipn; lia | apply all_chars_skipn; exact A].
Qed.

Lemma passport_match_length (s : str) :
  re_match patterns.passport s = true -> 7 <= length s.
Proof.
  intros H. apply re_match_spec in H.
  destruct H as [H|(t & -> & H)];
    apply passport_lang_shape in H as (c & u & -> & _ & L & _);
    rewrite ?length_app; cbn [length]; lia.
Qed.

(** *** Joined tokens *)

Lemma lead_prefix_hit (c : ascii) (n : nat) (s : str) :
  lead c s < n -> n <= length s -> has_char c (firstn n s) = true.
Proof.
  revert n; induction s as [|x s IH]; intros n L N.
  - simpl in *. lia.
  - destruct n as [|n]; [lia|]. simpl in L. cbn [firstn has_char existsb].
    destruct (chr_eqb c x); [reflexivity|]. cbn [orb].
    apply IH; simpl in N; lia.
Qed.

Lemma covered_nil (c : ascii) (n : nat) : 0 < n -> covered c n [].
Proof.
  intros Hn w L R. apply run_of_length in R. simpl in R. lia.
Qed.

Lemma covered_cons (c : ascii) (n : nat) (x : ascii) (s : str) :
  covered c n s -> lead c (x :: s) < n -> covered c n (x :: s).
Proof.
  intros C L w Lw (pre & post & E).
  destruct pre as [|y pre].
  - simpl in E.
    assert (F : w = firstn n (x :: s)).
    { rewrite E, <- Lw. rewrite firstn_app, Nat.sub_diag, firstn_all.
      simpl. rewrite app_nil_r. reflexivity. }
    rewrite F. apply lead_prefix_hit; [exact L|].
    rewrite E, length_app. lia.
  - simpl in E. injection E as _ ->. apply (C w Lw). exists pre, post.
    reflexivity.
Qed.

Lemma covered_app (c : ascii) (n : nat) (a s : str) :
  covered c n s -> lead c s + length a < n -> covered c n (a ++ s) /\
  lead c (a ++ s) <= lead c s + length a.
Proof.
  intros C L. induction a as [|x a IH]; simpl app.
  - split; [exact C | lia].
  - simpl length in L. destruct IH as [Ca La]; [lia|].
    assert (Lx : lead c (x :: a ++ s) <= lead c s + S (length a)).
    { simpl. destruct (chr_eqb c x); lia. }
    split; [|exact Lx]. apply covered_cons; [exact Ca | lia].
Qed.

Lemma covered_block (c : ascii) (n k : nat) (s : str) :
  covered c n s -> 0 < n -> 1 <= k ->
  covered c n (repeat c k ++ s) /\ lead c (repeat c k ++ s) = 0.
Proof.
  intros C Hn Hk. destruct k as [|k]; [lia|]. clear Hk.
  induction k as [|k [Ck Lk]].
  - simpl. rewrite chr_eqb_refl. split; [|reflexivity].
    apply covered_cons; [exact C|]. simpl. rewrite chr_eqb_refl. exact Hn.
  - change (repeat c (S (S k)) ++ s) with (c :: repeat c (S k) ++ s).
    simpl lead. rewrite chr_eqb_refl. split; [|reflexivity].
    apply covered_cons; [exact Ck|]. simpl. rewrite chr_eqb_refl. exact Hn.
Qed.

Lemma covered_blocky (c : ascii) (q : nat) (p s : str) :
  blocky c q p -> covered c (q + 3) s -> lead c s <= 2 ->
  covered c (q + 3) (p ++ s) /\ lead c (p ++ s) <= 1.
Proof.
  intros (a & k & b & -> & La & Hk & Lb) C L.
  destruct (covered_app c (q + 3) b s C) as [C1 L1]; [lia|].
  destruct (covered_block c (q + 3) k (b ++ s) C1) as [C2 L2]; [lia|lia|].
  destruct (covered_app c (q + 3) a (repeat c k ++ b ++ s) C2) as [C3 L3];
    [lia|].
  rewrite <- !app_assoc. split; [exact C3 | lia].
Qed.

Lemma join_cons2 (sep w1 w2 : str) (l : list str) :
  join sep (w1 :: w2 :: l) = w1 ++ sep ++ join sep (w2 :: l).
Proof. reflexivity. Qed.

(** Tokens masked as above and joined by one space: every window of
    [q + 3] characters contains the mask character. *)
Lemma join_covered (c : ascii) (q : nat) (parts : list str) :
  c <> space -> Forall (blocky c q) parts ->
  covered c (q + 3) (join [space] parts) /\
  lead c (join [space] parts) <= 1.
Proof.
  intros Hc F. induction F as [|p parts Hp F IH].
  - split; [apply covered_nil; lia | simpl; lia].
  - destruct parts as [|p2 parts].
    + cbn [join]. rewrite <- (app_nil_r p).
      apply covered_blocky; [exact Hp | apply covered_nil; lia | simpl; lia].
    + rewrite join_cons2. destruct IH as [C L].
      apply covered_blocky; [exact Hp| |].
      * cbn [app]. apply covered_cons; [exact C|].
        cbn [lead]. destruct (chr_eqb c space); lia.
      * cbn [app lead]. destruct (chr_eqb c space); lia.
Qed.

Lemma for_append_map {A B} (f : A -> result B) (g : A -> B) (l : list A) :
  (forall x, f x = Ok (g x)) -> for_append f l = Ok (map g l).
Proof.
  intros H. induction l as [|x l IH]; [reflexivity|].
  cbn [for_append map]. rewrite H, IH. reflexivity.
Qed.

Lemma mask_name_rule (s : str) :
  mask_name s = Ok (join [space] (map name_part_mask (split_ws s))).
Proof.
  unfold mask_name.
  rewrite (for_append_map mask_name_part name_part_mask)
    by (intros x; apply mask_name_part_rule).
  reflexivity.
Qed.

Lemma isdigit_nonempty (s : str) : isdigit s = true -> s <> [].
Proof. destruct s; [discriminate | discriminate]. Qed.

Lemma mask_address_word_rule (s : str) :
  mask_address_word s = Ok (address_word_mask s).
Proof.
  unfold mask_address_word, address_word_mask.
  change (py "*") with ["*"%char].
  destruct (isdigit s) eqn:D.
  - change (len s >? 2)%Z with (len s >? Z.of_nat 2)%Z. rewrite (len_gtb s 2).
    pose proof (isdigit_nonempty s D) as N.
    destruct (2 <? length s)%nat.
    + rewrite (getitem_first_firstn s N), (getitem_last_skipn s N).
      cbn [bind]. change 2%Z with (Z.of_nat 2).
      rewrite (str_mul_len "*" s 2). reflexivity.
    + rewrite str_mul_char_repeat. unfold len. rewrite Nat2Z.id. reflexivity.
  - apply mask_name_part_rule.
Qed.

Lemma mask_address_rule (s : str) :
  mask_address s = Ok (join [space] (map address_word_mask (split_ws s))).
Proof.
  unfold mask_address.
  rewrite (for_append_map mask_address_word address_word_mask)
    by (intros x; apply mask_address_word_rule).
  reflexivity.
Qed.

Lemma name_part_mask_blocky (q : nat) (t : str) :
  blocky "*" q (name_part_mask t).
Proof.
  unfold name_part_mask, starred.
  destruct (Nat.ltb_spec 1 (length t)) as [L|L].
  - exists (firstn 1 t), (Nat.max 3 (length t - 1)), [].
    rewrite app_nil_r, length_firstn. cbn [length].
    split; [reflexivity|]. repeat split; lia.
  - exists t, 3, []. rewrite app_nil_r. cbn [length].
    split; [reflexivity|]. repeat split; lia.
Qed.

Lemma address_word_mask_blocky (t : str) :
  blocky "*" 1 (address_word_mask t).
Proof.
  unfold address_word_mask. destruct (isdigit t) eqn:D.
  - destruct (Nat.ltb_spec 2 (length t)) as [L|L].
    + exists (firstn 1 t), (length t - 2), (skipn (length t - 1) t).
      rewrite length_firstn, length_skipn.
      split; [reflexivity|]. repeat split; lia.
    + exists [], (length t), []. rewrite app_nil_r. cbn [length app].
      split; [reflexivity|]. repeat split; try lia.
      apply isdigit_nonempty in D. destruct t; [congruence | simpl; lia].
  - apply name_part_mask_blocky.
Qed.

Lemma joined_no_survivor (q : nat) (g : str -> str) (s : str) :
  (forall t, blocky "*" q (g t)) ->
  has_char "*" s = false ->
  ~ survives (q + 3) s (join [space] (map g (split_ws s))).
Proof.
  intros G H. apply (no_survivor_char "*" (q + 3)); [exact H|].
  destruct (join_covered "*" q (map g (split_ws s))) as [C _].
  - discriminate.
  - apply Forall_forall. intros p I. apply in_map_iff in I as (t & <- & _).
    apply G.
  - exact C.
Qed.

(* ================================================================== *)
(** ** Splitting on whitespace and joining *)

Lemma all_chars_rev (p : ascii -> bool) (s : str) :
  all_chars p (rev s) = all_chars p s.
Proof.
  unfold all_chars. induction s as [|c s IH]; [reflexivity|].
  simpl. rewrite forallb_app, IH. simpl. rewrite andb_true_r. apply andb_comm.
Qed.

Lemma all_chars_repeat (p : ascii -> bool) (c : ascii) (k : nat) :
  p c = true -> all_chars p (repeat c k) = true.
Proof.
  intros H. unfold all_chars. induction k as [|k IH]; [reflexivity|].
  simpl. rewrite H, IH. reflexivity.
Qed.

Lemma split_ws_aux_tokens (s : str) :
  forall cur, all_chars not_space cur = true ->
              Forall token (split_ws_aux cur s).
Proof.
  induction s as [|c s IH]; intros cur H.
  - destruct cur as [|x cur]; [constructor|].
    cbn [split_ws_aux]. constructor; [|constructor]. split.
    + intros E. apply (f_equal (@length ascii)) in E.
      rewrite length_rev in E. discriminate.
    + rewrite all_chars_rev. exact H.
  - cbn [split_ws_aux]. destruct (is_space c) eqn:S.
    + destruct cur as [|x cur]; [apply IH; reflexivity|].
      constructor; [|apply IH; reflexivity]. split.
      * intros E. apply (f_equal (@length ascii)) in E.
        rewrite length_rev in E. discriminate.
      * rewrite all_chars_rev. exact H.
    + apply IH. unfold all_chars, not_space in *. simpl. rewrite S, H.
      reflexivity.
Qed.

Lemma split_ws_tokens (s : str) : Forall token (split_ws s).
Proof. apply split_ws_aux_tokens. reflexivity. Qed.

Lemma split_ws_aux_app (t : str) :
  forall cur rest,
    all_chars not_space t = true ->
    split_ws_aux cur (t ++ rest) = split_ws_aux (rev t ++ cur) rest.
Proof.
  induction t as [|c t IH]; intros cur rest H; [reflexivity|].
  unfold all_chars, not_space in H. simpl in H.
  apply andb_true_iff in H as [Hc H]. apply negb_true_iff in Hc.
  cbn [app split_ws_aux]. rewrite Hc, (IH (c :: cur) rest H).
  cbn [rev]. rewrite <- app_assoc. reflexivity.
Qed.

(** Splitting undoes joining with one space. *)
Lemma split_ws_join (ps : list str) :
  Forall token ps -> split_ws (join [space] ps) = ps.
Proof.
  unfold split_ws. intros F. induction F as [|p ps [N A] F IH].
  - reflexivity.
  - destruct ps as [|p2 ps].
    + cbn [join]. rewrite <- (app_nil_r p) at 1.
      rewrite (split_ws_aux_app p [] [] A), app_nil_r. cbn [split_ws_aux].
      destruct (rev p) as [|x r] eqn:E.
      * apply (f_equal (@length ascii)) in E. rewrite length_rev in E.
        destruct p; [congruence | discriminate].
      * rewrite <- E, rev_involutive. reflexivity.
    + rewrite join_cons2. cbn [app].
      rewrite (split_ws_aux_app p [] _ A), app_nil_r.
      cbn [split_ws_aux]. change (is_space space) with true. cbv iota.
      destruct (rev p) as [|x r] eqn:E.
      * apply (f_equal (@length ascii)) in E. rewrite length_rev in E.
        destruct p; [congruence | discriminate].
      * rewrite <- E, rev_involutive, IH. reflexivity.
Qed.

(** *** Masked tokens are tokens *)

Lemma name_part_mask_token (t : str) : token t -> token (name_part_mask t).
Proof.
  intros [N A]. unfold name_part_mask, starred.
  destruct (1 <? length t)%nat; split.
  - destruct t; [congruence | discriminate].
  - rewrite all_chars_app, (all_chars_firstn _ 1 t A).
    apply all_chars_repeat. reflexivity.
  - destruct t; [congruence | discriminate].
  - rewrite all_chars_app, A. reflexivity.
Qed.

Lemma address_word_mask_token (t : str) :
  token t -> token (address_word_mask t).
Proof.
  intros T. unfold address_word_mask. destruct (isdigit t).
  2: apply name_part_mask_token; exact T.
  destruct T as [N A]. destruct (2 <? length t)%nat; split.
  - destruct t; [congruence | discriminate].
  - rewrite !all_chars_app, (all_chars_firstn _ 1 t A),
      (all_chars_skipn _ _ t A), all_chars_repeat; reflexivity.
  - destruct t; [congruence | discriminate].
  - apply all_chars_repeat. reflexivity.
Qed.

Lemma Forall_map_token (g : str -> str) (l : list str) :
  (forall t, token t -> token (g t)) ->
  Forall token l -> Forall token (map g l).
Proof.
  intros G F. induction F; simpl; constructor; auto.
Qed.

(** *** List surgery *)

Lemma firstn_exact {A} (a b : list A) (n : nat) :
  length a = n -> firstn n (a ++ b) = a.
Proof.
  intros <-. rewrite firstn_app, Nat.sub_diag, firstn_all. simpl.
  apply app_nil_r.
Qed.

Lemma skipn_exact {A} (a b : list A) (n : nat) :
  length a = n -> skipn n (a ++ b) = b.
Proof.
  intros <-. rewrite skipn_app, Nat.sub_diag, skipn_all. reflexivity.
Qed.

Lemma firstn1_app (a b : str) :
  length a = 1 -> firstn 1 (a ++ b) = a.
Proof. apply firstn_exact. Qed.

(** The masked form of a masked token is itself. *)
Lemma name_part_mask_twice (t : str) :
  t <> [] -> name_part_mask (name_part_mask t) = name_part_mask t.
Proof.
  intros N.
  assert (S : forall a k, length a = 1 -> 3 <= k ->
                name_part_mask (a ++ repeat "*"%char k)
                = a ++ repeat "*"%char k).
  { intros a k La Hk. unfold name_part_mask, starred.
    rewrite length_app, repeat_length, La.
    destruct (Nat.ltb_spec 1 (1 + k)); [|lia].
    rewrite (firstn1_app a _ La).
    replace (Nat.max 3 (1 + k - 1)) with k by lia. reflexivity. }
  assert (E : exists a k, name_part_mask t = a ++ repeat "*"%char k /\
                          length a = 1 /\ 3 <= k).
  { unfold name_part_mask, starred.
    destruct (Nat.ltb_spec 1 (length t)) as [L|L].
    - exists (firstn 1 t), (Nat.max 3 (length t - 1)).
      split; [reflexivity|]. split; [|lia].
      destruct t; [congruence | reflexivity].
    - exists t, 3. split; [reflexivity|]. split; [|lia].
      destruct t as [|c [|d t]];
        [congruence | reflexivity | simpl in L; lia]. }
  destruct E as (a & k & -> & La & Hk). apply S; assumption.
Qed.

(* ================================================================== *)
(** ** Masking twice *)

Lemma twice_Ok (f : str -> result str) (v m : str) :
  f v = Ok m -> twice f v = f m.
Proof. intros H. unfold twice. rewrite H. reflexivity. Qed.

Lemma mask_phone_twice (s : str) :
  2 <= length s -> twice mask_phone s = mask_phone s.
Proof.
  intros L. rewrite (twice_Ok _ _ _ (mask_phone_rule s)).
  rewrite (mask_phone_rule (firstn 2 s ++ _)), (mask_phone_rule s).
  assert (L2 : length (firstn 2 s) = 2) by (rewrite length_firstn; lia).
  assert (L3 : length (skipn (length s - 2) s) = 2)
    by (rewrite length_skipn; lia).
  rewrite (firstn_exact _ _ 2 L2).
  rewrite !length_app, repeat_length, L2, L3. cbn [Nat.add Nat.sub].
  assert (E : skipn 8 (firstn 2 s ++ repeat "X"%char 6
                         ++ skipn (length s - 2) s)
              = skipn (length s - 2) s).
  { rewrite app_assoc. apply skipn_exact.
    rewrite length_app, repeat_length, L2. reflexivity. }
  rewrite E. reflexivity.
Qed.

Lemma mask_aadhar_twice (s : str) :
  4 <= length s -> twice mask_aadhar s = mask_aadhar s.
Proof.
  intros L. rewrite (twice_Ok _ _ _ (mask_aadhar_rule s)).
  rewrite (mask_aadhar_rule (_ ++ _)), (mask_aadhar_rule s).
  rewrite length_app, length_skipn.
  replace (length (py "XXXX XXXX ") + (length s - (length s - 4)) - 4)
    with 10 by (cbn [py list_ascii_of_string length]; lia).
  rewrite (skipn_exact (py "XXXX XXXX ") _ 10) by reflexivity. reflexivity.
Qed.

Lemma mask_passport_twice (s : str) :
  twice mask_passport s = mask_passport s.
Proof.
  pose proof (mask_passport_rule s) as R.
  destruct (Nat.ltb_spec 4 (length s)) as [L|L].
  - rewrite (twice_Ok _ _ _ R), R.
    set (m := firstn 1 s ++ repeat "X"%char (length s - 4)
                ++ skipn (length s - 3) s).
    assert (L1 : length (firstn 1 s) = 1) by (rewrite length_firstn; lia).
    assert (Lm : length m = length s).
    { unfold m. rewrite !length_app, repeat_length, length_skipn, L1. lia. }
    rewrite (mask_passport_rule m), Lm.
    destruct (Nat.ltb_spec 4 (length s)); [|lia].
    assert (E : skipn (length s - 3) m = skipn (length s - 3) s).
    { unfold m. rewrite app_assoc. apply skipn_exact.
      rewrite length_app, repeat_length, L1. lia. }
    rewrite E. unfold m at 1. rewrite (firstn_exact _ _ 1 L1). reflexivity.
  - exact (twice_Ok _ _ _ R).
Qed.

Lemma mask_device_id_twice (s : str) :
  twice mask_device_id s = mask_device_id s.
Proof.
  pose proof (mask_device_id_rule s) as R.
  destruct (Nat.ltb_spec 2 (length s)) as [L|L].
  - rewrite (twice_Ok _ _ _ R), R.
    set (m := firstn 1 s ++ repeat "*"%char (length s - 2)
                ++ skipn (length s - 1) s).
    assert (L1 : length (firstn 1 s) = 1) by (rewrite length_firstn; lia).
    assert (Lm : length m = length s).
    { unfold m. rewrite !length_app, repeat_length, length_skipn, L1. lia. }
    rewrite (mask_device_id_rule m), Lm.
    destruct (Nat.ltb_spec 2 (length s)); [|lia].
    assert (E : skipn (length s - 1) m = skipn (length s - 1) s).
    { unfold m. rewrite app_assoc. apply skipn_exact.
      rewrite length_app, repeat_length, L1. lia. }
    rewrite E. unfold m at 1. rewrite (firstn_exact _ _ 1 L1). reflexivity.
  - rewrite (twice_Ok _ _ _ R), R, mask_device_id_rule, repeat_length.
    destruct (Nat.ltb_spec 2 (length s)); [lia | reflexivity].
Qed.

Lemma split_on_parts (sep : ascii) (s : str) :
  split_on sep s <> [] /\
  Forall (fun p => has_char sep p = false) (split_on sep s).
Proof.
  induction s as [|c s [N F]]; cbn [split_on].
  - split; [discriminate | repeat constructor].
  - destruct (chr_eqb c sep) eqn:E.
    + split; [discriminate | constructor; [reflexivity | exact F]].
    + destruct (split_on sep s) as [|w ws]; [congruence|].
      split; [discriminate|]. inversion F as [|? ? Hw Hws]; subst.
      constructor; [|exact Hws].
      unfold has_char in *. simpl. rewrite chr_eqb_sym, E, Hw. reflexivity.
Qed.

Lemma mask_ip_address_twice (s : str) :
  twice mask_ip_address s = mask_ip_address s.
Proof.
  destruct (split_on_parts "." s) as [_ F].
  destruct (length (split_on "." s) =? 4)%nat eqn:E.
  - apply Nat.eqb_eq in E.
    remember (split_on "." s) as parts eqn:P.
    destruct parts as [|p0 [|p1 [|p2 [|p3 [|]]]]]; try discriminate.
    inversion F as [|? ? H0 F1]; subst. inversion F1 as [|? ? H1 _]; subst.
    assert (R : mask_ip_address s = Ok (dotted p0 p1 (py "*") (py "*")))
      by (unfold mask_ip_address; rewrite <- P; reflexivity).
    rewrite (twice_Ok _ _ _ R), R.
    exact (mask_ip_address_rule p0 p1 (py "*") (py "*")
             H0 H1 eq_refl eq_refl).
  - assert (R : mask_ip_address s = Ok s)
      by (unfold mask_ip_address; rewrite E; reflexivity).
    exact (twice_Ok _ _ _ R).
Qed.

Lemma map_twice_tokens (g : str -> str) (l : list str) :
  (forall t, token t -> g (g t) = g t) ->
  Forall token l -> map g (map g l) = map g l.
Proof.
  intros G F. induction F as [|t l T F IH]; [reflexivity|].
  simpl. rewrite (G t T), IH. reflexivity.
Qed.

Lemma mask_name_twice (s : str) : twice mask_name s = mask_name s.
Proof.
  rewrite (twice_Ok _ _ _ (mask_name_rule s)), !mask_name_rule.
  pose proof (split_ws_tokens s) as T.
  rewrite split_ws_join
    by (apply Forall_map_token; [apply name_part_mask_token | exact T]).
  rewrite map_twice_tokens; [reflexivity| |exact T].
  intros t [N _]. apply name_part_mask_twice; exact N.
Qed.

Lemma has_char_firstn (c : ascii) (n : nat) (s : str) :
  has_char c s = false -> has_char c (firstn n s) = false.
Proof.
  intros H. rewrite <- (firstn_skipn n s), has_char_app in H.
  apply orb_false_iff in H. tauto.
Qed.

Lemma has_char_skipn (c : ascii) (n : nat) (s : str) :
  has_char c s = false -> has_char c (skipn n s) = false.
Proof.
  intros H. rewrite <- (firstn_skipn n s), has_char_app in H.
  apply orb_false_iff in H. tauto.
Qed.

Lemma has_char_repeat (c x : ascii) (k : nat) :
  chr_eqb c x = false -> has_char c (repeat x k) = false.
Proof.
  intros H. unfold has_char. induction k as [|k IH]; [reflexivity|].
  simpl. rewrite H, IH. reflexivity.
Qed.

Lemma name_part_mask_no_char (c : ascii) (t : str) :
  chr_eqb c "*" = false -> has_char c t = false ->
  has_char c (name_part_mask t) = false.
Proof.
  intros Hc H. unfold name_part_mask, starred.
  destruct (1 <? length t)%nat; rewrite has_char_app.
  - rewrite (has_char_firstn c 1 t H), (has_char_repeat c "*" _ Hc).
    reflexivity.
  - rewrite H. unfold has_char. simpl. rewrite Hc. reflexivity.
Qed.

Lemma mask_email_twice (l d : str) :
  has_char "@" l = false -> l <> [] ->
  twice mask_email (l ++ "@"%char :: d) = mask_email (l ++ "@"%char :: d).
Proof.
  intros At N. pose proof (mask_email_rule l d At) as R.
  rewrite (twice_Ok _ _ _ R), R.
  rewrite (mask_email_rule (name_part_mask l) d)
    by (apply name_part_mask_no_char; [reflexivity | exact At]).
  rewrite (name_part_mask_twice l N). reflexivity.
Qed.

(** *** The two functions a second pass changes *)

Lemma isdigit_all (s : str) :
  isdigit s = true -> all_chars is_digit_char s = true.
Proof. unfold isdigit. destruct s; [discriminate | auto]. Qed.

Lemma isdigit_has_char (c : ascii) (s : str) :
  is_digit_char c = false -> has_char c s = true -> isdigit s = false.
Proof.
  intros Hc H. destruct (isdigit s) eqn:D; [|reflexivity].
  apply isdigit_all in D.
  rewrite (all_chars_no_char is_digit_char c s Hc D) in H. discriminate.
Qed.

Lemma has_star_name_part_mask (t : str) :
  has_char "*" (name_part_mask t) = true.
Proof.
  unfold name_part_mask, starred.
  destruct (1 <? length t)%nat; rewrite has_char_app; apply orb_true_iff;
    right; [|reflexivity].
  destruct (Nat.max 3 (length t - 1)) as [|k] eqn:E; [lia|]. reflexivity.
Qed.

Lemma starred_name_part_mask (u : str) :
  u <> [] -> starred u = name_part_mask u.
Proof.
  intros N. unfold name_part_mask.
  destruct (Nat.ltb_spec 1 (length u)) as [L|L]; [reflexivity|].
  destruct u as [|c [|x u]]; [congruence | reflexivity | simpl in L; lia].
Qed.

Lemma name_part_mask_nonempty (t : str) : name_part_mask t <> [].
Proof.
  intros E. pose proof (has_star_name_part_mask t) as H.
  rewrite E in H. discriminate.
Qed.

Lemma mask_upi_twice_same (u d : str) :
  has_char "@" u = false -> u <> [] ->
  isdigit u && (length u =? 10)%nat = false ->
  twice mask_upi (u ++ "@"%char :: d) = mask_upi (u ++ "@"%char :: d).
Proof.
  intros At N C. pose proof (mask_upi_rule u d At N) as R.
  rewrite C, (starred_name_part_mask u N) in R.
  rewrite (twice_Ok _ _ _ R), R.
  rewrite (mask_upi_rule (name_part_mask u) d).
  - rewrite (isdigit_has_char "*" _ eq_refl (has_star_name_part_mask u)).
    cbn [andb].
    rewrite (starred_name_part_mask _ (name_part_mask_nonempty u)).
    rewrite (name_part_mask_twice u N). reflexivity.
  - apply name_part_mask_no_char; [reflexivity | exact At].
  - apply name_part_mask_nonempty.
Qed.

Lemma mask_upi_twice_differs (u d : str) :
  isdigit u = true -> length u = 10 ->
  twice mask_upi (u ++ "@"%char :: d) <> mask_upi (u ++ "@"%char :: d).
Proof.
  intros D L.
  pose proof (isdigit_all u D) as A.
  assert (At : has_char "@" u = false)
    by (apply (all_chars_no_char is_digit_char); [reflexivity | exact A]).
  assert (N : u <> []) by (apply isdigit_nonempty; exact D).
  pose proof (mask_upi_rule u d At N) as R.
  rewrite D, L in R. cbn [andb Nat.eqb] in R.
  set (m := firstn 2 u ++ repeat "X"%char 6 ++ skipn (10 - 2) u).
  assert (R' : mask_upi (u ++ "@"%char :: d) = Ok (m ++ "@"%char :: d))
    by (rewrite R; unfold m; rewrite <- !app_assoc; reflexivity).
  clear R.
  assert (Atm : has_char "@" m = false).
  { unfold m. rewrite !has_char_app, (has_char_firstn _ 2 u At),
      (has_char_skipn _ (10 - 2) u At). reflexivity. }
  assert (Xm : has_char "X" m = true).
  { unfold m. rewrite !has_char_app. apply orb_true_iff. right.
    reflexivity. }
  assert (Nm : m <> []) by (intros E; rewrite E in Xm; discriminate).
  rewrite (twice_Ok _ _ _ R'), R', (mask_upi_rule m d Atm Nm).
  rewrite (isdigit_has_char "X" m eq_refl Xm). cbn [andb].
  intros E. injection E as E. apply app_inv_tail in E.
  destruct u as [|a [|b u]]; try discriminate L.
  unfold all_chars in A. cbn [forallb] in A.
  apply andb_true_iff in A as [_ A]. apply andb_true_iff in A as [Hb _].
  unfold starred, m in E. cbn [firstn app length repeat] in E.
  destruct (Nat.max 3 _) as [|k] eqn:K in E; [lia|].
  cbn [repeat app] in E. injection E as E _. subst b. discriminate Hb.
Qed.

Lemma length_name_part_mask (t : str) : 4 <= length (name_part_mask t) \/ t = [].
Proof.
  destruct t as [|c t]; [right; reflexivity|left].
  unfold name_part_mask, starred.
  destruct (Nat.ltb_spec 1 (length (c :: t))).
  - rewrite length_app, repeat_length. cbn [firstn length]. lia.
  - rewrite length_app. cbn [length py list_ascii_of_string]. lia.
Qed.

Lemma address_word_mask_twice_same (t : str) :
  t <> [] -> isdigit t = false ->
  address_word_mask (address_word_mask t) = address_word_mask t.
Proof.
  intros N D. unfold address_word_mask. rewrite D.
  rewrite (isdigit_has_char "*" _ eq_refl (has_star_name_part_mask t)).
  apply name_part_mask_twice; exact N.
Qed.

Lemma name_part_mask_last (t : str) :
  exists q, name_part_mask t = q ++ ["*"%char].
Proof.
  unfold name_part_mask, starred. destruct (1 <? length t)%nat.
  - destruct (Nat.max 3 (length t - 1)) as [|k] eqn:K; [lia|].
    exists (firstn 1 t ++ repeat "*"%char k).
    cbn [repeat]. rewrite repeat_cons, app_assoc. reflexivity.
  - exists (t ++ py "**"). rewrite <- app_assoc. reflexivity.
Qed.

Lemma address_word_mask_twice_differs (t : str) :
  isdigit t = true ->
  address_word_mask (address_word_mask t) <> address_word_mask t.
Proof.
  intros D. pose proof (isdigit_nonempty t D) as N.
  pose proof (isdigit_all t D) as A.
  assert (G : exists m, address_word_mask t = m /\ m <> [] /\
                        has_char "*" m = true /\
                        (length m <= 2 \/
                         exists r z, m = r ++ [z] /\ is_digit_char z = true)).
  { unfold address_word_mask. rewrite D.
    destruct (Nat.ltb_spec 2 (length t)) as [L|L]; eexists;
      (split; [reflexivity|]).
    - destruct (exists_last N) as (r & z & E).
      assert (S : skipn (length t - 1) t = [z]).
      { rewrite E, length_app. cbn [length].
        apply skipn_exact. lia. }
      rewrite S. split; [|split].
      + destruct t; [congruence | discriminate].
      + rewrite !has_char_app. apply orb_true_iff. right.
        apply orb_true_iff. left.
        destruct (length t - 2) as [|k] eqn:K; [lia | reflexivity].
      + right. exists (firstn 1 t ++ repeat "*"%char (length t - 2)), z.
        split; [rewrite <- app_assoc; reflexivity|].
        unfold all_chars in A. rewrite forallb_forall in A. apply A.
        rewrite E. apply in_or_app. right. simpl; auto.
    - split; [|split].
      + destruct t; [congruence | discriminate].
      + destruct t; [congruence | reflexivity].
      + left. rewrite repeat_length. exact L. }
  destruct G as (m & -> & Nm & Sm & Hm).
  unfold address_word_mask. rewrite (isdigit_has_char "*" m eq_refl Sm).
  intros E. destruct Hm as [Hm|(r & z & -> & Hz)].
  - destruct (length_name_part_mask m) as [H|H]; [|congruence].
    rewrite E in H. lia.
  - destruct (name_part_mask_last (r ++ [z])) as [q Q].
    rewrite E in Q. apply app_inj_tail in Q as [_ ->]. discriminate Hz.
Qed.

Lemma map_eq_In {A B} (f g : A -> B) (l : list A) (x : A) :
  map f l = map g l -> In x l -> f x = g x.
Proof.
  induction l as [|y l IH]; simpl; [tauto|].
  intros E [<-|I]; injection E as E1 E2; auto.
Qed.

Lemma mask_address_twice_rule (s : str) :
  twice mask_address s
  = Ok (join [space]
          (map address_word_mask (map address_word_mask (split_ws s)))).
Proof.
  rewrite (twice_Ok _ _ _ (mask_address_rule s)), mask_address_rule.
  rewrite split_ws_join; [reflexivity|].
  apply Forall_map_token; [apply address_word_mask_token|].
  apply split_ws_tokens.
Qed.

(** A second pass of [mask_address] changes the value exactly when some
    token of the address is numeric. *)
Lemma mask_address_twice_iff (s : str) :
  twice mask_address s = mask_address s <->
  forall t, In t (split_ws s) -> isdigit t = false.
Proof.
  rewrite mask_address_twice_rule, mask_address_rule.
  pose proof (split_ws_tokens s) as T. split.
  - intros E t I. destruct (isdigit t) eqn:D; [|reflexivity]. exfalso.
    injection E as E. apply (f_equal split_ws) in E.
    rewrite !split_ws_join in E;
      repeat (apply Forall_map_token; [apply address_word_mask_token|]);
      try exact T.
    rewrite map_map in E.
    apply (address_word_mask_twice_differs t D).
    exact (map_eq_In _ _ _ t E I).
  - intros H. f_equal. f_equal. revert H.
    induction T as [|t l [N _] T IH]; intros H; [reflexivity|].
    cbn [map]. rewrite IH by (intros x I; apply H; simpl; auto).
    rewrite (address_word_mask_twice_same t N) by (apply H; simpl; auto).
    reflexivity.
Qed.

(* ================================================================== *)
(** ** Classification and redaction of a record *)

Ltac solve_well_formed :=
  unfold well_formed, keys; cbn [map fst];
  repeat (constructor; [cbn [In]; intuition discriminate|]); constructor.

(** C1, as stated, does not hold: two combinatorial fields are present with
    truthy values, but the email value has no [@], [mask_email] raises
    [ValueError] and [process_record] returns no flag at all. *)
Lemma C1_counterexample :
  ~ (forall rec, well_formed rec ->
       ((exists red, process_record rec = Ok (red, true)) <->
        standalone_hit rec \/ combinatorial_hit rec)).
Proof.
  intros H.
  pose (rec := [(k_name, VStr (py "John Doe"));
                (k_email, VStr (py "johndoe"))]).
  assert (WF : well_formed rec) by solve_well_formed.
  destruct (proj2 (H rec WF)) as [red Hred].
  - right. exists k_name, (VStr (py "John Doe")),
                  k_email, (VStr (py "johndoe")).
    repeat split; try discriminate; cbn; auto.
  - vm_compute in Hred. discriminate.
Qed.

(** C1, amended: on every record whose masking calls are all defined (the
    combinatorial threshold is not reached, or every truthy combinatorial
    value is a string and the email value contains an [@]) and in which no
    standalone field holds a word of its pattern followed by a newline,
    [process_record] returns, and its flag is true if and only if some field
    is a standalone match (the whole value matches the pattern of the
    field) or two distinct combinatorial fields are present with truthy
    values. *)
Theorem C1_is_pii_flag (rec : record) :
  well_formed rec ->
  masking_defined rec = true ->
  ~ newline_slip rec ->
  exists red b,
    process_record rec = Ok (red, b) /\
    (b = true <-> standalone_hit rec \/ combinatorial_hit rec).
Proof.
  intros WF D NS.
  apply (process_record_returns_iff rec WF) in D as [[red b] E].
  exists red, b. split; [exact E|].
  rewrite (process_record_flag rec red b E), orb_true_iff.
  rewrite detector_hit_iff, (detector_hit_full rec NS),
    (combinatorial_hit_iff rec WF). tauto.
Qed.

Lemma C1_witness :
  well_formed [(k_phone, VStr (py "9876543210"));
               (k_name, VStr (py "John Doe"));
               (k_email, VStr (py "x@y.com"))] /\
  exists red b,
    process_record [(k_phone, VStr (py "9876543210"));
                    (k_name, VStr (py "John Doe"));
                    (k_email, VStr (py "x@y.com"))] = Ok (red, b) /\
    (b = true <->
     standalone_hit [(k_phone, VStr (py "9876543210"));
                     (k_name, VStr (py "John Doe"));
                     (k_email, VStr (py "x@y.com"))] \/
     combinatorial_hit [(k_phone, VStr (py "9876543210"));
                        (k_name, VStr (py "John Doe"));
                        (k_email, VStr (py "x@y.com"))]).
Proof.
  assert (WF : well_formed [(k_phone, VStr (py "9876543210"));
                            (k_name, VStr (py "John Doe"));
                            (k_email, VStr (py "x@y.com"))])
    by solve_well_formed.
  split; [exact WF|].
  apply (C1_is_pii_flag _ WF); [reflexivity|].
  intros (k & t & r & I & Hr & _).
  destruct I as [I|[I|[I|[]]]]; injection I as <- E;
    try (vm_compute in Hr; discriminate Hr).
  apply strip_final_newline_spec in E. discriminate E.
Defined.

(** The frame of [process_record], with the test of the code: in the record
    it returns the keys are those of the input, in the same order, and a
    field keeps its value when its name is outside both vocabularies, when
    it is a standalone field that [is_standalone_pii] rejects, and when it
    is a combinatorial field that is falsy or the threshold is not
    reached. *)
Lemma unflagged_fields_unchanged (rec red : record) (b : bool) :
  well_formed rec ->
  process_record rec = Ok (red, b) ->
  keys red = keys rec /\
  forall k v,
    In (k, v) rec ->
    (~ In k standalone_vocabulary /\ ~ In k combinatorial_pii) \/
    (In k standalone_vocabulary /\ is_standalone_pii k v = false) \/
    (In k combinatorial_pii /\
     (truthy v = false \/ ~ combinatorial_hit rec)) ->
    dict_get k red = Ok v /\ In (k, v) red.
Proof.
  intros WF E.
  destruct (process_record_frame rec red b WF E) as [K F].
  split; [exact K|]. intros k v I Hk.
  assert (G : dict_get k red = Ok v).
  { apply F; [exact I| |].
    - destruct (is_standalone_pii k v) eqn:S; [|reflexivity].
      apply is_standalone_pii_spec in S as (s & r & _ & Hr & _).
      apply registered_pattern_vocabulary in Hr.
      destruct Hr as [<-|[<-|[<-|[<-|[]]]]];
        destruct Hk as [[N _]|[[_ D]|[C _]]];
        try discriminate;
        try (exfalso; apply N; cbn; tauto);
        apply key_in_In in C; vm_compute in C; discriminate.
    - destruct (is_present (k, v)) eqn:P; [|auto].
      apply is_present_combinatorial in P as [C T].
      destruct Hk as [[_ N]|[[V _]|[_ [D|D]]]].
      + contradiction.
      + exfalso. destruct V as [<-|[<-|[<-|[<-|[]]]]];
          apply key_in_In in C; vm_compute in C; discriminate.
      + congruence.
      + left. destruct (threshold_reached rec) eqn:T'; [|reflexivity].
        exfalso. apply D. apply (combinatorial_hit_iff rec WF). exact T'. }
  split; [exact G | apply dict_get_In; exact G].
Qed.

Lemma unflagged_fields_example :
  well_formed [(k_phone, VStr (py "9876543210"));
               (py "city", VStr (py "Pune"));
               (k_aadhar, VInt 123456789012);
               (k_name, VStr (py "John Doe"))] /\
  exists red,
    process_record [(k_phone, VStr (py "9876543210"));
                    (py "city", VStr (py "Pune"));
                    (k_aadhar, VInt 123456789012);
                    (k_name, VStr (py "John Doe"))] = Ok (red, true) /\
    dict_get (py "city") red = Ok (VStr (py "Pune")) /\
    dict_get k_aadhar red = Ok (VInt 123456789012) /\
    dict_get k_name red = Ok (VStr (py "John Doe")).
Proof.
  assert (WF : well_formed [(k_phone, VStr (py "9876543210"));
                            (py "city", VStr (py "Pune"));
                            (k_aadhar, VInt 123456789012);
                            (k_name, VStr (py "John Doe"))])
    by solve_well_formed.
  split; [exact WF|].
  eexists. split; [reflexivity|].
  pose proof (unflagged_fields_unchanged _ _ _ WF eq_refl) as [_ F].
  split; [|split].
  - apply F; [cbn; tauto|]. left.
    split; cbn; intuition discriminate.
  - apply F; [cbn; tauto|]. right; left.
    split; [cbn; tauto | reflexivity].
  - apply F; [cbn; tauto|]. right; right.
    split; [cbn; tauto|]. right.
    intros (k1 & v1 & k2 & v2 & N & C1 & C2 & I1 & I2 & T1 & T2).
    cbn [In] in I1, I2.
    repeat match goal with
           | H : _ \/ _ |- _ => destruct H
           | H : (_, _) = (_, _) |- _ => injection H as <- <-
           | H : False |- _ => destruct H
           end; try congruence; cbn in C1, C2; intuition discriminate.
Qed.

(** C6: the value of [phone] is ten digits followed by a newline.  The
    whole value is not a word of the phone pattern, so the field does not
    match its pattern, and yet [process_record] replaces it and flags the
    record: the test of the code accepts a final newline.  The field
    outside both vocabularies is kept. *)
Theorem C6_unmatched_phone_is_rewritten :
  ~ lang patterns.phone (py "9876543210" ++ [newline]) /\
  process_record [(k_phone, VStr (py "9876543210" ++ [newline]));
                  (py "city", VStr (py "Pune"))]
  = Ok ([(k_phone, VStr (py "98XXXXXX0" ++ [newline]));
         (py "city", VStr (py "Pune"))], true).
Proof.
  split; [|reflexivity].
  rewrite <- accepts_lang. vm_compute. discriminate.
Qed.

(** C10: whenever two distinct combinatorial fields hold truthy values and
    some combinatorial field holds a truthy value that is not a string,
    [process_record] raises an exception instead of returning a pair; the
    exception is one of those of the masking calls. *)
Theorem C10_non_string_value_raises (rec : record) :
  well_formed rec ->
  combinatorial_hit rec ->
  (exists k v, In (k, v) rec /\ In k combinatorial_pii /\
               truthy v = true /\ is_string v = false) ->
  exists e, process_record rec = Raise e /\ masking_error e.
Proof.
  intros WF Hit (k & v & I & C & T & S).
  assert (R : raises (process_record rec)).
  { apply (process_record_raises_iff rec WF). split.
    - apply (combinatorial_hit_iff rec WF). exact Hit.
    - exists k, v. repeat split; [exact I| |].
      + apply is_present_combinatorial. auto.
      + unfold maskable. cbn [snd]. destruct v; try reflexivity. discriminate. }
  destruct R as [e E]. exists e. split; [exact E|].
  exact (process_record_error_kind rec e WF E).
Qed.

Lemma C10_witness :
  well_formed [(k_name, VStr (py "John Doe")); (k_ip_address, VInt 3232235777)] /\
  process_record [(k_name, VStr (py "John Doe"));
                  (k_ip_address, VInt 3232235777)] = Raise AttributeError.
Proof.
  assert (WF : well_formed [(k_name, VStr (py "John Doe"));
                            (k_ip_address, VInt 3232235777)])
    by solve_well_formed.
  split; [exact WF|].
  destruct (C10_non_string_value_raises _ WF) as (e & E & _).
  - exists k_name, (VStr (py "John Doe")), k_ip_address, (VInt 3232235777).
    repeat split; try discriminate; cbn; auto 6.
  - exists k_ip_address, (VInt 3232235777).
    repeat split; cbn; auto 6.
  - reflexivity.
Defined.

(* ================================================================== *)
(** ** Values a masking function does not accept *)

Lemma empty_string_not_flagged (k : str) :
  is_standalone_pii k (VStr []) = false /\ is_present (k, VStr []) = false.
Proof.
  split.
  - unfold is_standalone_pii.
    change (re_match patterns.phone []) with false.
    change (re_match patterns.aadhar []) with false.
    change (re_match patterns.passport []) with false.
    change (re_match patterns.upi_id []) with false.
    rewrite !andb_false_r. reflexivity.
  - unfold is_present. cbn [fst snd].
    change (truthy (VStr [])) with false. apply andb_false_r.
Qed.

(** C4, as stated, does not hold: on the empty string the split at [@]
    yields one part, and unpacking it into two names raises. *)
Lemma C4_counterexample :
  mask_upi (py "") = Raise ValueError /\ mask_email (py "") = Raise ValueError.
Proof. split; reflexivity. Qed.

Lemma process_record_raise_cause (rec : record) (e : exn) :
  well_formed rec -> process_record rec = Raise e ->
  exists k v,
    In (k, v) rec /\ In k combinatorial_pii /\ truthy v = true /\
    (is_string v = false \/
     (k = k_email /\ exists s, v = VStr s /\ has_char "@" s = false)).
Proof.
  intros WF E.
  assert (R : raises (process_record rec)) by (exists e; exact E).
  apply (process_record_raises_iff rec WF) in R
    as (_ & k & v & I & P & M).
  exists k, v. apply is_present_combinatorial in P as [C Tv].
  repeat (split; [assumption|]).
  unfold maskable in M. cbn [fst snd] in M.
  destruct v as [| | |s]; try (left; reflexivity). right.
  destruct (str_eqb k k_email) eqn:Ek; [|discriminate].
  apply str_eqb_eq in Ek. split; [exact Ek|]. exists s. auto.
Qed.

Lemma process_record_empty_kept (rec red : record) (b : bool) (k : str) :
  well_formed rec -> process_record rec = Ok (red, b) ->
  In (k, VStr []) rec -> dict_get k red = Ok (VStr []).
Proof.
  intros WF E I.
  destruct (process_record_frame rec red b WF E) as [_ F].
  destruct (empty_string_not_flagged k) as [S P].
  apply F; auto.
Qed.

(** C4, amended: on the empty string [mask_phone], [mask_aadhar],
    [mask_passport], [mask_name], [mask_address], [mask_device_id] and
    [mask_ip_address] return (a degenerate output), while [mask_upi] and
    [mask_email] raise [ValueError].  In [process_record] the empty string
    never reaches a masking function: it is neither a standalone match nor
    a present combinatorial value, so in every record a field that holds
    the empty string keeps it whenever [process_record] returns, and
    whenever [process_record] raises the cause is a combinatorial field
    with a truthy value, a value that is not a string or an email without
    [@], never an empty string.  A record whose values are all empty
    strings is returned unchanged with a false flag. *)
Theorem C4_masks_on_empty_string :
  (mask_phone (py "") = Ok (py "XXXXXX") /\
   mask_aadhar (py "") = Ok (py "XXXX XXXX ") /\
   mask_passport (py "") = Ok (py "") /\
   mask_name (py "") = Ok (py "") /\
   mask_address (py "") = Ok (py "") /\
   mask_device_id (py "") = Ok (py "") /\
   mask_ip_address (py "") = Ok (py "")) /\
  (mask_upi (py "") = Raise ValueError /\
   mask_email (py "") = Raise ValueError) /\
  (forall k, is_standalone_pii k (VStr (py "")) = false /\
             is_present (k, VStr (py "")) = false) /\
  (forall rec, well_formed rec ->
     (forall red b k,
        process_record rec = Ok (red, b) -> In (k, VStr (py "")) rec ->
        dict_get k red = Ok (VStr (py ""))) /\
     (forall e,
        process_record rec = Raise e ->
        exists k v,
          In (k, v) rec /\ In k combinatorial_pii /\ truthy v = true /\
          v <> VStr (py "") /\
          (is_string v = false \/
           (k = k_email /\
            exists s, v = VStr s /\ has_char "@" s = false)))) /\
  (forall rec, (forall k v, In (k, v) rec -> v = VStr (py "")) ->
               process_record rec = Ok (rec, false)).
Proof.
  split; [repeat split|]. split; [split; reflexivity|].
  split; [exact empty_string_not_flagged|]. split.
  - intros rec WF. split.
    + intros red b k E I. exact (process_record_empty_kept rec red b k WF E I).
    + intros e E.
      destruct (process_record_raise_cause rec e WF E)
        as (k & v & I & C & T & H).
      exists k, v. repeat (split; [assumption|]).
      split; [intros ->; discriminate T | exact H].
  - intros rec H. apply process_record_idle. intros [k v] I.
    rewrite (H k v I). unfold is_standalone_item. cbn [fst snd].
    apply empty_string_not_flagged.
Qed.

Lemma C4_witness :
  well_formed [(k_name, VStr (py "a")); (k_address, VStr (py "b"));
               (k_email, VStr (py "")); (k_upi_id, VStr (py ""))] /\
  exists red,
    process_record [(k_name, VStr (py "a")); (k_address, VStr (py "b"));
                    (k_email, VStr (py "")); (k_upi_id, VStr (py ""))]
    = Ok (red, true) /\
    dict_get k_email red = Ok (VStr (py "")) /\
    dict_get k_upi_id red = Ok (VStr (py "")).
Proof.
  assert (WF : well_formed [(k_name, VStr (py "a")); (k_address, VStr (py "b"));
                            (k_email, VStr (py "")); (k_upi_id, VStr (py ""))])
    by solve_well_formed.
  split; [exact WF|].
  destruct C4_masks_on_empty_string as (_ & _ & _ & M & _).
  destruct (M _ WF) as [K _].
  eexists. split; [reflexivity|].
  split; (eapply K; [reflexivity | cbn; auto 6]).
Defined.

(** C5, as stated, does not hold: the email value has no [@], the
    threshold is reached, and what [process_record] raises is the
    [ValueError] of the failed unpacking, not an error naming the field
    and the value. *)
Lemma C5_counterexample :
  process_record [(k_name, VStr (py "John Doe")); (k_email, VStr (py "johndoe"))]
  = Raise ValueError /\
  forall k v,
    process_record [(k_name, VStr (py "John Doe"));
                    (k_email, VStr (py "johndoe"))]
    <> Raise (MalformedFieldError k v).
Proof. split; [reflexivity | intros k v; vm_compute; discriminate]. Qed.

(** C5, amended: when the combinatorial threshold is reached, the present
    combinatorial values are strings and the email value is a non-empty
    string without [@], [process_record] raises for that record the
    [ValueError] of the failed unpacking in [mask_email].  A [upi_id] value
    without [@], in any record, does not match its pattern and is not
    masked: it keeps its value whenever [process_record] returns,
    [process_record] returns whenever the masking calls of the
    combinatorial fields are defined, and when it raises the cause is a
    combinatorial field, never the [upi_id]. *)
Theorem C5_missing_separator :
  (forall rec e,
     well_formed rec ->
     In (k_email, VStr e) rec -> e <> [] -> has_char "@" e = false ->
     combinatorial_hit rec ->
     (forall k v, In (k, v) rec -> is_present (k, v) = true ->
                  is_string v = true) ->
     process_record rec = Raise ValueError) /\
  (forall rec s,
     well_formed rec ->
     In (k_upi_id, VStr s) rec -> has_char "@" s = false ->
     is_standalone_pii k_upi_id (VStr s) = false /\
     (forall red b, process_record rec = Ok (red, b) ->
                    dict_get k_upi_id red = Ok (VStr s)) /\
     (masking_defined rec = true -> returns (process_record rec)) /\
     (forall x, process_record rec = Raise x ->
        exists k v,
          In (k, v) rec /\ In k combinatorial_pii /\ k <> k_upi_id /\
          truthy v = true /\
          (is_string v = false \/
           (k = k_email /\
            exists t, v = VStr t /\ has_char "@" t = false)))) /\
  (forall s,
     has_char "@" s = false ->
     process_record [(k_upi_id, VStr s)] = Ok ([(k_upi_id, VStr s)], false)).
Proof.
  assert (U : forall s, has_char "@" s = false ->
                        is_standalone_pii k_upi_id (VStr s) = false).
  { intros s At.
    destruct (is_standalone_pii k_upi_id (VStr s)) eqn:S; [|reflexivity].
    apply is_standalone_pii_spec in S as (s' & r & E & Hr & M).
    injection E as <-. vm_compute in Hr. injection Hr as <-.
    apply upi_match_has_at in M. congruence. }
  split; [|split].
  - intros rec e WF I Ne At Hit S.
    apply (combinatorial_hit_iff rec WF) in Hit.
    apply (process_record_value_error rec WF Hit S).
    exists k_email, e. split; [exact I|]. split.
    + unfold is_present. cbn [fst snd].
      change (key_in k_email combinatorial_pii) with true.
      destruct e; [congruence | reflexivity].
    + unfold maskable. cbn [fst snd].
      change (str_eqb k_email k_email) with true. exact At.
  - intros rec s WF I At. split; [exact (U s At)|]. split; [|split].
    + intros red b E.
      destruct (process_record_frame rec red b WF E) as [_ F].
      apply F; [exact I | exact (U s At) | right; reflexivity].
    + intros D. apply (process_record_returns_iff rec WF). exact D.
    + intros x E.
      destruct (process_record_raise_cause rec x WF E)
        as (k & v & Ik & C & T & H).
      exists k, v. repeat (split; [assumption|]).
      split; [|split; [exact T | exact H]].
      intros ->. apply key_in_In in C. vm_compute in C. discriminate C.
  - intros s At.
    apply process_record_idle. intros item [<-|[]].
    unfold is_standalone_item, is_present. cbn [fst snd].
    rewrite (U s At). split; reflexivity.
Qed.

Lemma C5_witness :
  process_record [(k_address, VStr (py "12 Hill Rd"));
                  (k_email, VStr (py "johndoe"))] = Raise ValueError /\
  (exists red b,
     process_record [(k_upi_id, VStr (py "userupi"));
                     (k_phone, VStr (py "9876543210"));
                     (k_name, VStr (py "John Doe"))] = Ok (red, b) /\
     dict_get k_upi_id red = Ok (VStr (py "userupi"))).
Proof.
  split.
  - assert (WF : well_formed [(k_address, VStr (py "12 Hill Rd"));
                              (k_email, VStr (py "johndoe"))])
      by solve_well_formed.
    apply (proj1 C5_missing_separator _ (py "johndoe") WF).
    + cbn; auto.
    + discriminate.
    + reflexivity.
    + exists k_address, (VStr (py "12 Hill Rd")),
             k_email, (VStr (py "johndoe")).
      repeat split; try discriminate; cbn; auto 6.
    + intros k v [H|[H|[]]] _; injection H as _ <-; reflexivity.
  - assert (WF : well_formed [(k_upi_id, VStr (py "userupi"));
                              (k_phone, VStr (py "9876543210"));
                              (k_name, VStr (py "John Doe"))])
      by solve_well_formed.
    destruct (proj1 (proj2 C5_missing_separator) _ (py "userupi") WF)
      as (_ & K & _); [cbn; auto | reflexivity|].
    eexists _, _. split; [reflexivity|]. eapply K. reflexivity.
Defined.

(* ================================================================== *)
(** ** The phone detector *)

Lemma is_standalone_phone (s : str) :
  is_standalone_pii k_phone (VStr s) = re_match patterns.phone s.
Proof.
  unfold is_standalone_pii.
  change (str_eqb k_phone k_phone) with true.
  change (str_eqb k_phone k_aadhar) with false.
  change (str_eqb k_phone k_passport) with false.
  change (str_eqb k_phone k_upi_id) with false.
  destruct (re_match patterns.phone s); reflexivity.
Qed.

(** The phone pattern accepts the strings of ten decimal digits and those
    strings followed by one newline, and nothing else. *)
Lemma phone_detector_spec (s : str) :
  is_standalone_pii k_phone (VStr s) = true <->
  digits 10 s \/ exists t, s = t ++ [newline] /\ digits 10 t.
Proof.
  rewrite is_standalone_phone, re_match_spec. unfold patterns.phone, digits.
  rewrite lang_rep_cls. split.
  - intros [H|(t & E & H)]; [left; exact H|right].
    apply lang_rep_cls in H. eauto.
  - intros [H|(t & E & H)]; [left; exact H|right].
    exists t. split; [exact E | apply lang_rep_cls; exact H].
Qed.

Lemma phone_ten_digits_accepted (s : str) :
  digits 10 s -> is_standalone_pii k_phone (VStr s) = true.
Proof. intros H. apply phone_detector_spec. left; exact H. Qed.

(** C2: the value is ten digits followed by a newline, eleven characters
    of which the last is not a digit, and [is_standalone_pii] accepts it as
    a phone: the [$] of the pattern also matches before a final newline. *)
Theorem C2_phone_trailing_newline_accepted :
  is_standalone_pii k_phone (VStr (py "9876543210" ++ [newline])) = true /\
  length (py "9876543210" ++ [newline]) = 11 /\
  all_chars is_decimal (py "9876543210" ++ [newline]) = false.
Proof. repeat split. Qed.

(* ================================================================== *)
(** ** Shapes of the masked values *)

(** C7: on a string of exactly ten decimal digits [mask_phone] returns a
    string of the same length, ten, whose first two and last two characters
    are those of the input and whose six middle characters are [XXXXXX]. *)
Theorem C7_mask_phone_shape (s : str) :
  digits 10 s ->
  exists m,
    mask_phone s = Ok m /\
    length m = length s /\ length m = 10 /\
    firstn 2 m = firstn 2 s /\
    skipn 8 m = skipn 8 s /\
    firstn 6 (skipn 2 m) = py "XXXXXX".
Proof.
  intros [L _].
  do 10 (destruct s as [|? s]; [discriminate L|]).
  destruct s; [|discriminate L].
  eexists. split; [reflexivity|]. repeat split.
Qed.

Lemma C7_witness :
  digits 10 (py "9876543210") /\
  exists m,
    mask_phone (py "9876543210") = Ok m /\
    length m = 10 /\
    firstn 2 m = py "98" /\ skipn 8 m = py "10" /\
    firstn 6 (skipn 2 m) = py "XXXXXX".
Proof.
  assert (D : digits 10 (py "9876543210")) by (split; reflexivity).
  split; [exact D|].
  destruct (C7_mask_phone_shape _ D) as (m & E & _ & L & F & S & X).
  exists m. auto.
Defined.

(** C8: on [john.doe@example.com] the rule (first character, then
    [max(3, len - 1)] stars, then the domain) gives seven stars, not the
    three of the documented example. *)
Theorem C8_mask_email_documented_example :
  mask_email (py "john.doe@example.com") = Ok (py "j*******@example.com") /\
  mask_email (py "john.doe@example.com") <> Ok (py "j***@example.com").
Proof. split; [reflexivity | vm_compute; discriminate]. Qed.

(* ================================================================== *)
(** ** Runs of the original value in the masked value *)

(** C3, as stated, does not hold: [mask_ip_address] copies the first two
    octets and their dots, eight characters of the original here. *)
Lemma C3_counterexample :
  mask_ip_address (py "192.168.1.1") = Ok (py "192.168.*.*") /\
  survives 4 (py "192.168.1.1") (py "192.168.*.*").
Proof.
  split; [reflexivity|].
  exists (py "192.168."). split; [cbn; lia|]. split.
  - exists [], (py "1.1"). reflexivity.
  - exists [], (py "*.*"). reflexivity.
Qed.

(** C3, amended: no run of four or more characters of the value survives
    [mask_phone] (ten digits), [mask_passport] (a value matching the
    passport pattern and free of [X]), [mask_device_id], [mask_name] and
    [mask_address] (a value free of [*]; for device ids no run of two, for
    names no run of three); of the part before the [@], no run of two
    survives [mask_email] and no run of four [mask_upi] (a part free of the
    mask characters), the [@] and the domain being kept as they are.
    By design [mask_aadhar] keeps the last four digits of a twelve-digit
    value, a run of four and none of five, and [mask_ip_address] keeps the
    first two of four dot-separated parts together with their dots. *)
Theorem C3_surviving_runs :
  (forall s, digits 10 s ->
     exists m, mask_phone s = Ok m /\ ~ survives 4 s m) /\
  (forall s, re_match patterns.passport s = true -> has_char "X" s = false ->
     exists m, mask_passport s = Ok m /\ ~ survives 4 s m) /\
  (forall s, has_char "*" s = false ->
     exists m, mask_device_id s = Ok m /\ ~ survives 2 s m) /\
  (forall s, has_char "*" s = false ->
     exists m, mask_name s = Ok m /\ ~ survives 3 s m) /\
  (forall s, has_char "*" s = false ->
     exists m, mask_address s = Ok m /\ ~ survives 4 s m) /\
  (forall l d, has_char "@" l = false -> has_char "*" l = false ->
     exists m, mask_email (l ++ "@"%char :: d) = Ok (m ++ "@"%char :: d) /\
               ~ survives 2 l m) /\
  (forall u d, u <> [] -> has_char "@" u = false ->
     has_char "*" u = false -> has_char "X" u = false ->
     exists m, mask_upi (u ++ "@"%char :: d) = Ok (m ++ "@"%char :: d) /\
               ~ survives 4 u m) /\
  (forall s, digits 12 s ->
     exists m, mask_aadhar s = Ok m /\ survives 4 s m /\ ~ survives 5 s m) /\
  (forall a b c d,
     has_char "." a = false -> has_char "." b = false ->
     has_char "." c = false -> has_char "." d = false ->
     mask_ip_address (dotted a b c d) = Ok (a ++ "."%char :: b ++ py ".*.*") /\
     survives (length a + length b + 2)
              (dotted a b c d) (a ++ "."%char :: b ++ py ".*.*")).
Proof.
  repeat match goal with |- _ /\ _ => split end.
  - intros s D. eexists. split; [apply mask_phone_rule|].
    apply phone_no_survivor. apply (digits_no_char 10); [exact D|reflexivity].
  - intros s M X. pose proof (passport_match_length s M) as L.
    eexists. split.
    + rewrite mask_passport_rule.
      destruct (Nat.ltb_spec 4 (length s)); [reflexivity | lia].
    + apply passport_no_survivor; [lia | exact X].
  - intros s H. rewrite mask_device_id_rule.
    destruct (Nat.ltb_spec 2 (length s)) as [L|L].
    + eexists. split; [reflexivity|]. apply device_no_survivor; assumption.
    + eexists. split; [reflexivity|]. intros S.
      apply (stars_no_survivor (length s) s H).
      apply (survives_weaken 1 2); [lia | exact S].
  - intros s H. eexists. split; [apply mask_name_rule|].
    apply (joined_no_survivor 0 name_part_mask s); [|exact H].
    intros t. apply name_part_mask_blocky.
  - intros s H. eexists. split; [apply mask_address_rule|].
    apply (joined_no_survivor 1 address_word_mask s); [|exact H].
    intros t. apply address_word_mask_blocky.
  - intros l d At H. rewrite (mask_email_rule l d At).
    eexists. split; [reflexivity|]. unfold name_part_mask.
    destruct (Nat.ltb_spec 1 (length l)) as [L|L].
    + apply starred_no_survivor; exact H.
    + apply short_no_survivor. lia.
  - intros u d N At H X. rewrite (mask_upi_rule u d At N).
    destruct (isdigit u && (length u =? 10)%nat).
    + exists (firstn 2 u ++ repeat "X"%char 6 ++ skipn (length u - 2) u).
      split; [rewrite <- !app_assoc; reflexivity|].
      apply phone_no_survivor; exact X.
    + exists (starred u). split; [reflexivity|]. intros S.
      apply (starred_no_survivor u H).
      apply (survives_weaken 2 4); [lia | exact S].
  - intros s D. eexists. split; [apply mask_aadhar_rule|].
    apply aadhar_survivor; exact D.
  - intros a b c d Ha Hb Hc Hd.
    split; [apply mask_ip_address_rule; assumption|].
    exists (a ++ "."%char :: b ++ ["."%char]).
    split; [rewrite length_app; cbn [length]; rewrite length_app;
            cbn [length]; lia|].
    split.
    + exists [], (c ++ "."%char :: d). unfold dotted. cbn [app].
      rewrite <- !app_assoc. cbn [app]. rewrite <- !app_assoc. reflexivity.
    + exists [], (py "*.*"). cbn [app].
      rewrite <- !app_assoc. cbn [app]. rewrite <- !app_assoc. reflexivity.
Qed.

Lemma C3_witness :
  digits 10 (py "9876543210") /\
  (exists m, mask_phone (py "9876543210") = Ok m /\
             ~ survives 4 (py "9876543210") m) /\
  digits 12 (py "123456789012") /\
  (exists m, mask_aadhar (py "123456789012") = Ok m /\
             survives 4 (py "123456789012") m /\
             ~ survives 5 (py "123456789012") m).
Proof.
  assert (D10 : digits 10 (py "9876543210")) by (split; reflexivity).
  assert (D12 : digits 12 (py "123456789012")) by (split; reflexivity).
  pose proof C3_surviving_runs as (P & _ & _ & _ & _ & _ & _ & A & _).
  split; [exact D10|]. split; [exact (P _ D10)|].
  split; [exact D12 | exact (A _ D12)].
Defined.

(* ================================================================== *)
(** ** Masking a masked value *)

(** C9, as stated, does not hold: a second pass of [mask_phone] over a
    masked ten-digit phone number gives the same string again. *)
Lemma C9_counterexample :
  mask_phone (py "9876543210") = Ok (py "98XXXXXX10") /\
  twice mask_phone (py "9876543210") = mask_phone (py "9876543210").
Proof. split; reflexivity. Qed.

(** C9, amended: each masking function is a function of the value alone,
    and a second pass changes the value for two of them only: [mask_upi],
    exactly when the user name is ten digits (it was masked as a phone
    number, and is then masked as a name), and [mask_address], exactly
    when some token of the address is numeric.  [mask_phone] (two
    characters or more), [mask_aadhar] (four or more), [mask_passport],
    [mask_device_id], [mask_ip_address], [mask_name] (any string) and
    [mask_email] (a non-empty local part) give the same result when applied
    twice. *)
Theorem C9_second_pass :
  (forall s, 2 <= length s -> twice mask_phone s = mask_phone s) /\
  (forall s, 4 <= length s -> twice mask_aadhar s = mask_aadhar s) /\
  (forall s, twice mask_passport s = mask_passport s) /\
  (forall s, twice mask_device_id s = mask_device_id s) /\
  (forall s, twice mask_ip_address s = mask_ip_address s) /\
  (forall s, twice mask_name s = mask_name s) /\
  (forall l d, has_char "@" l = false -> l <> [] ->
     twice mask_email (l ++ "@"%char :: d)
     = mask_email (l ++ "@"%char :: d)) /\
  (forall u d, has_char "@" u = false -> u <> [] ->
     (twice mask_upi (u ++ "@"%char :: d) = mask_upi (u ++ "@"%char :: d)
      <-> isdigit u && (length u =? 10)%nat = false)) /\
  (forall s, twice mask_address s = mask_address s <->
             forall t, In t (split_ws s) -> isdigit t = false).
Proof.
  repeat match goal with |- _ /\ _ => split end.
  - exact mask_phone_twice.
  - exact mask_aadhar_twice.
  - exact mask_passport_twice.
  - exact mask_device_id_twice.
  - exact mask_ip_address_twice.
  - exact mask_name_twice.
  - exact mask_email_twice.
  - intros u d At N. split.
    + intros E. destruct (isdigit u) eqn:D; [|reflexivity].
      destruct (Nat.eqb_spec (length u) 10) as [L|L]; [|reflexivity].
      exfalso. exact (mask_upi_twice_differs u d D L E).
    + apply mask_upi_twice_same; assumption.
  - exact mask_address_twice_iff.
Qed.

Lemma C9_witness :
  twice mask_phone (py "9876543210") = mask_phone (py "9876543210") /\
  twice mask_email (py "john.doe@example.com")
  = mask_email (py "john.doe@example.com") /\
  twice mask_upi (py "9876543210@ybl") <> mask_upi (py "9876543210@ybl") /\
  twice mask_address (py "123 Main St") <> mask_address (py "123 Main St").
Proof.
  pose proof C9_second_pass as (P & _ & _ & _ & _ & _ & E & U & A).
  split; [apply P; cbn; lia|].
  split; [apply (E (py "john.doe") (py "example.com"));
          [reflexivity | discriminate]|].
  split.
  - intros H.
    apply (U (py "9876543210") (py "ybl") eq_refl) in H; discriminate.
  - intros H.
    pose proof (proj1 (A (py "123 Main St")) H (py "123")) as D.
    cbn in D. assert (F : true = false) by (apply D; left; reflexivity).
    discriminate F.
Defined.

(* ================================================================== *)
(** ** What the four patterns accept *)

Lemma is_standalone_registered (k : str) (r : regex) (s : str) :
  registered_pattern k = Some r ->
  is_standalone_pii k (VStr s) = re_match r s.
Proof.
  intros Hr. destruct (re_match r s) eqn:M.
  - apply is_standalone_pii_spec. exists s, r. auto.
  - destruct (is_standalone_pii k (VStr s)) eqn:S; [|reflexivity].
    apply is_standalone_pii_spec in S as (s' & r' & E & Hr' & M').
    injection E as <-. congruence.
Qed.

(** X1: a value of the field [aadhar] is detected exactly when it is
    twelve decimal digits, or twelve decimal digits followed by one
    newline. *)
Theorem X1_aadhar_detector (s : str) :
  is_standalone_pii k_aadhar (VStr s) = true <->
  digits 12 s \/ exists t, s = t ++ [newline] /\ digits 12 t.
Proof.
  rewrite (is_standalone_registered k_aadhar patterns.aadhar s eq_refl).
  rewrite re_match_spec. unfold patterns.aadhar, digits.
  rewrite lang_rep_cls. split.
  - intros [H|(t & E & H)]; [left; exact H|right].
    apply lang_rep_cls in H. eauto.
  - intros [H|(t & E & H)]; [left; exact H|right].
    exists t. split; [exact E | apply lang_rep_cls; exact H].
Qed.

(** X2: a value of the field [passport] is detected exactly when it is one
    character of [A-P], [R-W] or [Y] followed by six to nine characters of
    [A-Z] or [0-9], optionally followed by one newline; in particular the
    first letter is never [Q], [X] or [Z] and no lower-case letter is
    accepted. *)
Theorem X2_passport_detector (s : str) :
  is_standalone_pii k_passport (VStr s) = true <->
  exists c t,
    (s = c :: t \/ s = c :: t ++ [newline]) /\
    cls_passport_first c = true /\
    6 <= length t <= 9 /\
    all_chars cls_upper_digit t = true.
Proof.
  rewrite (is_standalone_registered k_passport patterns.passport s eq_refl).
  rewrite re_match_spec. split.
  - intros [H|(u & E & H)];
      apply passport_lang_shape in H as (c & t & -> & Hc & L & A);
      exists c, t; subst; auto.
  - intros (c & t & [->| ->] & Hc & L & A).
    + left. apply passport_lang_shape. exists c, t. auto.
    + right. exists (c :: t). split; [reflexivity|].
      apply passport_lang_shape. exists c, t. auto.
Qed.

(** X3: a value of the field [upi_id] is detected exactly when it is a
    non-empty run of word characters, dots and hyphens, one [@], and
    another such non-empty run, optionally followed by one newline; so a
    detected value has exactly one [@], with something on both sides. *)
Theorem X3_upi_detector (s : str) :
  is_standalone_pii k_upi_id (VStr s) = true <->
  exists u d,
    (s = u ++ "@"%char :: d \/ s = u ++ "@"%char :: d ++ [newline]) /\
    u <> [] /\ d <> [] /\
    all_chars cls_word_dot_hyphen u = true /\
    all_chars cls_word_dot_hyphen d = true.
Proof.
  rewrite (is_standalone_registered k_upi_id patterns.upi_id s eq_refl).
  rewrite re_match_spec. split.
  - intros [H|(t & E & H)];
      apply upi_lang_shape in H as (u & d & -> & Nu & Nd & Au & Ad);
      exists u, d; subst; repeat split; auto.
    right. rewrite <- app_assoc. reflexivity.
  - intros (u & d & [->| ->] & Nu & Nd & Au & Ad).
    + left. apply upi_lang_shape. exists u, d. auto.
    + right. exists (u ++ "@"%char :: d).
      split; [rewrite <- app_assoc; reflexivity|].
      apply upi_lang_shape. exists u, d. auto.
Qed.

(** X4: the standalone detector only ever flags a field named [phone],
    [aadhar], [passport] or [upi_id] whose value is a string of at least
    three characters; any other field name, a number, a boolean, null and
    the short strings are never standalone PII. *)
Theorem X4_detector_domain (k : str) (v : value) :
  is_standalone_pii k v = true ->
  In k standalone_vocabulary /\ exists s, v = VStr s /\ 3 <= length s.
Proof.
  intros H. apply is_standalone_pii_spec in H as (s & r & -> & Hr & M).
  split; [exact (registered_pattern_vocabulary _ _ Hr)|].
  exists s. split; [reflexivity|].
  assert (L : forall t, lang r t -> 3 <= length t).
  { unfold registered_pattern in Hr.
    repeat match type of Hr with
           | (if ?c then _ else _) = _ => destruct c
           end; try discriminate; injection Hr as <-; intros t Ht.
    - apply lang_rep_cls in Ht as [Lt _]. lia.
    - apply lang_rep_cls in Ht as [Lt _]. lia.
    - apply passport_lang_shape in Ht as (c & u & -> & _ & Lu & _).
      simpl. lia.
    - apply upi_lang_shape in Ht as (u & d & -> & Nu & Nd & _).
      rewrite length_app. destruct u; [congruence|].
      destruct d; [congruence|]. simpl. lia. }
  apply re_match_spec in M as [M|(t & -> & M)].
  - exact (L s M).
  - rewrite length_app. specialize (L t M). lia.
Qed.

Lemma X4_witness :
  is_standalone_pii k_upi_id (VStr (py "a@b")) = true /\
  In k_upi_id standalone_vocabulary /\
  exists s, VStr (py "a@b") = VStr s /\ 3 <= length s.
Proof.
  split; [reflexivity|].
  apply (X4_detector_domain k_upi_id (VStr (py "a@b"))). reflexivity.
Defined.

(* ================================================================== *)
(** ** Shapes of the masked values, for every input *)

(** X5: on every value the [upi_id] pattern accepts, [mask_upi] returns:
    the value splits at its only [@] into a non-empty user name and a
    domain, the user name is masked as a phone number when it is ten digits
    and as a name otherwise, and the [@] and the domain are kept. *)
Theorem X5_mask_upi_on_detected (s : str) :
  is_standalone_pii k_upi_id (VStr s) = true ->
  exists u d,
    s = u ++ "@"%char :: d /\ u <> [] /\ has_char "@" u = false /\
    mask_upi s
    = Ok ((if isdigit u && (length u =? 10)%nat
           then firstn 2 u ++ repeat "X"%char 6 ++ skipn (length u - 2) u
           else starred u) ++ "@"%char :: d).
Proof.
  intros H.
  rewrite (is_standalone_registered k_upi_id patterns.upi_id s eq_refl) in H.
  apply re_match_spec in H.
  assert (R : forall u d', u <> [] -> all_chars cls_word_dot_hyphen u = true ->
      has_char "@" u = false /\
      mask_upi (u ++ "@"%char :: d')
      = Ok ((if isdigit u && (length u =? 10)%nat
             then firstn 2 u ++ repeat "X"%char 6 ++ skipn (length u - 2) u
             else starred u) ++ "@"%char :: d')).
  { intros u d' Nu Au.
    assert (At : has_char "@" u = false)
      by (apply (all_chars_no_char cls_word_dot_hyphen); auto).
    split; [exact At|]. rewrite (mask_upi_rule u d' At Nu).
    destruct (isdigit u && (length u =? 10)%nat); [|reflexivity].
    rewrite <- !app_assoc. reflexivity. }
  destruct H as [H|(t & -> & H)];
    apply upi_lang_shape in H as (u & d & -> & Nu & _ & Au & _).
  - exists u, d. destruct (R u d Nu Au). auto.
  - exists u, (d ++ [newline]). destruct (R u (d ++ [newline]) Nu Au).
    rewrite <- app_assoc. auto.
Qed.

Lemma X5_witness :
  is_standalone_pii k_upi_id (VStr (py "user@upi")) = true /\
  exists u d,
    py "user@upi" = u ++ "@"%char :: d /\ u <> [] /\
    has_char "@" u = false /\
    mask_upi (py "user@upi")
    = Ok ((if isdigit u && (length u =? 10)%nat
           then firstn 2 u ++ repeat "X"%char 6 ++ skipn (length u - 2) u
           else starred u) ++ "@"%char :: d).
Proof.
  split; [reflexivity|].
  apply (X5_mask_upi_on_detected (py "user@upi")). reflexivity.
Defined.

(** X6: on a value that begins with [@], an empty user name, [mask_upi]
    raises [IndexError] at [username[0]], whereas [mask_email], which
    tests the length first, returns three stars, the [@] and the domain. *)
Theorem X6_empty_part_before_at (d : str) :
  mask_upi ("@"%char :: d) = Raise IndexError /\
  mask_email ("@"%char :: d) = Ok (py "***@" ++ d).
Proof. split; reflexivity. Qed.

(** X7: [mask_email] returns exactly on the strings that contain an [@];
    on every other string, the empty one included, it raises
    [ValueError]. *)
Theorem X7_mask_email_defined (s : str) :
  (has_char "@" s = true <-> returns (mask_email s)) /\
  (has_char "@" s = false <-> mask_email s = Raise ValueError).
Proof.
  split; [symmetry; apply mask_email_returns|]. split.
  - apply mask_email_no_at.
  - intros E. destruct (has_char "@" s) eqn:H; [|reflexivity].
    apply mask_email_returns in H as [m Hm]. congruence.
Qed.

Lemma length_name_part_mask_exact (t : str) :
  t <> [] -> length (name_part_mask t) = Nat.max 4 (length t).
Proof.
  intros N. unfold name_part_mask, starred.
  destruct (Nat.ltb_spec 1 (length t)) as [L|L].
  - rewrite length_app, repeat_length, length_firstn. lia.
  - rewrite length_app. destruct t as [|c [|x t]];
      [congruence | reflexivity | simpl in L; lia].
Qed.

(** X8: [mask_email] splits at the first [@] only: whatever follows it,
    further [@] included, is kept as it is, and the part before it becomes
    its first character followed by stars, four characters at least and as
    many as the part had beyond that, so that short local parts do not show
    their length. *)
Theorem X8_mask_email_rule (l d : str) :
  has_char "@" l = false -> l <> [] ->
  exists m,
    mask_email (l ++ "@"%char :: d) = Ok (m ++ "@"%char :: d) /\
    length m = Nat.max 4 (length l) /\
    firstn 1 m = firstn 1 l /\
    skipn 1 m = repeat "*"%char (length m - 1).
Proof.
  intros At N. exists (name_part_mask l).
  split; [apply mask_email_rule; exact At|].
  split; [apply length_name_part_mask_exact; exact N|].
  rewrite (length_name_part_mask_exact l N).
  unfold name_part_mask, starred.
  destruct (Nat.ltb_spec 1 (length l)) as [L|L].
  - assert (L1 : length (firstn 1 l) = 1) by (rewrite length_firstn; lia).
    rewrite (firstn_exact _ _ 1 L1), (skipn_exact _ _ 1 L1).
    split; [reflexivity|]. f_equal. lia.
  - destruct l as [|c [|x l]]; [congruence | | simpl in L; lia].
    split; reflexivity.
Qed.

Lemma X8_witness :
  exists m,
    mask_email (py "a.b@x@y.org") = Ok (m ++ py "@x@y.org") /\
    length m = 4 /\ firstn 1 m = py "a" /\ skipn 1 m = py "***".
Proof.
  destruct (X8_mask_email_rule (py "a.b") (py "x@y.org")) as (m & E & L & F & S);
    [reflexivity | discriminate|].
  exists m. split; [exact E|]. split; [exact L|]. split; [exact F|].
  rewrite S, L. reflexivity.
Defined.

(** X9: [mask_passport] keeps the length of every string, its first
    character and its last three; beyond four characters everything in
    between is [X], and a string of four characters or fewer is returned
    unmasked. *)
Theorem X9_mask_passport_shape (s : str) :
  exists m,
    mask_passport s = Ok m /\
    length m = length s /\
    firstn 1 m = firstn 1 s /\
    skipn (length s - 3) m = skipn (length s - 3) s /\
    firstn (length s - 4) (skipn 1 m)
    = (if (4 <? length s)%nat then repeat "X"%char (length s - 4)
       else firstn (length s - 4) (skipn 1 s)) /\
    (length s <= 4 -> m = s).
Proof.
  rewrite mask_passport_rule.
  destruct (Nat.ltb_spec 4 (length s)) as [L|L].
  - eexists. split; [reflexivity|].
    assert (L1 : length (firstn 1 s) = 1) by (rewrite length_firstn; lia).
    split; [rewrite !length_app, repeat_length, length_skipn, L1; lia|].
    split; [apply firstn_exact; exact L1|].
    split; [rewrite app_assoc; apply skipn_exact;
            rewrite length_app, repeat_length, L1; lia|].
    split; [|lia].
    rewrite (skipn_exact _ _ 1 L1). apply firstn_exact, repeat_length.
  - exists s. repeat split; auto.
Qed.

Lemma X9_witness :
  exists m, mask_passport (py "AB12") = Ok m /\ m = py "AB12".
Proof.
  destruct (X9_mask_passport_shape (py "AB12")) as (m & E & _ & _ & _ & _ & U).
  exists m. split; [exact E|]. apply U. cbn. lia.
Defined.

(** X10: [mask_device_id] keeps the length of every string; beyond two
    characters it keeps the first and the last and puts stars in between,
    and a string of one or two characters becomes stars only. *)
Theorem X10_mask_device_id_shape (s : str) :
  exists m,
    mask_device_id s = Ok m /\
    length m = length s /\
    (2 < length s ->
     firstn 1 m = firstn 1 s /\
     skipn (length s - 1) m = skipn (length s - 1) s /\
     firstn (length s - 2) (skipn 1 m) = repeat "*"%char (length s - 2)) /\
    (length s <= 2 -> m = repeat "*"%char (length s)).
Proof.
  rewrite mask_device_id_rule.
  destruct (Nat.ltb_spec 2 (length s)) as [L|L].
  - eexists. split; [reflexivity|].
    assert (L1 : length (firstn 1 s) = 1) by (rewrite length_firstn; lia).
    split; [rewrite !length_app, repeat_length, length_skipn, L1; lia|].
    split; [|lia]. intros _.
    split; [apply firstn_exact; exact L1|].
    split; [rewrite app_assoc; apply skipn_exact;
            rewrite length_app, repeat_length, L1; lia|].
    rewrite (skipn_exact _ _ 1 L1). apply firstn_exact, repeat_length.
  - eexists. split; [reflexivity|].
    split; [apply repeat_length|]. split; [lia | reflexivity].
Qed.

Lemma X10_witness :
  exists m,
    mask_device_id (py "DEV123456") = Ok m /\
    firstn 1 m = py "D" /\ skipn 8 m = py "6" /\
    firstn 7 (skipn 1 m) = py "*******".
Proof.
  destruct (X10_mask_device_id_shape (py "DEV123456")) as (m & E & _ & H & _).
  exists m. split; [exact E|]. apply H. cbn. lia.
Defined.

(** X11: [mask_phone] does not keep the length of its input: the result is
    the first two characters, six [X] and the last two characters, ten
    characters for every input of two characters or more, and on a shorter
    input the characters kept in front and behind are the same ones. *)
Theorem X11_mask_phone_any_input (s : str) :
  exists m,
    mask_phone s = Ok m /\
    length m = 6 + 2 * Nat.min 2 (length s) /\
    firstn (Nat.min 2 (length s)) m = firstn 2 s /\
    skipn (Nat.min 2 (length s) + 6) m = skipn (length s - 2) s /\
    firstn 6 (skipn (Nat.min 2 (length s)) m) = py "XXXXXX".
Proof.
  rewrite mask_phone_rule. eexists. split; [reflexivity|].
  assert (L2 : length (firstn 2 s) = Nat.min 2 (length s))
    by apply length_firstn.
  split; [rewrite !length_app, repeat_length, length_skipn, L2; lia|].
  split; [apply firstn_exact; exact L2|].
  split.
  - rewrite app_assoc. apply skipn_exact.
    rewrite length_app, repeat_length, L2. reflexivity.
  - rewrite (skipn_exact _ _ _ L2). apply (firstn_exact (repeat "X"%char 6)).
    reflexivity.
Qed.

(** X12: [mask_aadhar] returns, for every string, the literal
    [XXXX XXXX ] followed by the last four characters of the input, or by
    the whole input when it has fewer than four: never more than four
    characters of the value are kept. *)
Theorem X12_mask_aadhar_any_input (s : str) :
  exists m,
    mask_aadhar s = Ok m /\
    length m = 10 + Nat.min 4 (length s) /\
    firstn 10 m = py "XXXX XXXX " /\
    skipn 10 m = skipn (length s - 4) s.
Proof.
  rewrite mask_aadhar_rule. eexists. split; [reflexivity|].
  split; [rewrite length_app, length_skipn; cbn [py list_ascii_of_string length]; lia|].
  split; [apply firstn_exact | apply skipn_exact]; reflexivity.
Qed.

(** *** Splitting at the dots *)

Lemma length_split_on (sep : ascii) (s : str) :
  length (split_on sep s) = S (count_char sep s).
Proof.
  unfold count_char. induction s as [|c s IH]; [reflexivity|].
  cbn [split_on filter]. rewrite (chr_eqb_sym sep c).
  destruct (chr_eqb c sep).
  - cbn [length]. rewrite IH. reflexivity.
  - destruct (split_on sep s) as [|w ws]; [discriminate IH|].
    cbn [length] in *. exact IH.
Qed.

Lemma join_split_on (sep : ascii) (s : str) :
  join [sep] (split_on sep s) = s.
Proof.
  induction s as [|c s IH]; [reflexivity|].
  cbn [split_on]. pose proof (length_split_on sep s) as L.
  destruct (split_on sep s) as [|w ws]; [discriminate L|].
  destruct (chr_eqb c sep) eqn:E.
  - apply chr_eqb_eq in E. subst c. rewrite join_cons2, IH. reflexivity.
  - destruct ws as [|w2 ws].
    + cbn [join] in *. rewrite IH. reflexivity.
    + rewrite <- IH, !join_cons2. reflexivity.
Qed.

(** X13: [mask_ip_address] looks at the number of dots only.  A string
    with any number of dots other than three is returned unchanged, and a
    string with three dots, whatever stands between them, keeps its first
    two parts and has the last two replaced by a star each. *)
Theorem X13_mask_ip_address_by_dots (s : str) :
  (count_char "." s <> 3 -> mask_ip_address s = Ok s) /\
  (count_char "." s = 3 ->
   exists a b c d,
     s = dotted a b c d /\
     has_char "." a = false /\ has_char "." b = false /\
     has_char "." c = false /\ has_char "." d = false /\
     mask_ip_address s = Ok (a ++ "."%char :: b ++ py ".*.*")).
Proof.
  pose proof (length_split_on "." s) as L. split; intros C.
  - unfold mask_ip_address.
    destruct (Nat.eqb_spec (length (split_on "." s)) 4) as [E|E]; [lia|].
    reflexivity.
  - destruct (split_on_parts "." s) as [_ F].
    pose proof (join_split_on "." s) as J.
    destruct (split_on "." s) as [|a [|b [|c [|d [|]]]]];
      try (cbn [length] in L; lia).
    pose proof (Forall_inv F) as Ha.
    pose proof (Forall_inv (Forall_inv_tail F)) as Hb.
    pose proof (Forall_inv (Forall_inv_tail (Forall_inv_tail F))) as Hc.
    pose proof (Forall_inv (Forall_inv_tail (Forall_inv_tail
                                               (Forall_inv_tail F)))) as Hd.
    cbv beta in Ha, Hb, Hc, Hd.
    assert (E : s = dotted a b c d).
    { rewrite <- J. reflexivity. }
    exists a, b, c, d. repeat (split; [assumption|]).
    rewrite E. apply mask_ip_address_rule; assumption.
Qed.

Lemma X13_witness :
  mask_ip_address (py "2001:db8::1") = Ok (py "2001:db8::1") /\
  exists a b c d,
    py "10.0.0.254" = dotted a b c d /\
    mask_ip_address (py "10.0.0.254") = Ok (a ++ "."%char :: b ++ py ".*.*").
Proof.
  pose proof (X13_mask_ip_address_by_dots (py "2001:db8::1")) as [U _].
  pose proof (X13_mask_ip_address_by_dots (py "10.0.0.254")) as [_ M].
  split; [apply U; discriminate|].
  destruct (M eq_refl) as (a & b & c & d & E & _ & _ & _ & _ & R).
  exists a, b, c, d. auto.
Defined.

(** *** Tokens of names and addresses *)

Lemma Forall2_map_right {A B} (R : A -> B -> Prop) (g : A -> B) (l : list A) :
  (forall x, In x l -> R x (g x)) -> Forall2 R l (map g l).
Proof.
  induction l as [|x l IH]; intros H; [constructor|].
  cbn [map]. constructor; [apply H; simpl; auto|].
  apply IH. intros y I. apply H. simpl; auto.
Qed.

Lemma name_part_mask_shape (t : str) :
  t <> [] ->
  length (name_part_mask t) = Nat.max 4 (length t) /\
  firstn 1 (name_part_mask t) = firstn 1 t /\
  skipn 1 (name_part_mask t)
  = repeat "*"%char (length (name_part_mask t) - 1).
Proof.
  intros N. split; [apply length_name_part_mask_exact; exact N|].
  rewrite (length_name_part_mask_exact t N).
  unfold name_part_mask, starred.
  destruct (Nat.ltb_spec 1 (length t)) as [L|L].
  - assert (L1 : length (firstn 1 t) = 1) by (rewrite length_firstn; lia).
    rewrite (firstn_exact _ _ 1 L1), (skipn_exact _ _ 1 L1).
    split; [reflexivity|]. f_equal. lia.
  - destruct t as [|c [|x t]]; [congruence | | simpl in L; lia].
    split; reflexivity.
Qed.

(** X14: [mask_name] works token by token.  The masked name has the
    tokens of the name, in order, each reduced to its first character
    followed by stars, as long as the token but four characters at least,
    and joined by single spaces, so that the whitespace of the input
    (leading, trailing, repeated, tabs) is not kept. *)
Theorem X14_mask_name_tokens (s : str) :
  exists m,
    mask_name s = Ok m /\
    m = join [space] (split_ws m) /\
    Forall2 (fun t p =>
               length p = Nat.max 4 (length t) /\
               firstn 1 p = firstn 1 t /\
               skipn 1 p = repeat "*"%char (length p - 1))
            (split_ws s) (split_ws m).
Proof.
  pose proof (split_ws_tokens s) as T.
  assert (J : split_ws (join [space] (map name_part_mask (split_ws s)))
              = map name_part_mask (split_ws s)).
  { apply split_ws_join, Forall_map_token; [apply name_part_mask_token|].
    exact T. }
  eexists. split; [apply mask_name_rule|]. rewrite J.
  split; [reflexivity|].
  apply Forall2_map_right. intros t I.
  rewrite Forall_forall in T. destruct (T t I) as [N _].
  apply name_part_mask_shape; exact N.
Qed.

Lemma split_ws_aux_blank (s : str) :
  all_chars is_space s = true -> split_ws_aux [] s = [].
Proof.
  unfold all_chars. induction s as [|c s IH]; [reflexivity|].
  cbn [forallb split_ws_aux]. intros H.
  apply andb_true_iff in H as [Hc H]. rewrite Hc. exact (IH H).
Qed.

(** X15: a name or an address made of whitespace only, which is a truthy
    value and so counts as a present field, is masked into the empty
    string. *)
Theorem X15_blank_value_masked_to_empty (s : str) :
  all_chars is_space s = true ->
  mask_name s = Ok [] /\ mask_address s = Ok [].
Proof.
  intros H. rewrite mask_name_rule, mask_address_rule.
  unfold split_ws. rewrite (split_ws_aux_blank s H). split; reflexivity.
Qed.

Lemma X15_witness :
  truthy (VStr (py "  ")) = true /\
  mask_name (py "  ") = Ok [] /\ mask_address (py "  ") = Ok [].
Proof.
  split; [reflexivity|].
  apply (X15_blank_value_masked_to_empty (py "  ")). reflexivity.
Defined.

(** X16: [mask_address] works token by token.  A token made of digits
    keeps its length: its first and last digit with stars in between
    beyond two digits, stars only for one or two digits.  Any other token
    is masked as a name part is.  The tokens are joined by single
    spaces. *)
Theorem X16_mask_address_tokens (s : str) :
  exists m,
    mask_address s = Ok m /\
    m = join [space] (split_ws m) /\
    Forall2 (fun t p =>
               (isdigit t = true ->
                length p = length t /\
                p = if (2 <? length t)%nat
                    then firstn 1 t ++ repeat "*"%char (length t - 2)
                           ++ skipn (length t - 1) t
                    else repeat "*"%char (length t)) /\
               (isdigit t = false ->
                length p = Nat.max 4 (length t) /\
                firstn 1 p = firstn 1 t /\
                skipn 1 p = repeat "*"%char (length p - 1)))
            (split_ws s) (split_ws m).
Proof.
  pose proof (split_ws_tokens s) as T.
  assert (J : split_ws (join [space] (map address_word_mask (split_ws s)))
              = map address_word_mask (split_ws s)).
  { apply split_ws_join, Forall_map_token; [apply address_word_mask_token|].
    exact T. }
  eexists. split; [apply mask_address_rule|]. rewrite J.
  split; [reflexivity|].
  apply Forall2_map_right. intros t I.
  rewrite Forall_forall in T. destruct (T t I) as [N _].
  unfold address_word_mask. split; intros D; rewrite D.
  - split; [|reflexivity].
    destruct (Nat.ltb_spec 2 (length t)) as [L|L].
    + rewrite !length_app, repeat_length, length_firstn, length_skipn. lia.
    + apply repeat_length.
  - apply name_part_mask_shape; exact N.
Qed.

Lemma X16_witness :
  exists m,
    mask_address (py "12  Hill Rd ") = Ok m /\
    m = join [space] (split_ws m) /\
    length (split_ws m) = 3.
Proof.
  destruct (X16_mask_address_tokens (py "12  Hill Rd ")) as (m & E & J & F).
  exists m. split; [exact E|]. split; [exact J|].
  symmetry. exact (Forall2_length F).
Defined.

(* ================================================================== *)
(** ** Detection after masking *)

Lemma digits_match_no_X (n : nat) (m : str) :
  re_match (rep n (Cls is_decimal)) m = true -> has_char "X" m = false.
Proof.
  intros H. apply re_match_spec in H.
  destruct H as [H|(t & -> & H)]; apply lang_rep_cls in H as [_ A].
  - exact (all_chars_no_char is_decimal "X" m eq_refl A).
  - rewrite has_char_app, (all_chars_no_char is_decimal "X" t eq_refl A).
    reflexivity.
Qed.

(** X17: a masked phone number and a masked aadhar number are never
    detected again: whatever the input, the output of [mask_phone] does not
    match the phone pattern and the output of [mask_aadhar] does not match
    the aadhar pattern. *)
Theorem X17_masked_numbers_not_detected (s : str) :
  (exists m, mask_phone s = Ok m /\
             is_standalone_pii k_phone (VStr m) = false) /\
  (exists m, mask_aadhar s = Ok m /\
             is_standalone_pii k_aadhar (VStr m) = false).
Proof.
  split; eexists.
  - split; [apply mask_phone_rule|].
    rewrite (is_standalone_registered k_phone patterns.phone _ eq_refl).
    destruct (re_match patterns.phone _) eqn:M; [|reflexivity].
    apply digits_match_no_X in M. rewrite !has_char_app in M.
    apply orb_false_iff in M as [_ M]. discriminate M.
  - split; [apply mask_aadhar_rule|].
    rewrite (is_standalone_registered k_aadhar patterns.aadhar _ eq_refl).
    destruct (re_match patterns.aadhar _) eqn:M; [|reflexivity].
    apply digits_match_no_X in M. rewrite has_char_app in M.
    discriminate M.
Qed.

Lemma cls_upper_digit_X : cls_upper_digit "X" = true.
Proof. reflexivity. Qed.

Lemma passport_tail_masked (t : str) (k : nat) :
  all_chars cls_upper_digit t = true ->
  all_chars cls_upper_digit (repeat "X"%char k ++ skipn k t) = true.
Proof.
  intros A. rewrite all_chars_app, (all_chars_skipn _ k t A), andb_true_r.
  apply all_chars_repeat. reflexivity.
Qed.

(** X18: a masked passport number is detected again: when a value matches
    the passport pattern, so does the output of [mask_passport] on it,
    since [X] is one of the characters the pattern accepts. *)
Theorem X18_masked_passport_still_detected (s : str) :
  is_standalone_pii k_passport (VStr s) = true ->
  exists m, mask_passport s = Ok m /\
            is_standalone_pii k_passport (VStr m) = true.
Proof.
  intros H.
  rewrite (is_standalone_registered k_passport patterns.passport s eq_refl) in H.
  apply re_match_spec in H.
  assert (Shape : exists c t,
             (s = c :: t \/ s = c :: t ++ [newline]) /\
             cls_passport_first c = true /\ 6 <= length t <= 9 /\
             all_chars cls_upper_digit t = true).
  { destruct H as [H|(u & E & H)];
      apply passport_lang_shape in H as (c & t & -> & Hc & L & A);
      exists c, t; subst; auto. }
  destruct Shape as (c & t & E & Hc & L & A).
  pose proof (passport_tail_masked t) as TM.
  destruct E as [->| ->]; rewrite mask_passport_rule.
  - cbn [length].
    destruct (Nat.ltb_spec 4 (S (length t))) as [L4|L4]; [|lia].
    eexists. split; [reflexivity|].
    rewrite (is_standalone_registered k_passport patterns.passport _ eq_refl).
    apply re_match_spec. left.
    replace (S (length t) - 3) with (S (length t - 3)) by lia.
    replace (S (length t) - 4) with (length t - 3) by lia.
    cbn [firstn skipn app]. apply passport_lang_shape.
    exists c, (repeat "X"%char (length t - 3) ++ skipn (length t - 3) t).
    split; [reflexivity|]. split; [exact Hc|].
    split; [rewrite length_app, repeat_length, length_skipn; lia|].
    apply TM; exact A.
  - cbn [length]. rewrite length_app. cbn [length].
    destruct (Nat.ltb_spec 4 (S (length t + 1))) as [L4|L4]; [|lia].
    eexists. split; [reflexivity|].
    rewrite (is_standalone_registered k_passport patterns.passport _ eq_refl).
    apply re_match_spec. right.
    replace (S (length t + 1) - 3) with (S (length t - 2)) by lia.
    replace (S (length t + 1) - 4) with (length t - 2) by lia.
    cbn [firstn skipn app].
    rewrite skipn_app.
    replace (length t - 2 - length t) with 0 by lia. cbn [skipn].
    exists (c :: repeat "X"%char (length t - 2) ++ skipn (length t - 2) t).
    split; [cbn [app]; rewrite <- app_assoc; reflexivity|].
    apply passport_lang_shape.
    exists c, (repeat "X"%char (length t - 2) ++ skipn (length t - 2) t).
    split; [reflexivity|]. split; [exact Hc|].
    split; [rewrite length_app, repeat_length, length_skipn; lia|].
    apply TM; exact A.
Qed.

Lemma X18_witness :
  is_standalone_pii k_passport (VStr (py "P1234567")) = true /\
  exists m, mask_passport (py "P1234567") = Ok m /\
            is_standalone_pii k_passport (VStr m) = true.
Proof.
  split; [reflexivity|].
  apply (X18_masked_passport_still_detected (py "P1234567")). reflexivity.
Defined.

(* ================================================================== *)
(** ** What [process_record] writes *)

Lemma standalone_mask_registered (k : str) :
  (exists r, registered_pattern k = Some r) ->
  exists f, standalone_mask k = Some f.
Proof.
  unfold registered_pattern, standalone_mask. intros [r H].
  repeat match goal with
         | |- context [if ?c then _ else _] => destruct c
         end; eauto. discriminate.
Qed.

(** The assignment made for a standalone match. *)
Lemma scan_item_hit (st st1 : scan) (k : str) (v : value) :
  is_standalone_pii k v = true ->
  scan_item st (k, v) = Ok st1 ->
  exists s f m,
    v = VStr s /\ standalone_mask k = Some f /\ f s = Ok m /\
    redacted_record st1 = dict_set k (VStr m) (redacted_record st).
Proof.
  intros H E. pose proof H as H'.
  apply is_standalone_pii_spec in H' as (s & r & -> & Hr & _).
  unfold scan_item in E. rewrite H in E.
  apply bind_Ok_inv in E as (st0 & E0 & E).
  apply bind_Ok_inv in E0 as (red & R & E0). injection E0 as <-.
  assert (Rd : redacted_record st1 = red).
  { destruct (key_in k combinatorial_pii && truthy (VStr s));
      injection E as <-; reflexivity. }
  rewrite Rd. clear E Rd. exists s.
  unfold redact_standalone, call in R.
  unfold registered_pattern in Hr. unfold standalone_mask.
  repeat match type of R with
         | (if ?c then _ else _) = _ => destruct c
         end; try discriminate.
  all: apply bind_Ok_inv in R as (a & R1 & R2).
  all: apply bind_Ok_inv in R1 as (m & R1 & R1').
  all: injection R1' as <-.
  all: injection R2 as <-.
  all: eexists.
  all: exists m.
  all: repeat (split; [reflexivity|]).
  all: split; [exact R1 | reflexivity].
Qed.

Lemma scan_items_hit (items : record) :
  forall st st' k v,
    NoDup (keys items) -> In (k, v) items ->
    is_standalone_pii k v = true ->
    scan_items st items = Ok st' ->
    exists s f m,
      v = VStr s /\ standalone_mask k = Some f /\ f s = Ok m /\
      dict_get k (redacted_record st') = Ok (VStr m).
Proof.
  induction items as [|[k1 v1] items IH]; intros st st' k v ND I H E;
    [destruct I|].
  cbn [scan_items] in E. apply bind_Ok_inv in E as (st1 & E1 & E).
  unfold keys in ND. cbn [map fst] in ND.
  inversion ND as [|? ? Hn ND']; subst.
  destruct I as [I|I].
  - injection I as -> ->.
    destruct (scan_item_hit st st1 k v H E1) as (s & f & m & Ev & Ef & Em & Er).
    exists s, f, m. repeat (split; [assumption|]).
    destruct (scan_items_spec items st1) as (st2 & E2 & _ & _ & _ & F).
    rewrite E in E2. injection E2 as <-.
    rewrite F, Er, dict_get_set, str_eqb_refl; [reflexivity|].
    intros v' I'. exfalso. apply Hn. exact (In_keys _ _ _ I').
  - exact (IH st1 st' k v ND' I H E).
Qed.

(** The assignment made for a present combinatorial field. *)
Lemma redact_combinatorial_hit (rec red red1 : record) (k : str) (v : value) :
  In k combinatorial_pii -> dict_get k rec = Ok v ->
  redact_combinatorial rec red k = Ok red1 ->
  exists s f m,
    v = VStr s /\ combinatorial_mask k = Some f /\ f s = Ok m /\
    red1 = dict_set k (VStr m) red.
Proof.
  intros C G R. unfold redact_combinatorial in R. rewrite G in R.
  cbn [bind] in R. unfold call in R. unfold combinatorial_mask.
  destruct v as [| | |s].
  1-3: exfalso;
    repeat match type of R with
           | (if ?c then _ else _) = _ => destruct c eqn:?
           end; try discriminate;
    apply key_in_In in C; unfold key_in, combinatorial_pii in C;
    cbn [existsb] in C;
    repeat match goal with
           | H : str_eqb _ _ = false |- _ => rewrite H in C; clear H
           end; discriminate.
  exists s.
  repeat match type of R with
         | (if ?c then _ else _) = _ => destruct c eqn:?
         end.
  1-5: apply bind_Ok_inv in R as (a & R1 & R2).
  1-5: apply bind_Ok_inv in R1 as (m & R1 & R1').
  1-5: injection R1' as <-.
  1-5: injection R2 as <-.
  1-5: eexists.
  1-5: exists m.
  1-5: repeat (split; [reflexivity|]).
  1-5: split; [exact R1 | reflexivity].
  exfalso. apply key_in_In in C. unfold key_in, combinatorial_pii in C.
  cbn [existsb] in C.
  repeat match goal with
         | H : str_eqb _ _ = false |- _ => rewrite H in C; clear H
         end. discriminate.
Qed.

Lemma redact_all_hit (rec : record) (ks : list str) :
  forall red red' k v,
    NoDup ks -> In k ks ->
    (forall k0, In k0 ks -> In k0 combinatorial_pii) ->
    dict_get k rec = Ok v ->
    redact_all rec red ks = Ok red' ->
    exists s f m,
      v = VStr s /\ combinatorial_mask k = Some f /\ f s = Ok m /\
      dict_get k red' = Ok (VStr m).
Proof.
  induction ks as [|k1 ks IH]; intros red red' k v ND I C G E; [destruct I|].
  cbn [redact_all] in E. apply bind_Ok_inv in E as (red1 & E1 & E).
  inversion ND as [|? ? Hn ND']; subst.
  destruct I as [->|I].
  - destruct (redact_combinatorial_hit rec red red1 k v
                (C k (or_introl eq_refl)) G E1)
      as (s & f & m & Ev & Ef & Em & Er).
    exists s, f, m. repeat (split; [assumption|]).
    destruct (redact_all_frame rec ks red1 red' E) as [F _].
    rewrite (F k Hn), Er, dict_get_set, str_eqb_refl. reflexivity.
  - apply (IH red1 red' k v ND' I); auto.
    intros k0 I0. apply C. simpl; auto.
Qed.

Lemma process_record_stages (rec : record) :
  exists st,
    scan_items (Scan rec false []) rec = Ok st /\
    process_record rec
    = (red <- (if threshold_reached rec
               then redact_all rec (redacted_record st) (present_fields rec)
               else Ok (redacted_record st)) ;;
       Ok (red, existsb is_standalone_item rec || threshold_reached rec)).
Proof.
  destruct (scan_items_spec rec (Scan rec false []))
    as (st & E & H & P & _ & _).
  cbn [has_standalone_pii combinatorial_fields_present] in *.
  exists st. split; [exact E|]. unfold process_record. rewrite E.
  cbn [bind]. rewrite H, P. reflexivity.
Qed.

Lemma vocabularies_disjoint (k : str) :
  In k standalone_vocabulary -> In k combinatorial_pii -> False.
Proof.
  intros V C. destruct V as [<-|[<-|[<-|[<-|[]]]]];
    apply key_in_In in C; vm_compute in C; discriminate.
Qed.

(** X19: in the record returned by [process_record], every field that is
    a standalone match holds the output of its own masking function on the
    original value: [mask_phone] for [phone], [mask_aadhar] for [aadhar],
    [mask_passport] for [passport], [mask_upi] for [upi_id]. *)
Theorem X19_standalone_match_is_masked
        (rec red : record) (b : bool) (k : str) (v : value) :
  well_formed rec ->
  process_record rec = Ok (red, b) ->
  In (k, v) rec ->
  is_standalone_pii k v = true ->
  b = true /\
  exists s f m,
    v = VStr s /\ standalone_mask k = Some f /\ f s = Ok m /\
    dict_get k red = Ok (VStr m).
Proof.
  intros WF E I H.
  destruct (process_record_stages rec) as (st & Es & Ep).
  rewrite Ep in E. apply bind_Ok_inv in E as (r & Er & E).
  injection E as -> <-. split.
  - apply orb_true_iff. left. apply existsb_exists. exists (k, v). auto.
  - destruct (scan_items_hit rec _ st k v WF I H Es)
      as (s & f & m & Ev & Ef & Em & G).
    exists s, f, m. repeat (split; [assumption|]).
    destruct (threshold_reached rec).
    + destruct (redact_all_frame rec _ _ _ Er) as [F _].
      rewrite F; [exact G|]. intros P.
      apply present_fields_In in P as (v' & _ & P).
      apply is_present_combinatorial in P as [C _].
      apply is_standalone_pii_spec in H as (_ & r0 & _ & Hr & _).
      exact (vocabularies_disjoint k
               (registered_pattern_vocabulary _ _ Hr) C).
    + injection Er as <-. exact G.
Qed.

Lemma X19_witness :
  exists s f m,
    VStr (py "123456789012") = VStr s /\
    standalone_mask k_aadhar = Some f /\ f s = Ok m /\
    dict_get k_aadhar
      [(py "id", VInt 7); (k_aadhar, VStr (py "XXXX XXXX 9012"))]
    = Ok (VStr m).
Proof.
  assert (WF : well_formed [(py "id", VInt 7);
                            (k_aadhar, VStr (py "123456789012"))])
    by solve_well_formed.
  apply (X19_standalone_match_is_masked _ _ true k_aadhar _ WF eq_refl).
  - cbn; auto.
  - reflexivity.
Defined.

(** X20: when the combinatorial threshold is reached and [process_record]
    returns, every combinatorial field with a truthy value, not only two of
    them, holds the output of its own masking function on the original
    value. *)
Theorem X20_present_field_is_masked
        (rec red : record) (b : bool) (k : str) (v : value) :
  well_formed rec ->
  process_record rec = Ok (red, b) ->
  combinatorial_hit rec ->
  In (k, v) rec -> In k combinatorial_pii -> truthy v = true ->
  b = true /\
  exists s f m,
    v = VStr s /\ combinatorial_mask k = Some f /\ f s = Ok m /\
    dict_get k red = Ok (VStr m).
Proof.
  intros WF E Hit I C T.
  apply (combinatorial_hit_iff rec WF) in Hit.
  destruct (process_record_stages rec) as (st & Es & Ep).
  rewrite Ep, Hit in E. apply bind_Ok_inv in E as (r & Er & E).
  injection E as -> <-. split; [apply orb_true_r|].
  apply (redact_all_hit rec (present_fields rec) (redacted_record st) red k v);
    [| | | |exact Er].
  - apply (NoDup_keys_filter is_present rec WF).
  - apply present_fields_In. exists v. split; [exact I|].
    apply is_present_combinatorial. auto.
  - intros k0 I0. apply present_fields_In in I0 as (v0 & _ & P).
    apply is_present_combinatorial in P. tauto.
  - apply In_dict_get; assumption.
Qed.

Lemma X20_witness :
  exists s f m,
    VStr (py "DEV123456") = VStr s /\
    combinatorial_mask k_device_id = Some f /\ f s = Ok m /\
    dict_get k_device_id
      [(k_name, VStr (py "J*** D***")); (k_email, VStr (py "x***@y.com"));
       (k_device_id, VStr (py "D*******6"))]
    = Ok (VStr m).
Proof.
  assert (WF : well_formed [(k_name, VStr (py "John Doe"));
                            (k_email, VStr (py "x@y.com"));
                            (k_device_id, VStr (py "DEV123456"))])
    by solve_well_formed.
  apply (X20_present_field_is_masked _ _ true k_device_id _ WF eq_refl).
  - exists k_name, (VStr (py "John Doe")), k_email, (VStr (py "x@y.com")).
    repeat split; try discriminate; cbn; auto 6.
  - cbn; auto.
  - cbn; auto 6.
  - reflexivity.
Defined.

Lemma scan_items_no_hit (items : record) :
  forall st st',
    existsb is_standalone_item items = false ->
    scan_items st items = Ok st' ->
    redacted_record st' = redacted_record st.
Proof.
  induction items as [|[k v] items IH]; intros st st' H E.
  - injection E as <-. reflexivity.
  - cbn [existsb] in H. apply orb_false_iff in H as [Hk H].
    unfold is_standalone_item in Hk. cbn [fst snd] in Hk.
    cbn [scan_items] in E. apply bind_Ok_inv in E as (st1 & E1 & E).
    destruct (scan_item_spec st k v) as (st1' & E1' & _ & _ & _ & U).
    rewrite E1 in E1'. injection E1' as <-.
    rewrite (IH st1 st' H E). exact (U Hk).
Qed.

(** X21: a record that [process_record] does not flag is returned exactly
    as it was given: whenever the flag is false, the redacted record is the
    input record. *)
Theorem X21_unflagged_record_unchanged (rec red : record) :
  process_record rec = Ok (red, false) -> red = rec.
Proof.
  intros E. destruct (process_record_stages rec) as (st & Es & Ep).
  rewrite Ep in E. apply bind_Ok_inv in E as (r & Er & E).
  injection E as -> F. apply orb_false_iff in F as [Fs Ft].
  rewrite Ft in Er. injection Er as <-.
  exact (scan_items_no_hit rec _ st Fs Es).
Qed.

Lemma X21_witness :
  process_record [(k_name, VStr (py "John Doe")); (k_phone, VInt 9876543210);
                  (k_email, VStr (py ""))]
  = Ok ([(k_name, VStr (py "John Doe")); (k_phone, VInt 9876543210);
         (k_email, VStr (py ""))], false) /\
  [(k_name, VStr (py "John Doe")); (k_phone, VInt 9876543210);
   (k_email, VStr (py ""))]
  = [(k_name, VStr (py "John Doe")); (k_phone, VInt 9876543210);
     (k_email, VStr (py ""))].
Proof.
  split; [reflexivity|].
  apply (X21_unflagged_record_unchanged
           [(k_name, VStr (py "John Doe")); (k_phone, VInt 9876543210);
            (k_email, VStr (py ""))]).
  reflexivity.
Defined.

(** X22: classification is additive: when a record is flagged, every
    record that contains all of its fields, and on which [process_record]
    returns, is flagged too. *)
Theorem X22_flag_monotone (rec rec' red red' : record) (b' : bool) :
  well_formed rec -> well_formed rec' ->
  incl rec rec' ->
  process_record rec = Ok (red, true) ->
  process_record rec' = Ok (red', b') ->
  b' = true.
Proof.
  intros WF WF' Sub E E'.
  apply process_record_flag in E. apply process_record_flag in E'.
  rewrite E'. symmetry in E. apply orb_true_iff in E. apply orb_true_iff.
  destruct E as [H|H]; [left|right].
  - apply detector_hit_iff in H. apply detector_hit_iff.
    destruct H as (k & s & r & I & H). exists k, s, r.
    split; [apply Sub; exact I | exact H].
  - apply (combinatorial_hit_iff rec WF) in H.
    apply (combinatorial_hit_iff rec' WF').
    destruct H as (k1 & v1 & k2 & v2 & N & C1 & C2 & I1 & I2 & T).
    exists k1, v1, k2, v2. repeat split; try tauto; apply Sub; assumption.
Qed.

Lemma X22_witness :
  exists red' b',
    process_record [(py "note", VStr (py "call back"));
                    (k_phone, VStr (py "9876543210"));
                    (k_name, VStr (py "John Doe"))] = Ok (red', b') /\
    b' = true.
Proof.
  eexists _, _. split; [reflexivity|].
  eapply (X22_flag_monotone
           [(k_phone, VStr (py "9876543210"))]
           [(py "note", VStr (py "call back"));
            (k_phone, VStr (py "9876543210"));
            (k_name, VStr (py "John Doe"))]
           [(k_phone, VStr (py "98XXXXXX10"))] _ _).
  - solve_well_formed.
  - solve_well_formed.
  - intros x [<-|[]]. cbn; auto.
  - reflexivity.
  - reflexivity.
Defined.

(** X23: for a record whose values are scalars (null, booleans, integers,
    strings), [process_record] raises exactly when the combinatorial
    threshold is reached and some combinatorial field holds [True], a
    non-zero number, or, for the field [email], a non-empty string without
    [@]; what it raises is then [ValueError], [AttributeError] or
    [TypeError].  So on such records a record below the threshold never
    fails, standalone matches never fail, and neither the lookup
    [record[key]] nor an index into a string ever fails. *)
Theorem X23_when_process_record_raises (rec : record) :
  well_formed rec ->
  (raises (process_record rec) <->
   threshold_reached rec = true /\
   exists k v,
     In (k, v) rec /\ In k combinatorial_pii /\
     (v = VBool true \/
      (exists n, v = VInt n /\ n <> 0%Z) \/
      (k = k_email /\
       exists s, v = VStr s /\ s <> [] /\ has_char "@" s = false))) /\
  (forall e, process_record rec = Raise e ->
             e = ValueError \/ e = AttributeError \/ e = TypeError).
Proof.
  intros WF. split; [|intros e E; exact (process_record_error_kind rec e WF E)].
  rewrite (process_record_raises_iff rec WF). split.
  - intros (T & k & v & I & P & M). split; [exact T|].
    exists k, v. apply is_present_combinatorial in P as [C Tv].
    repeat (split; [assumption|]).
    unfold maskable in M. cbn [fst snd] in M.
    destruct v as [|b|n|s].
    + discriminate Tv.
    + left. destruct b; [reflexivity | discriminate Tv].
    + right; left. exists n. split; [reflexivity|].
      intros ->. discriminate Tv.
    + right; right.
      destruct (str_eqb k k_email) eqn:E; [|discriminate].
      apply str_eqb_eq in E. split; [exact E|]. exists s.
      split; [reflexivity|]. split; [|exact M].
      intros ->. discriminate Tv.
  - intros (T & k & v & I & C & H). split; [exact T|].
    exists k, v. split; [exact I|].
    destruct H as [->|[(n & -> & Hn)|(-> & s & -> & Ns & H)]].
    + split; [apply is_present_combinatorial; auto|reflexivity].
    + split; [|reflexivity]. apply is_present_combinatorial.
      split; [exact C|]. unfold truthy.
      destruct (Z.eqb_spec n 0); [congruence | reflexivity].
    + split.
      * apply is_present_combinatorial. split; [exact C|].
        destruct s; [congruence | reflexivity].
      * unfold maskable. cbn [fst snd]. rewrite str_eqb_refl. exact H.
Qed.

Lemma X23_witness :
  raises (process_record [(k_phone, VStr (py "9876543210"));
                          (k_address, VBool true);
                          (k_name, VStr (py "John Doe"))]) /\
  ~ raises (process_record [(k_phone, VStr (py "9876543210"));
                            (k_address, VBool true)]).
Proof.
  assert (WF3 : well_formed [(k_phone, VStr (py "9876543210"));
                             (k_address, VBool true);
                             (k_name, VStr (py "John Doe"))])
    by solve_well_formed.
  assert (WF2 : well_formed [(k_phone, VStr (py "9876543210"));
                             (k_address, VBool true)])
    by solve_well_formed.
  split.
  - apply (proj1 (X23_when_process_record_raises _ WF3)).
    split; [reflexivity|].
    exists k_address, (VBool true). cbn. auto 10.
  - intros R.
    apply (proj1 (X23_when_process_record_raises _ WF2)) in R as [T _].
    discriminate T.
Defined.

(* ================================================================== *)
(** ** The driver *)

Section DriverFacts.

Variable json_loads : str -> result document.
Variable json_dumps : record -> str.

(** X24: [main] stops at the first row that fails.  When the rows before
    it succeed and that row raises (a missing column, text that is not
    JSON, a record on which [process_record] raises), the output holds the
    rows before it and nothing else, the exception leaves the loop, and
    the rows after it are never processed, whatever they are. *)
Theorem X24_main_stops_at_first_failure
        (before after : list csv_row) (row : csv_row)
        (outs : list output_row) (e : exn) :
  Forall2 (fun r o => main_row json_loads json_dumps r = Ok o) before outs ->
  main_row json_loads json_dumps row = Raise e ->
  main_rows json_loads json_dumps (before ++ row :: after) = (outs, Raise e).
Proof.
  intros F E. induction F as [|r o rs os Hr _ IH].
  - cbn [app main_rows]. rewrite E. reflexivity.
  - cbn [app main_rows]. rewrite Hr, IH. reflexivity.
Qed.

(** X25: when every row succeeds, [main] writes one output row per input
    row, in the order of the input, each with the record id of its row,
    and ends normally. *)
Theorem X25_main_on_good_rows (rows : list csv_row) :
  (forall r, In r rows -> returns (main_row json_loads json_dumps r)) ->
  exists outs,
    main_rows json_loads json_dumps rows = (outs, Ok tt) /\
    Forall2 (fun r o => main_row json_loads json_dumps r = Ok o) rows outs /\
    Forall2 (fun r o => row_get (py "record_id") r = Ok (out_record_id o))
            rows outs.
Proof.
  induction rows as [|r rows IH]; intros H.
  - exists []. repeat split; constructor.
  - destruct (H r (or_introl eq_refl)) as [o Ho].
    destruct IH as (outs & E & F & G);
      [intros r' I; apply H; right; exact I|].
    exists (o :: outs). cbn [main_rows]. rewrite Ho, E.
    split; [reflexivity|]. split; constructor; auto.
    unfold main_row in Ho.
    apply bind_Ok_inv in Ho as (rid & R & Ho). rewrite R.
    apply bind_Ok_inv in Ho as (text & _ & Ho).
    apply bind_Ok_inv in Ho as (d & _ & Ho).
    apply bind_Ok_inv in Ho as ([red b] & _ & Ho).
    injection Ho as <-. reflexivity.
Qed.

End DriverFacts.

Lemma X24_witness :
  main_rows
    (fun text => if str_eqb text (py "good")
                 then Ok (DObject [(k_phone, VStr (py "9876543210"))])
                 else Ok (DObject [(k_name, VStr (py "John Doe"));
                                   (k_email, VStr (py "johndoe"))]))
    (fun _ => py "{}")
    ([[(py "record_id", py "1"); (py "data_json", py "good")]]
       ++ [(py "record_id", py "2"); (py "data_json", py "bad")]
       :: [[(py "record_id", py "3"); (py "data_json", py "good")]])
  = ([OutputRow (py "1") (py "{}") true], Raise ValueError).
Proof.
  apply X24_main_stops_at_first_failure.
  - constructor; [reflexivity | constructor].
  - reflexivity.
Defined.

Lemma X25_witness :
  exists outs,
    main_rows (fun _ => Ok (DObject [(k_phone, VStr (py "9876543210"))]))
              (fun _ => py "{}")
              [[(py "record_id", py "1"); (py "data_json", py "{}")];
               [(py "record_id", py "2"); (py "data_json", py "{}")]]
    = (outs, Ok tt) /\
    map out_record_id outs = [py "1"; py "2"] /\
    map out_is_pii outs = [true; true].
Proof.
  destruct (X25_main_on_good_rows
              (fun _ => Ok (DObject [(k_phone, VStr (py "9876543210"))]))
              (fun _ => py "{}")
              [[(py "record_id", py "1"); (py "data_json", py "{}")];
               [(py "record_id", py "2"); (py "data_json", py "{}")]])
    as (outs & E & _ & _).
  - intros r [<-|[<-|[]]]; eexists; reflexivity.
  - exists outs. split; [exact E|].
    injection E as <-. split; reflexivity.
Defined.
